(** * A shallow embedding of the transformer training pipeline

    The development follows the three source files:
    - [Data.py]: [Vocab] (token/index tables), [Vocab.build] (frequency
      sorted vocabulary dump) and [Dataset] (shards, sort, padded batches);
    - [Learning.py]: [prepare_input] (shifted targets and masks) and the
      control flow of [Learning.learn];
    - [transformer/Model.py]: checkpoint files, the decoder layer and the
      additive positional table.

    Python integers are [Z] where a sign can matter (options, indices given
    by a caller) and [nat] where the code only ever produces naturals
    (lengths, vocabulary indices).  Python exceptions and [sys.exit] are the
    [Raise] branch of [result].

    A character is a code point below 256 and a string is a sequence of
    such characters: the model covers text of the Latin-1 range, which
    holds the ASCII characters and two more white space characters,
    U+0085 and U+00A0.  Text with other characters is outside the model. *)

From Stdlib Require Import ZArith List String Ascii Lia Permutation.
From Stdlib Require Reals Lra.
From stdpp Require Import gmap strings list fin_maps sorting.

(** ** Exceptions *)

Inductive exn : Type :=
| SysExit
| IndexError
| UnboundLocalError
| ZeroDivisionError
| ValueError
| AttributeError
| FileNotFoundError
| RuntimeError
| AssertionError.

Inductive result (A : Type) : Type :=
| Ok (a : A)
| Raise (e : exn).
Arguments Ok {A} a.
Arguments Raise {A} e.

#[global] Instance result_ret : MRet result := fun A a => Ok a.
#[global] Instance result_bind : MBind result := fun A B k r =>
  match r with
  | Ok a => k a
  | Raise e => Raise e
  end.

(** A directory of text files: path to lines.  Each line keeps its
    terminator, as Python's file iteration yields it. *)
Abbreviation textfs := (gmap string (list string)).

(** ** Python's white space

    [str.isspace] on one character, which is what [str.rstrip()] without
    an argument strips: the characters 9 to 13 and 28 to 32, U+0085 and
    U+00A0. *)

Definition is_space (c : ascii) : bool :=
  let n := nat_of_ascii c in
  ((9 <=? n) && (n <=? 13)) || ((28 <=? n) && (n <=? 32)) ||
  (n =? 133) || (n =? 160).

(** ** Data.py: OpenNMTTokenizer

    [pyonmttok] is an external library; the tokenizer is a parameter of
    everything that tokenizes.  [space_tokenize] is a concrete instance used
    to run the definitions.  As the default mode ['space'] does, it cuts at
    the blank character U+0020 only: every other character stays in its
    token, tabs and the line terminator included, and no token is empty. *)

Definition is_blank (c : ascii) : bool := Ascii.eqb c " "%char.

Fixpoint split_blank (cur : string) (s : string) : list string :=
  match s with
  | EmptyString => if String.eqb cur "" then [] else [cur]
  | String c r =>
      if is_blank c
      then (if String.eqb cur "" then split_blank "" r
            else cur :: split_blank "" r)
      else split_blank (cur ++ String c "") r
  end.

Definition space_tokenize (l : string) : list string := split_blank "" l.

(** [str.lstrip], [str.rstrip] and [str.strip] over a set of characters. *)
Fixpoint lstrip_by (p : ascii -> bool) (s : string) : string :=
  match s with
  | EmptyString => EmptyString
  | String c r => if p c then lstrip_by p r else s
  end.

Fixpoint rstrip_by (p : ascii -> bool) (s : string) : string :=
  match s with
  | EmptyString => EmptyString
  | String c r =>
      match rstrip_by p r with
      | EmptyString => if p c then EmptyString else String c EmptyString
      | r' => String c r'
      end
  end.

Definition strip_by (p : ascii -> bool) (s : string) : string :=
  rstrip_by p (lstrip_by p s).

(** A line of a text file, with its terminator. *)
Definition LF : string := String (ascii_of_nat 10) EmptyString.
Definition line (s : string) : string := s ++ LF.

(** ** Data.py: Vocab *)

Module Vocab.

Record t : Type := mk {
  tok_to_idx : gmap string nat;
  idx_to_tok : list string
}.

Definition idx_pad : nat := 0.
Definition str_pad : string := "<pad>".
Definition idx_unk : nat := 1.
Definition str_unk : string := "<unk>".
Definition idx_bos : nat := 2.
Definition str_bos : string := "<bos>".
Definition idx_eos : nat := 3.
Definition str_eos : string := "<eos>".
Definition idx_sep : nat := 4.
Definition str_sep : string := "<sep>".

(** The state of a fresh object, before [read]. *)
Definition empty : t := {| tok_to_idx := ∅; idx_to_tok := [] |}.

(** [__len__] *)
Definition len (v : t) : nat := length (idx_to_tok v).

(** [__contains__], at an [int] and at a [str]. *)
Definition contains_int (v : t) (s : Z) : bool :=
  (0 <=? s)%Z && (s <? Z.of_nat (len v))%Z.

Definition contains_str (v : t) (s : string) : bool :=
  bool_decide (is_Some (tok_to_idx v !! s)).

(** [__getitem__] at an [int]: the string of an index, [sys.exit] when
    the index is not in the vocabulary. *)
Definition getitem_int (v : t) (s : Z) : result string :=
  if negb (contains_int v s) then Raise SysExit
  else match idx_to_tok v !! Z.to_nat s with
       | Some tok => Ok tok
       | None => Raise IndexError
       end.

(** [__getitem__] at a [str]: the index of a string, [idx_unk] when the
    string is not in the vocabulary. *)
Definition getitem_str (v : t) (s : string) : nat :=
  if negb (contains_str v s) then idx_unk
  else match tok_to_idx v !! s with
       | Some i => i
       | None => idx_unk
       end.

(** [str.rstrip()]: the white space at the end is removed. *)
Definition rstrip (s : string) : string := rstrip_by is_space s.

Fixpoint has_blank (s : string) : bool :=
  match s with
  | EmptyString => false
  | String c r => Ascii.eqb c " "%char || has_blank r
  end.

(** The body of the loop of [read] over the lines of the file. *)
Definition read_line (v : t) (l : string) : t :=
  let tok := rstrip l in
  if contains_str v tok then v
  else if has_blank tok || (String.length tok =? 0) then v
  else {| idx_to_tok := idx_to_tok v ++ [tok];
          tok_to_idx := <[tok := size (tok_to_idx v)]> (tok_to_idx v) |}.

(** One of the five checks that close [read]: [idx_to_tok[i] != s]. *)
Definition check_reserved (v : t) (i : nat) (s : string) : result unit :=
  match idx_to_tok v !! i with
  | None => Raise IndexError
  | Some tok => if String.eqb tok s then Ok tt else Raise SysExit
  end.

Definition read (fs : textfs) (file : string) (v : t) : result t :=
  match fs !! file with
  | None => Raise SysExit
  | Some lines =>
      let v' := fold_left read_line lines v in
      _ ← check_reserved v' idx_pad str_pad;
      _ ← check_reserved v' idx_unk str_unk;
      _ ← check_reserved v' idx_bos str_bos;
      _ ← check_reserved v' idx_eos str_eos;
      _ ← check_reserved v' idx_sep str_sep;
      Ok v'
  end.

(** [Vocab(file)]: [file=None] leaves the tables empty. *)
Definition init (fs : textfs) (file : option string) : result t :=
  match file with
  | None => Ok empty
  | Some f => read fs f empty
  end.

(** The two tables agree: the invariant that [read] maintains. *)
Definition consistent (v : t) : Prop :=
  size (tok_to_idx v) = length (idx_to_tok v) /\
  forall (s : string) (i : nat),
    tok_to_idx v !! s = Some i <-> idx_to_tok v !! i = Some s.

Lemma consistent_empty : consistent empty.
Proof.
  split; [reflexivity|].
  intros s i; cbn. rewrite lookup_empty. split; intros H; inversion H.
Qed.

Lemma contains_str_false (v : t) (s : string) :
  contains_str v s = false <-> tok_to_idx v !! s = None.
Proof.
  unfold contains_str. rewrite bool_decide_eq_false.
  rewrite <- eq_None_not_Some. reflexivity.
Qed.

Lemma consistent_read_line (v : t) (l : string) :
  consistent v -> consistent (read_line v l).
Proof.
  intros [Hsz Hbij]. unfold read_line.
  destruct (contains_str v (rstrip l)) eqn:Hc; [by split|].
  destruct (has_blank (rstrip l) || (String.length (rstrip l) =? 0));
    [by split|].
  apply contains_str_false in Hc.
  split; cbn.
  - rewrite map_size_insert_None by done. rewrite length_app; cbn. lia.
  - intros s i. rewrite lookup_insert. case_decide as Heq.
    + subst s. split.
      * intros [= <-]. rewrite Hsz.
        rewrite lookup_app_r by lia. by rewrite Nat.sub_diag.
      * intros Hi. f_equal.
        destruct (decide (i < length (idx_to_tok v))) as [Hlt|Hge].
        -- rewrite lookup_app_l in Hi by done.
           apply Hbij in Hi. congruence.
        -- apply lookup_lt_Some in Hi. rewrite length_app in Hi; cbn in Hi.
           lia.
    + rewrite Hbij. split.
      * intros Hi. rewrite lookup_app_l; [done|].
        by apply lookup_lt_Some in Hi.
      * intros Hi.
        destruct (decide (i < length (idx_to_tok v))) as [Hlt|Hge].
        -- by rewrite lookup_app_l in Hi.
        -- rewrite lookup_app_r in Hi by lia.
           destruct (i - length (idx_to_tok v)) as [|[|k]];
             simplify_eq/=.
Qed.

Lemma consistent_fold (lines : list string) (v : t) :
  consistent v -> consistent (fold_left read_line lines v).
Proof.
  revert v. induction lines as [|l lines IH]; intros v Hv; cbn; [done|].
  apply IH. by apply consistent_read_line.
Qed.

Lemma read_consistent (fs : textfs) (file : string) (v v' : t) :
  consistent v -> read fs file v = Ok v' -> consistent v'.
Proof.
  intros Hv. unfold read. destruct (fs !! file) as [lines|]; [|done].
  intros H.
  repeat match type of H with
         | mbind _ ?c = Ok _ => destruct c; cbn in H; [|done]
         end.
  injection H as <-. by apply consistent_fold.
Qed.

Lemma init_consistent (fs : textfs) (file : option string) (v : t) :
  init fs file = Ok v -> consistent v.
Proof.
  destruct file as [f|]; cbn.
  - apply read_consistent, consistent_empty.
  - intros [= <-]. apply consistent_empty.
Qed.

(** A vocabulary file used to run the definitions: the five reserved
    symbols, two tokens, a repeated entry and two malformed entries. *)
Definition sample_lines : list string :=
  map line ["<pad>"; "<unk>"; "<bos>"; "<eos>"; "<sep>";
            "a"; "b"; "a"; ""; "c d"].

Definition sample_fs : textfs := {[ "vocab.txt" := sample_lines ]}.

Definition sample : t :=
  match init sample_fs (Some "vocab.txt") with
  | Ok v => v
  | Raise _ => empty
  end.

Example sample_tokens :
  idx_to_tok sample = ["<pad>"; "<unk>"; "<bos>"; "<eos>"; "<sep>"; "a"; "b"].
Proof. vm_compute. reflexivity. Qed.

(** C7: for every vocabulary [v] that [Vocab(file)] returns, a token that
    is in [v] is mapped to an index whose string is that token again, and a
    token that is not in [v] is mapped to the unknown index 1.  Looking up a
    string is a total function: it has no error branch. *)
Theorem lookup_roundtrip (fs : textfs) (file : option string) (v : t) :
  init fs file = Ok v ->
  forall tok : string,
    (contains_str v tok = true ->
     getitem_int v (Z.of_nat (getitem_str v tok)) = Ok tok) /\
    (contains_str v tok = false -> getitem_str v tok = 1).
Proof.
  intros Hinit tok. apply init_consistent in Hinit as [Hsz Hbij].
  split; intros Hc; unfold getitem_str; rewrite Hc; cbn; [|reflexivity].
  apply bool_decide_eq_true in Hc as [i Hi]. rewrite Hi.
  pose proof (proj1 (Hbij tok i) Hi) as Hl.
  pose proof (lookup_lt_Some _ _ _ Hl) as Hlt.
  unfold getitem_int, contains_int, len.
  replace ((0 <=? Z.of_nat i)%Z && (Z.of_nat i <? Z.of_nat (length (idx_to_tok v)))%Z)
    with true by (symmetry; apply andb_true_iff; split;
                  [apply Z.leb_le|apply Z.ltb_lt]; lia).
  cbn. rewrite Nat2Z.id, Hl. reflexivity.
Qed.

Lemma lookup_roundtrip_witness :
  getitem_int sample (Z.of_nat (getitem_str sample "b")) = Ok "b" /\
  getitem_str sample "zebra" = 1.
Proof.
  assert (Hinit : init sample_fs (Some "vocab.txt") = Ok sample)
    by (vm_compute; reflexivity).
  split.
  - apply (lookup_roundtrip sample_fs (Some "vocab.txt") sample Hinit "b").
    vm_compute; reflexivity.
  - apply (lookup_roundtrip sample_fs (Some "vocab.txt") sample Hinit "zebra").
    vm_compute; reflexivity.
Defined.

End Vocab.

(** ** Python's [sorted]

    [sorted] is stable: elements whose keys compare equal keep the order
    they have in the input.  [sorted_by before] is the insertion sort with
    that behaviour, [before y x] saying that [y] must come strictly before
    [x]. *)

Lemma StronglySorted_mono {A : Type} (R S : A -> A -> Prop) (l : list A) :
  (forall x y, R x y -> S x y) -> StronglySorted R l -> StronglySorted S l.
Proof.
  intros HRS. induction 1 as [|x r Hr IH Hx]; constructor; [done|].
  eapply Forall_impl; [exact Hx|]. intros y. apply HRS.
Qed.

Section Sorted.

Context {A : Type} (before : A -> A -> bool).

Fixpoint insert_by (x : A) (l : list A) : list A :=
  match l with
  | [] => [x]
  | y :: r => if before y x then y :: insert_by x r else x :: y :: r
  end.

Fixpoint sorted_by (l : list A) : list A :=
  match l with
  | [] => []
  | x :: r => insert_by x (sorted_by r)
  end.

(** [not_after x y]: [y] does not have to come strictly before [x]. *)
Definition not_after (x y : A) : Prop := before y x = false.

Lemma insert_by_perm (x : A) (l : list A) : insert_by x l ≡ₚ x :: l.
Proof.
  induction l as [|y r IH]; cbn; [done|].
  destruct (before y x); [|done].
  rewrite IH. apply Permutation_swap.
Qed.

Lemma sorted_by_perm (l : list A) : sorted_by l ≡ₚ l.
Proof.
  induction l as [|x r IH]; cbn; [done|].
  by rewrite insert_by_perm, IH.
Qed.

Lemma sorted_by_length (l : list A) : length (sorted_by l) = length l.
Proof. apply Permutation_length, sorted_by_perm. Qed.

Lemma sorted_by_In (x : A) (l : list A) : In x (sorted_by l) <-> In x l.
Proof.
  split; apply Permutation_in; [|symmetry]; apply sorted_by_perm.
Qed.



(** Order: when [not_after] is a total preorder, no element of the output
    has to come before one that precedes it. *)
Hypothesis before_asym : forall x y, before x y = true -> before y x = false.
Hypothesis not_after_trans : forall x y z,
  not_after x y -> not_after y z -> not_after x z.

Lemma insert_by_sorted (x : A) (l : list A) :
  StronglySorted not_after l -> StronglySorted not_after (insert_by x l).
Proof using before_asym not_after_trans.
  induction 1 as [|y r Hr IH Hy]; cbn.
  - repeat constructor.
  - destruct (before y x) eqn:Hyx.
    + constructor; [done|].
      rewrite (insert_by_perm x r). constructor; [|done].
      by apply before_asym.
    + constructor; [by constructor|].
      constructor; [done|].
      eapply Forall_impl; [exact Hy|].
      intros z Hz. by eapply not_after_trans.
Qed.

Lemma sorted_by_sorted (l : list A) : StronglySorted not_after (sorted_by l).
Proof using before_asym not_after_trans.
  induction l as [|x r IH]; cbn; [constructor|].
  by apply insert_by_sorted.
Qed.

End Sorted.

(** ** Data.py: Vocab.build

    [build] reads tokenized lines from standard input and prints one
    vocabulary entry per line; the model takes the lines of standard input
    and returns the printed lines. *)

Module Build.

Section WithTokenizer.

Variable tokenize : string -> list string.

(** [tok_to_frq[tok] += 1] on a [defaultdict(int)]: a dictionary iterates
    in the order in which its keys were first inserted, so the counts are an
    association list in that order. *)
Fixpoint incr (tok : string) (d : list (string * nat)) : list (string * nat) :=
  match d with
  | [] => [(tok, 1)]
  | (t, n) :: r =>
      if String.eqb t tok then (t, S n) :: r else (t, n) :: incr tok r
  end.

Definition blank_or_lf (c : ascii) : bool :=
  Ascii.eqb c " "%char || Ascii.eqb c (ascii_of_nat 10).

Definition count_line (d : list (string * nat)) (l : string) : list (string * nat) :=
  fold_left (fun d tok => incr tok d) (tokenize (strip_by blank_or_lf l)) d.

Definition count_tokens (stdin : list string) : list (string * nat) :=
  fold_left count_line stdin [].

(** [sorted(..., key=lambda item: item[1], reverse=True)]: an item is
    strictly before another when its frequency is strictly greater. *)
Definition by_frq_desc (y x : string * nat) : bool := snd x <? snd y.

(** The loop that prints the tokens; [n] counts the printed entries. *)
Fixpoint emit (min_freq max_size : Z) (n : Z) (items : list (string * nat))
  : list string :=
  match items with
  | [] => []
  | (tok, frq) :: r =>
      if (n =? max_size)%Z || (Z.of_nat frq <? min_freq)%Z then []
      else tok :: emit min_freq max_size (n + 1) r
  end.

Definition reserved : list string :=
  [Vocab.str_pad; Vocab.str_unk; Vocab.str_bos; Vocab.str_eos; Vocab.str_sep].

Definition build (stdin : list string) (min_freq max_size : Z) : list string :=
  let tok_to_frq := count_tokens stdin in
  reserved ++ emit min_freq max_size 5 (sorted_by by_frq_desc tok_to_frq).

(** The longest prefix of candidates whose frequency is not below
    [min_freq]. *)
Fixpoint eligible (min_freq : Z) (items : list (string * nat))
  : list (string * nat) :=
  match items with
  | [] => []
  | (tok, frq) :: r =>
      if (Z.of_nat frq <? min_freq)%Z then [] else (tok, frq) :: eligible min_freq r
  end.

(** What the counting loop computes: the frequency of every token, the
    keys in the order of their first occurrence. *)
Fixpoint frq_of (tok : string) (d : list (string * nat)) : nat :=
  match d with
  | [] => 0
  | (t, n) :: r => if String.eqb t tok then n else frq_of tok r
  end.

Definition all_tokens (stdin : list string) : list string :=
  concat (map (fun l => tokenize (strip_by blank_or_lf l)) stdin).

Definition add_key (keys : list string) (tok : string) : list string :=
  if decide (tok ∈ keys) then keys else keys ++ [tok].

Definition first_seen (toks : list string) : list string :=
  fold_left add_key toks [].

Lemma emit_unbounded (min_freq max_size n : Z) (items : list (string * nat)) :
  (max_size < n)%Z ->
  emit min_freq max_size n items = map fst (eligible min_freq items).
Proof.
  revert n. induction items as [|[tok frq] r IH]; intros n Hn; cbn; [done|].
  replace (n =? max_size)%Z with false by (symmetry; apply Z.eqb_neq; lia).
  cbn. destruct (Z.of_nat frq <? min_freq)%Z; [done|].
  cbn. f_equal. apply IH. lia.
Qed.

Lemma emit_bounded (min_freq max_size n : Z) (items : list (string * nat)) :
  (n <= max_size)%Z ->
  emit min_freq max_size n items =
  map fst (take (Z.to_nat (max_size - n)) (eligible min_freq items)).
Proof.
  revert n. induction items as [|[tok frq] r IH]; intros n Hn; cbn.
  - by rewrite take_nil.
  - destruct (Z.eqb_spec n max_size) as [->|Hne]; cbn.
    + by rewrite Z.sub_diag.
    + destruct (Z.of_nat frq <? min_freq)%Z; cbn; [by rewrite take_nil|].
      replace (Z.to_nat (max_size - n)) with (S (Z.to_nat (max_size - (n + 1))))
        by lia.
      cbn. f_equal. apply IH. lia.
Qed.

Lemma by_frq_desc_sorted (l : list (string * nat)) :
  StronglySorted (fun a b => snd b <= snd a) (sorted_by by_frq_desc l).
Proof.
  eapply StronglySorted_mono; [|apply (sorted_by_sorted by_frq_desc)].
  - intros a b. unfold not_after, by_frq_desc. intros H.
    apply Nat.ltb_ge in H. done.
  - intros x y. unfold by_frq_desc. rewrite Nat.ltb_lt, Nat.ltb_ge. lia.
  - intros x y z. unfold not_after, by_frq_desc. rewrite !Nat.ltb_ge. lia.
Qed.

Lemma frq_of_incr (tok tok' : string) (d : list (string * nat)) :
  frq_of tok' (incr tok d) =
  if String.eqb tok tok' then S (frq_of tok' d) else frq_of tok' d.
Proof.
  induction d as [|[t n] r IH]; cbn.
  - done.
  - destruct (String.eqb_spec t tok) as [->|Hne]; cbn.
    + destruct (String.eqb_spec tok tok'); done.
    + rewrite IH. destruct (String.eqb_spec t tok') as [->|]; [|done].
      destruct (String.eqb_spec tok tok'); congruence.
Qed.

Lemma keys_incr (tok : string) (d : list (string * nat)) :
  map fst (incr tok d) = add_key (map fst d) tok.
Proof.
  unfold add_key. induction d as [|[t n] r IH]; cbn; [done|].
  destruct (String.eqb_spec t tok) as [->|Hne]; cbn.
  - rewrite decide_True; [done|]. apply list_elem_of_here.
  - rewrite IH. destruct (decide (tok ∈ map fst r)) as [Hin|Hin].
    + rewrite decide_True; [done|]. by apply list_elem_of_further.
    + rewrite decide_False; [done|].
      intros [?|?]%elem_of_cons; done.
Qed.



Lemma frq_of_fold (toks : list string) (d : list (string * nat)) (tok : string) :
  frq_of tok (fold_left (fun d tok => incr tok d) toks d) =
  count_occ string_dec toks tok + frq_of tok d.
Proof.
  revert d. induction toks as [|t toks IH]; intros d; cbn; [done|].
  rewrite IH, frq_of_incr.
  destruct (string_dec t tok) as [->|Hne].
  - rewrite String.eqb_refl. lia.
  - apply String.eqb_neq in Hne. rewrite Hne. lia.
Qed.

Lemma frq_of_count_tokens (stdin : list string) (tok : string) :
  frq_of tok (count_tokens stdin) = count_occ string_dec (all_tokens stdin) tok.
Proof.
  unfold count_tokens, all_tokens.
  enough (H : forall d, frq_of tok (fold_left count_line stdin d) =
                        count_occ string_dec
                          (concat (map (fun l => tokenize (strip_by blank_or_lf l)) stdin))
                          tok + frq_of tok d)
    by (rewrite H; cbn; lia).
  induction stdin as [|l stdin IH]; intros d; cbn; [done|].
  rewrite IH. unfold count_line. rewrite frq_of_fold, count_occ_app. lia.
Qed.

End WithTokenizer.


Definition sample_stdin : list string :=
  map line ["b a c"; "a b"; "d a"].


Example build_unbounded :
  build space_tokenize sample_stdin 1 0 =
  ["<pad>"; "<unk>"; "<bos>"; "<eos>"; "<sep>"; "a"; "b"; "c"; "d"].
Proof. vm_compute. reflexivity. Qed.


End Build.

(** ** Data.py: Dataset *)

Module Dataset.

(** One element of a batch: [[pos, src, tgt]]. *)
Definition example : Type := nat * list nat * list nat.
Definition batch : Type := list example.

(** A row of [idata] once it is a two-dimensional array:
    [[pos, len_src, len_tgt]]. *)
Definition row : Type := nat * nat * nat.

(** The local variables of [__init__] that the two reading loops share.
    [i_var] is the loop variable [i]: unbound until a loop binds it, and
    still bound after the loop. *)
Record locals : Type := mk_locals {
  ldata : list (list (list nat));
  idata : list (list nat);
  ntokens : nat;
  nunks : nat;
  i_var : option nat
}.

(** The pickled batch collections, by path. *)
Abbreviation pickles := (gmap string (list batch)).

Definition wrap (toks_idx : list nat) : list nat :=
  Vocab.idx_bos :: toks_idx ++ [Vocab.idx_eos].

Definition count_unk (toks_idx : list nat) : nat :=
  length (List.filter (fun x => x =? Vocab.idx_unk) toks_idx).

(** The logging call that closes each reading loop: its arguments are
    evaluated left to right, [i] first and [100.0*nunks/ntokens] later. *)
Definition log_read (st : locals) : result unit :=
  match i_var st with
  | None => Raise UnboundLocalError
  | Some _ => if ntokens st =? 0 then Raise ZeroDivisionError else Ok tt
  end.

(** [max] of a column of the batch. *)
Definition py_max (l : list nat) : result nat :=
  match l with
  | [] => Raise ValueError
  | x :: r => Ok (foldr Nat.max x r)
  end.

(** [np.asarray(idata)]: a two-dimensional array when every row has three
    entries. *)
Fixpoint asarray (rows : list (list nat)) : result (list row) :=
  match rows with
  | [] => Ok []
  | [pos; len_src; len_tgt] :: r =>
      rs ← asarray r; Ok ((pos, len_src, len_tgt) :: rs)
  | _ :: _ => Raise ValueError
  end.

(** [sorted(shard, key=operator.itemgetter(1, 2))] *)
Definition by_lengths (y x : row) : bool :=
  let '(_, ys, yt) := y in
  let '(_, xs, xt) := x in
  (ys <? xs) || ((ys =? xs) && (yt <? xt)).

(** The slices [l[i : min(len(l), i+step)]] for [i] in
    [range(0, len(l), step)]. *)
Fixpoint slices_from {X : Type} (fuel step : nat) (l : list X) : list (list X) :=
  match fuel with
  | 0 => []
  | S fuel' =>
      match l with
      | [] => []
      | _ :: _ => take step l :: slices_from fuel' step (drop step l)
      end
  end.

Definition slices {X : Type} (step : Z) (l : list X) : result (list (list X)) :=
  if (step =? 0)%Z then Raise ValueError
  else if (step <? 0)%Z then Ok []
  else Ok (slices_from (length l) (Z.to_nat step) l).

Fixpoint collect {X Y : Type} (f : X -> result Y) (l : list X) : result (list Y) :=
  match l with
  | [] => Ok []
  | x :: r => y ← f x; ys ← collect f r; Ok (y :: ys)
  end.

Definition build_example (ldata : list (list (list nat)))
    (src_idx_pad tgt_idx_pad max_src_len max_tgt_len : nat) (e : row)
  : result example :=
  let '(pos, src_len, tgt_len) := e in
  match ldata !! pos with
  | None => Raise IndexError
  | Some entry =>
      match entry !! 0, entry !! 1 with
      | Some s, Some t =>
          Ok (pos,
              s ++ replicate (max_src_len - src_len) src_idx_pad,
              t ++ replicate (max_tgt_len - tgt_len) tgt_idx_pad)
      | _, _ => Raise IndexError
      end
  end.

Definition build_batch (shard_batch : list row) (ldata : list (list (list nat)))
    (src_idx_pad tgt_idx_pad : nat) : result batch :=
  max_src_len ← py_max (map (fun e : row => e.1.2) shard_batch);
  max_tgt_len ← py_max (map (fun e : row => e.2) shard_batch);
  collect (build_example ldata src_idx_pad tgt_idx_pad max_src_len max_tgt_len)
          shard_batch.

(** The row of [idata] that [np.asarray] reads into an array row. *)
Definition row_list (r : row) : list nat := [r.1.1; r.1.2; r.2].

(** [seq] is [orig] padded on the right with [pad] up to [width]. *)
Definition padded_to (pad width : nat) (orig seq : list nat) : Prop :=
  seq = orig ++ replicate (width - length orig) pad /\ length seq = width.

Section WithCollaborators.

(** The tokenizer and the two calls of [np.random.shuffle]. *)
Variable tokenize : string -> list string.
Variable shuffle_rows : list row -> list row.
Variable shuffle_batches : list batch -> list batch.

Definition encode (vocab : Vocab.t) (l : string) : list nat :=
  map (Vocab.getitem_str vocab) (tokenize l).

(** The body of the loop over the source file. *)
Definition src_body (vocab : Vocab.t) (st : locals) (il : nat * string) : locals :=
  let '(i, l) := il in
  let toks_idx := encode vocab l in
  {| ldata := ldata st ++ [[wrap toks_idx]];
     idata := idata st ++ [[i; length (wrap toks_idx)]];
     ntokens := ntokens st + length toks_idx;
     nunks := nunks st + count_unk toks_idx;
     i_var := Some i |}.

(** The body of the loop over the target file. *)
Definition tgt_body (vocab : Vocab.t) (st : locals) (il : nat * string)
  : result locals :=
  let '(i, l) := il in
  let toks_idx := encode vocab l in
  if length (idata st) <=? i then Raise SysExit
  else Ok {| ldata := alter (fun e => e ++ [wrap toks_idx]) i (ldata st);
             idata := alter (fun e => e ++ [length (wrap toks_idx)]) i (idata st);
             ntokens := ntokens st + length toks_idx;
             nunks := nunks st + count_unk toks_idx;
             i_var := Some i |}.

Fixpoint tgt_loop (vocab : Vocab.t) (st : locals) (ils : list (nat * string))
  : result locals :=
  match ils with
  | [] => Ok st
  | il :: r => st' ← tgt_body vocab st il; tgt_loop vocab st' r
  end.

Definition enumerate (lines : list string) : list (nat * string) :=
  combine (seq 0 (length lines)) lines.

Definition open_text (fs : textfs) (path : string) : result (list string) :=
  match fs !! path with
  | Some lines => Ok lines
  | None => Raise FileNotFoundError
  end.

(** [__init__] up to the shuffle of [idata]: both files read. *)
Definition read_corpora (fs : textfs)
    (fvocab_src fvocab_tgt : option string) (ftxt_src ftxt_tgt : string)
  : result locals :=
  vocab ← Vocab.init fs fvocab_src;
  f ← open_text fs ftxt_src;
  let st := fold_left (src_body vocab) (enumerate f)
              {| ldata := []; idata := []; ntokens := 0; nunks := 0;
                 i_var := None |} in
  _ ← log_read st;
  vocab ← Vocab.init fs fvocab_tgt;
  f ← open_text fs ftxt_tgt;
  st ← tgt_loop vocab
         {| ldata := ldata st; idata := idata st; ntokens := 0; nunks := 0;
            i_var := i_var st |}
         (enumerate f);
  match i_var st with
  | None => Raise UnboundLocalError
  | Some i =>
      if negb (Z.of_nat i =? Z.of_nat (length (idata st)) - 1)%Z
      then Raise SysExit
      else _ ← log_read st; Ok st
  end.

(** [__init__] from the shuffle of [idata] on. *)
Definition make_batches (st : locals) (shard_size batch_size : Z)
  : result (list batch) :=
  idata ← asarray (idata st);
  let idata := shuffle_rows idata in
  let shard_size :=
    if (shard_size =? 0)%Z then Z.of_nat (length idata) else shard_size in
  shards ← slices shard_size idata;
  let shards := map (sorted_by by_lengths) shards in
  batches ← collect (fun shard =>
                       groups ← slices batch_size shard;
                       collect (fun g => build_batch g (ldata st)
                                           Vocab.idx_pad Vocab.idx_pad)
                               groups)
                    shards;
  Ok (shuffle_batches (concat batches)).

(** [Dataset(...)]: the batches of the new object and the pickled files. *)
Definition init (fs : textfs) (saved : pickles)
    (fvocab_src fvocab_tgt : option string) (ftxt_src ftxt_tgt : string)
    (shard_size batch_size : Z) (ofile : option string)
  : result (list batch * pickles) :=
  match ofile ≫= (fun path => saved !! path) with
  | Some batches => Ok (batches, saved)
  | None =>
      st ← read_corpora fs fvocab_src fvocab_tgt ftxt_src ftxt_tgt;
      batches ← make_batches st shard_size batch_size;
      match ofile with
      | Some path => Ok (batches, <[path := batches]> saved)
      | None => Ok (batches, saved)
      end
  end.

(** What [ldata] and [idata] hold once both files are read: one entry per
    line, the encoded source and target of that line and their lengths. *)
Definition aligned (vs vt : Vocab.t) (src_lines tgt_lines : list string)
    (st : locals) : Prop :=
  length tgt_lines = length src_lines /\
  length (idata st) = length src_lines /\
  forall j row, idata st !! j = Some row ->
    exists ls lt,
      src_lines !! j = Some ls /\ tgt_lines !! j = Some lt /\
      ldata st !! j = Some [wrap (encode vs ls); wrap (encode vt lt)] /\
      row = [j; length (wrap (encode vs ls)); length (wrap (encode vt lt))].

(** *** The reading loops *)

Lemma src_fold (vocab : Vocab.t) (lines : list string) (k : nat)
    (st st' : locals) :
  fold_left (src_body vocab) (combine (seq k (length lines)) lines) st = st' ->
  ldata st' = ldata st ++ map (fun l => [wrap (encode vocab l)]) lines /\
  idata st' =
    idata st ++
    zip_with (fun i l => [i; length (wrap (encode vocab l))])
             (seq k (length lines)) lines /\
  i_var st' =
    match lines with
    | [] => i_var st
    | _ :: _ => Some (k + length lines - 1)
    end.
Proof.
  revert k st. induction lines as [|l lines IH]; intros k st; cbn.
  - intros <-. by rewrite !app_nil_r.
  - intros H. destruct (IH (S k) _ H) as (Hl & Hi & Hv).
    rewrite Hl, Hi, Hv. cbn. rewrite <- !app_assoc. cbn.
    repeat split. destruct lines; cbn; f_equal; lia.
Qed.

Lemma tgt_loop_spec (vocab : Vocab.t) (lines : list string) (k : nat)
    (st st' : locals) :
  tgt_loop vocab st (combine (seq k (length lines)) lines) = Ok st' ->
  length (idata st') = length (idata st) /\
  length (ldata st') = length (ldata st) /\
  (lines <> [] -> k + length lines <= length (idata st)) /\
  i_var st' =
    match lines with
    | [] => i_var st
    | _ :: _ => Some (k + length lines - 1)
    end /\
  (lines = [] -> ntokens st' = ntokens st) /\
  (forall j, j < k ->
     ldata st' !! j = ldata st !! j /\ idata st' !! j = idata st !! j) /\
  (forall j l, lines !! j = Some l ->
     ldata st' !! (k + j) =
       (fun e => e ++ [wrap (encode vocab l)]) <$> ldata st !! (k + j) /\
     idata st' !! (k + j) =
       (fun e => e ++ [length (wrap (encode vocab l))]) <$> idata st !! (k + j)).
Proof.
  revert k st. induction lines as [|l lines IH]; intros k st; cbn.
  - intros [= <-]. repeat split; done.
  - destruct (length (idata st) <=? k) eqn:Hk; [done|]. cbn.
    apply Nat.leb_gt in Hk.
    set (st1 := {| ldata := _ |}). intros H.
    destruct (IH (S k) st1 H) as (Hli & Hll & Hle & Hv & _ & Hlow & Hup).
    assert (Hi1 : length (idata st1) = length (idata st))
      by (subst st1; cbn; apply length_alter).
    assert (Hl1 : length (ldata st1) = length (ldata st))
      by (subst st1; cbn; apply length_alter).
    repeat split.
    + congruence.
    + congruence.
    + intros _. destruct lines as [|l' lines]; cbn in *; [lia|].
      specialize (Hle ltac:(done)). lia.
    + rewrite Hv. destruct lines; cbn; f_equal; lia.
    + done.
    + destruct (Hlow j ltac:(lia)) as [-> _]. subst st1; cbn.
      apply list_lookup_alter_ne. lia.
    + destruct (Hlow j ltac:(lia)) as [_ ->]. subst st1; cbn.
      apply list_lookup_alter_ne. lia.
    + destruct j as [|j]; cbn in *.
      * injection H0 as <-. rewrite Nat.add_0_r.
        destruct (Hlow k ltac:(lia)) as [-> _]. subst st1; cbn.
        apply list_lookup_alter_eq.
      * replace (k + S j) with (S (k + j)) by lia.
        destruct (Hup j l0 H0) as [-> _]. subst st1; cbn. f_equal.
        apply list_lookup_alter_ne. lia.
    + destruct j as [|j]; cbn in *.
      * injection H0 as <-. rewrite Nat.add_0_r.
        destruct (Hlow k ltac:(lia)) as [_ ->]. subst st1; cbn.
        apply list_lookup_alter_eq.
      * replace (k + S j) with (S (k + j)) by lia.
        destruct (Hup j l0 H0) as [_ ->]. subst st1; cbn. f_equal.
        apply list_lookup_alter_ne. lia.
Qed.

Lemma read_corpora_aligned (fs : textfs) (fvocab_src fvocab_tgt : option string)
    (ftxt_src ftxt_tgt : string) (st : locals) :
  read_corpora fs fvocab_src fvocab_tgt ftxt_src ftxt_tgt = Ok st ->
  exists vs vt src_lines tgt_lines,
    Vocab.init fs fvocab_src = Ok vs /\
    Vocab.init fs fvocab_tgt = Ok vt /\
    fs !! ftxt_src = Some src_lines /\
    fs !! ftxt_tgt = Some tgt_lines /\
    aligned vs vt src_lines tgt_lines st.
Proof.
  unfold read_corpora, open_text, enumerate.
  destruct (Vocab.init fs fvocab_src) as [vs|]; cbn; [|done].
  destruct (fs !! ftxt_src) as [src_lines|]; cbn; [|done].
  set (st_s := fold_left _ _ _).
  destruct (src_fold vs src_lines 0 _ st_s eq_refl) as (Hl & Hi & Hv).
  cbn in Hl, Hi.
  destruct (log_read st_s) eqn:Hlog; cbn; [|done].
  destruct (Vocab.init fs fvocab_tgt) as [vt|]; cbn; [|done].
  destruct (fs !! ftxt_tgt) as [tgt_lines|]; cbn; [|done].
  destruct (tgt_loop vt _ _) as [st_t|] eqn:Hloop; cbn; [|done].
  apply tgt_loop_spec in Hloop as (Hli & Hll & Hle & Hvt & Hnt & _ & Hup).
  cbn in Hli, Hll, Hle, Hvt, Hnt, Hup.
  destruct (i_var st_t) as [i|] eqn:Hi_t; [|done].
  destruct (Z.eqb_spec (Z.of_nat i) (Z.of_nat (length (idata st_t)) - 1))
    as [Hlast|]; cbn; [|done].
  destruct (log_read st_t) eqn:Hlog_t; cbn; [|done].
  intros [= <-].
  assert (HN : length (idata st_s) = length src_lines).
  { rewrite Hi, length_zip_with, length_seq. lia. }
  assert (Hne : tgt_lines <> []).
  { intros ->. unfold log_read in Hlog_t. rewrite Hi_t, Hnt in Hlog_t; done. }
  assert (Hlen : length tgt_lines = length src_lines).
  { specialize (Hle Hne). destruct tgt_lines; [done|].
    injection Hvt as Hvt. cbn [length] in *. lia. }
  exists vs, vt, src_lines, tgt_lines. repeat split; try done.
  { congruence. }
  intros j row Hrow.
  assert (Hj : j < length src_lines).
  { apply lookup_lt_Some in Hrow. lia. }
  destruct (lookup_lt_is_Some_2 src_lines j Hj) as [ls Hls].
  destruct (lookup_lt_is_Some_2 tgt_lines j ltac:(lia)) as [lt Hlt].
  exists ls, lt. destruct (Hup j lt Hlt) as [Hld Hid].
  rewrite Hl in Hld. rewrite Hi in Hid.
  rewrite list_lookup_fmap, Hls in Hld.
  rewrite lookup_zip_with, (lookup_seq_lt 0 _ j Hj), Hls in Hid.
  repeat split; try done. cbn in Hid. rewrite Hrow in Hid. by injection Hid.
Qed.

(** *** Arrays, slices and batches *)

Lemma asarray_rows (rows : list (list nat)) (rs : list row) :
  asarray rows = Ok rs -> rows = map row_list rs.
Proof.
  revert rs. induction rows as [|r rows IH]; intros rs; cbn.
  - by intros [= <-].
  - destruct r as [|p [|a [|b [|]]]]; try done.
    destruct (asarray rows) as [rs'|]; cbn; [|done].
    intros [= <-]. cbn. by rewrite (IH rs').
Qed.

Lemma slices_from_spec {X : Type} (fuel step : nat) (l : list X) (g : list X) :
  0 < step -> g ∈ slices_from fuel step l -> g <> [] /\ g ⊆ l.
Proof.
  intros Hstep. revert l. induction fuel as [|fuel IH]; intros l; cbn.
  - by intros ?%elem_of_nil.
  - destruct l as [|x l]; [by intros ?%elem_of_nil|].
    intros [->|Hin]%elem_of_cons.
    + split; [|apply subseteq_take].
      destruct step; [lia|done].
    + destruct (IH _ Hin) as [Hne Hsub]. split; [done|].
      etrans; [exact Hsub|]. apply subseteq_drop.
Qed.

Lemma slices_spec {X : Type} (step : Z) (l : list X) (gs : list (list X))
    (g : list X) :
  slices step l = Ok gs -> g ∈ gs -> g <> [] /\ g ⊆ l.
Proof.
  unfold slices. destruct (Z.eqb_spec step 0); [done|].
  destruct (Z.ltb_spec step 0).
  - intros [= <-]. by intros ?%elem_of_nil.
  - intros [= <-]. apply slices_from_spec. lia.
Qed.

Lemma collect_elem_of_r {X Y : Type} (f : X -> result Y) (l : list X)
    (ys : list Y) (y : Y) :
  collect f l = Ok ys -> y ∈ ys -> exists x, x ∈ l /\ f x = Ok y.
Proof.
  revert ys. induction l as [|x l IH]; intros ys; cbn.
  - intros [= <-]. by intros ?%elem_of_nil.
  - destruct (f x) as [y'|] eqn:Hfx; cbn; [|done].
    destruct (collect f l) as [ys'|]; cbn; [|done].
    intros [= <-]. intros [->|Hin]%elem_of_cons.
    + exists x. split; [apply list_elem_of_here|done].
    + destruct (IH ys' eq_refl Hin) as (x' & Hx' & Hfx').
      exists x'. split; [by apply list_elem_of_further|done].
Qed.

Lemma collect_elem_of_l {X Y : Type} (f : X -> result Y) (l : list X)
    (ys : list Y) (x : X) :
  collect f l = Ok ys -> x ∈ l -> exists y, y ∈ ys /\ f x = Ok y.
Proof.
  revert ys. induction l as [|x' l IH]; intros ys; cbn.
  - intros _. by intros ?%elem_of_nil.
  - destruct (f x') as [y'|] eqn:Hfx; cbn; [|done].
    destruct (collect f l) as [ys'|]; cbn; [|done].
    intros [= <-]. intros [->|Hin]%elem_of_cons.
    + exists y'. split; [apply list_elem_of_here|done].
    + destruct (IH ys' eq_refl Hin) as (y & Hy & Hfy).
      exists y. split; [by apply list_elem_of_further|done].
Qed.

Lemma py_max_spec (l : list nat) (m : nat) :
  py_max l = Ok m -> m ∈ l /\ forall x, x ∈ l -> x <= m.
Proof.
  destruct l as [|x r]; cbn; [done|]. intros [= <-].
  induction r as [|y r [IHin IHle]]; cbn.
  - split; [apply list_elem_of_here|].
    by intros z ->%list_elem_of_singleton.
  - split.
    + destruct (Nat.max_spec y (foldr Nat.max x r)) as [[_ ->]|[_ ->]].
      * apply elem_of_cons in IHin as [Heq|Hin].
        -- rewrite Heq. apply list_elem_of_here.
        -- by do 2 apply list_elem_of_further.
      * apply list_elem_of_further, list_elem_of_here.
    + intros z Hz. apply elem_of_cons in Hz as [->|Hz].
      * specialize (IHle x (list_elem_of_here _ _)). lia.
      * apply elem_of_cons in Hz as [->|Hz]; [lia|].
        specialize (IHle z (list_elem_of_further _ _ _ Hz)). lia.
Qed.

End WithCollaborators.

Lemma build_batch_spec (g : list row) (ldata : list (list (list nat)))
    (src_idx_pad tgt_idx_pad : nat) (b : batch) :
  build_batch g ldata src_idx_pad tgt_idx_pad = Ok b ->
  exists max_src_len max_tgt_len,
    py_max (map (fun e : row => e.1.2) g) = Ok max_src_len /\
    py_max (map (fun e : row => e.2) g) = Ok max_tgt_len /\
    collect (build_example ldata src_idx_pad tgt_idx_pad max_src_len max_tgt_len) g
      = Ok b.
Proof.
  unfold build_batch.
  destruct (py_max (map (fun e : row => e.1.2) g)) as [ms|]; [|done].
  destruct (py_max (map (fun e : row => e.2) g)) as [mt|]; [|done].
  intros H. by exists ms, mt.
Qed.

(** Every batch is [build_batch] of a non-empty group of rows of [idata]. *)
Lemma make_batches_groups (shuffle_rows : list row -> list row)
    (shuffle_batches : list batch -> list batch)
    (st : locals) (shard_size batch_size : Z) (batches : list batch) (b : batch) :
  (forall l, shuffle_rows l ≡ₚ l) ->
  (forall l, shuffle_batches l ≡ₚ l) ->
  make_batches shuffle_rows shuffle_batches st shard_size batch_size = Ok batches ->
  b ∈ batches ->
  exists (rs g : list row),
    asarray (idata st) = Ok rs /\ g <> [] /\ g ⊆ rs /\
    build_batch g (ldata st) Vocab.idx_pad Vocab.idx_pad = Ok b.
Proof.
  intros Hrows Hbatches. unfold make_batches.
  destruct (asarray (idata st)) as [rs|]; cbn; [|done].
  destruct (slices _ (shuffle_rows rs)) as [shards|] eqn:Hshards; cbn; [|done].
  destruct (collect _ _) as [bss|] eqn:Hbss; cbn; [|done].
  intros [= <-] Hb. rewrite Hbatches in Hb.
  apply list_elem_of_In, in_concat in Hb as (bs & Hbs & Hb).
  apply list_elem_of_In in Hbs, Hb.
  destruct (collect_elem_of_r _ _ _ _ Hbss Hbs) as (shard & Hshard & Hgroups).
  apply list_elem_of_fmap in Hshard as (shard0 & -> & Hshard0).
  destruct (slices batch_size _) as [groups|] eqn:Hsl; cbn in Hgroups; [|done].
  destruct (collect_elem_of_r _ _ _ _ Hgroups Hb) as (g & Hg & Hbuild).
  destruct (slices_spec _ _ _ _ Hsl Hg) as [Hne Hsub].
  destruct (slices_spec _ _ _ _ Hshards Hshard0) as [_ Hsub0].
  exists rs, g. repeat split; try done.
  intros e He. apply Hsub in He.
  apply list_elem_of_In, sorted_by_In, list_elem_of_In in He.
  apply Hsub0 in He. by rewrite Hrows in He.
Qed.

(** C4: in every batch that [Dataset] builds, the source sequences have
    one length and the target sequences have one length; each sequence is
    the encoded line at the recorded position followed by pad indices only;
    and the two lengths are the maxima of the batch, reached by an example
    that carries no padding on that side. *)
Theorem batches_padded (tokenize : string -> list string)
    (shuffle_rows : list row -> list row)
    (shuffle_batches : list batch -> list batch)
    (fs : textfs) (saved saved' : pickles)
    (fvocab_src fvocab_tgt : option string) (ftxt_src ftxt_tgt : string)
    (shard_size batch_size : Z) (ofile : option string) (batches : list batch) :
  (forall l, shuffle_rows l ≡ₚ l) ->
  (forall l, shuffle_batches l ≡ₚ l) ->
  ofile ≫= (fun path => saved !! path) = None ->
  init tokenize shuffle_rows shuffle_batches fs saved fvocab_src fvocab_tgt
       ftxt_src ftxt_tgt shard_size batch_size ofile = Ok (batches, saved') ->
  exists vs vt src_lines tgt_lines,
    Vocab.init fs fvocab_src = Ok vs /\
    Vocab.init fs fvocab_tgt = Ok vt /\
    fs !! ftxt_src = Some src_lines /\
    fs !! ftxt_tgt = Some tgt_lines /\
    forall b, b ∈ batches ->
      exists max_src_len max_tgt_len,
        (forall pos src tgt, (pos, src, tgt) ∈ b ->
           exists ls lt,
             src_lines !! pos = Some ls /\ tgt_lines !! pos = Some lt /\
             padded_to Vocab.idx_pad max_src_len (wrap (encode tokenize vs ls)) src /\
             padded_to Vocab.idx_pad max_tgt_len (wrap (encode tokenize vt lt)) tgt) /\
        (exists pos src tgt ls,
           (pos, src, tgt) ∈ b /\ src_lines !! pos = Some ls /\
           src = wrap (encode tokenize vs ls) /\ length src = max_src_len) /\
        (exists pos src tgt lt,
           (pos, src, tgt) ∈ b /\ tgt_lines !! pos = Some lt /\
           tgt = wrap (encode tokenize vt lt) /\ length tgt = max_tgt_len).
Proof.
  intros Hrows Hbatches Hmiss. unfold init. rewrite Hmiss.
  destruct (read_corpora _ _ _ _ _ _) as [st|] eqn:Hread; cbn; [|done].
  destruct (make_batches _ _ _ _ _) as [bs|] eqn:Hmake; cbn; [|done].
  intros Hres. assert (bs = batches) as -> by (destruct ofile; congruence).
  clear Hres.
  destruct (read_corpora_aligned _ _ _ _ _ _ _ Hread)
    as (vs & vt & src_lines & tgt_lines & Hvs & Hvt & Hfs & Hft & Hal).
  exists vs, vt, src_lines, tgt_lines. repeat split; try done.
  intros b Hb.
  destruct (make_batches_groups _ _ _ _ _ _ _ Hrows Hbatches Hmake Hb)
    as (rs & g & Hrs & Hne & Hsub & Hbuild).
  apply build_batch_spec in Hbuild as (ms & mt & Hms & Hmt & Hcol).
  apply py_max_spec in Hms as [Hms_in Hms_le].
  apply py_max_spec in Hmt as [Hmt_in Hmt_le].
  apply asarray_rows in Hrs. destruct Hal as (_ & _ & Hal).
  (* every row of the group is a row of [idata] *)
  assert (Hrow : forall e, e ∈ g ->
            exists ls lt,
              src_lines !! e.1.1 = Some ls /\ tgt_lines !! e.1.1 = Some lt /\
              e.1.2 = length (wrap (encode tokenize vs ls)) /\
              e.2 = length (wrap (encode tokenize vt lt)) /\
              build_example (ldata st) Vocab.idx_pad Vocab.idx_pad ms mt e =
                Ok (e.1.1,
                    wrap (encode tokenize vs ls) ++ replicate (ms - e.1.2) Vocab.idx_pad,
                    wrap (encode tokenize vt lt) ++ replicate (mt - e.2) Vocab.idx_pad)).
  { intros e He. apply Hsub in He.
    assert (Hin : row_list e ∈ idata st)
      by (rewrite Hrs; by apply list_elem_of_fmap_2).
    apply list_elem_of_lookup in Hin as [j Hj].
    destruct (Hal j _ Hj) as (ls & lt & Hls & Hlt & Hld & Heq).
    destruct e as [[pos sl] tl]. cbn in Heq. injection Heq as -> -> ->.
    exists ls, lt. cbn. rewrite Hld. cbn. done. }
  exists ms, mt. repeat split.
  - intros pos src tgt Hex.
    destruct (collect_elem_of_r _ _ _ _ Hcol Hex) as (e & He & Hbe).
    destruct (Hrow e He) as (ls & lt & Hls & Hlt & Hsl & Htl & Hbe').
    rewrite Hbe' in Hbe. injection Hbe as <- <- <-.
    exists ls, lt. repeat split; try done.
    + by rewrite Hsl.
    + change (length (wrap (encode tokenize vs ls) ++
                      replicate (ms - e.1.2) Vocab.idx_pad) = ms).
      rewrite length_app, length_replicate.
      specialize (Hms_le e.1.2 (list_elem_of_fmap_2 _ _ _ He)). lia.
    + by rewrite Htl.
    + change (length (wrap (encode tokenize vt lt) ++
                      replicate (mt - e.2) Vocab.idx_pad) = mt).
      rewrite length_app, length_replicate.
      specialize (Hmt_le e.2 (list_elem_of_fmap_2 _ _ _ He)). lia.
  - apply list_elem_of_fmap in Hms_in as (e & Hms & He).
    destruct (Hrow e He) as (ls & lt & Hls & Hlt & Hsl & Htl & Hbe').
    destruct (collect_elem_of_l _ _ _ _ Hcol He) as (y & Hy & Hbe).
    rewrite Hbe' in Hbe. assert (Hy' : (_, _, _) = y) by (injection Hbe; done).
    rewrite <- Hy' in Hy.
    replace (ms - e.1.2) with 0 in Hy by lia.
    cbn [replicate] in Hy. rewrite app_nil_r in Hy.
    eexists _, _, _, ls. split; [exact Hy|]. repeat split; [done|].
    rewrite Hms. symmetry. exact Hsl.
  - apply list_elem_of_fmap in Hmt_in as (e & Hmt & He).
    destruct (Hrow e He) as (ls & lt & Hls & Hlt & Hsl & Htl & Hbe').
    destruct (collect_elem_of_l _ _ _ _ Hcol He) as (y & Hy & Hbe).
    rewrite Hbe' in Hbe. assert (Hy' : (_, _, _) = y) by (injection Hbe; done).
    rewrite <- Hy' in Hy.
    replace (mt - e.2) with 0 in Hy by lia.
    cbn [replicate] in Hy. rewrite app_nil_r in Hy.
    eexists _, _, _, lt. split; [exact Hy|]. repeat split; [done|].
    rewrite Hmt. symmetry. exact Htl.
Qed.

(** Files used to run the definitions.  The last token of a line holds the
    line terminator, which [Dataset] does not strip: no entry of a
    vocabulary ends with it, so such a token is unknown. *)
Definition sample_fs : textfs :=
  {[ "vocab" := map line ["<pad>"; "<unk>"; "<bos>"; "<eos>"; "<sep>"; "a"; "b"];
     "src" := map line ["a b"; "a"; "b b b a"];
     "tgt" := map line ["b a"; "x"; "a a"];
     "empty" := [];
     "blank" := map line [""; ""] ]}.

Definition sample_batches : list batch :=
  [ [(2, [2; 6; 6; 6; 1; 3], [2; 5; 1; 3])];
    [(1, [2; 1; 3; 0], [2; 1; 3; 0]); (0, [2; 5; 1; 3], [2; 6; 1; 3])] ].

Example sample_init :
  init space_tokenize (@rev row) (@rev batch) sample_fs ∅ (Some "vocab") (Some "vocab")
       "src" "tgt" 0 2 None = Ok (sample_batches, ∅).
Proof. vm_compute. reflexivity. Qed.

(** The first end-to-end scenario of the specification, on files whose
    one line is terminated, and on files whose one line is not. *)
Example scenario_one_line :
  init space_tokenize id id
       {[ "vocab" := map line ["<pad>"; "<unk>"; "<bos>"; "<eos>"; "<sep>"; "a"; "b"];
          "src" := [line "a b"]; "tgt" := [line "b a"] ]}
       ∅ (Some "vocab") (Some "vocab") "src" "tgt" 0 1 None
  = Ok ([[(0, [2; 5; 1; 3], [2; 6; 1; 3])]], ∅) /\
  init space_tokenize id id
       {[ "vocab" := map line ["<pad>"; "<unk>"; "<bos>"; "<eos>"; "<sep>"; "a"; "b"];
          "src" := ["a b"]; "tgt" := ["b a"] ]}
       ∅ (Some "vocab") (Some "vocab") "src" "tgt" 0 1 None
  = Ok ([[(0, [2; 5; 6; 3], [2; 6; 5; 3])]], ∅).
Proof. split; vm_compute; reflexivity. Qed.

Lemma batches_padded_witness :
  exists vs vt src_lines tgt_lines,
    Vocab.init sample_fs (Some "vocab") = Ok vs /\
    Vocab.init sample_fs (Some "vocab") = Ok vt /\
    sample_fs !! "src" = Some src_lines /\
    sample_fs !! "tgt" = Some tgt_lines /\
    forall b, b ∈ sample_batches ->
      exists max_src_len max_tgt_len,
        (forall pos src tgt, (pos, src, tgt) ∈ b ->
           exists ls lt,
             src_lines !! pos = Some ls /\ tgt_lines !! pos = Some lt /\
             padded_to Vocab.idx_pad max_src_len
               (wrap (encode space_tokenize vs ls)) src /\
             padded_to Vocab.idx_pad max_tgt_len
               (wrap (encode space_tokenize vt lt)) tgt) /\
        (exists pos src tgt ls,
           (pos, src, tgt) ∈ b /\ src_lines !! pos = Some ls /\
           src = wrap (encode space_tokenize vs ls) /\ length src = max_src_len) /\
        (exists pos src tgt lt,
           (pos, src, tgt) ∈ b /\ tgt_lines !! pos = Some lt /\
           tgt = wrap (encode space_tokenize vt lt) /\ length tgt = max_tgt_len).
Proof.
  apply (batches_padded space_tokenize (@rev row) (@rev batch) sample_fs ∅ ∅
           (Some "vocab") (Some "vocab") "src" "tgt" 0 2 None sample_batches).
  - intros l. symmetry. apply Permutation_rev.
  - intros l. symmetry. apply Permutation_rev.
  - reflexivity.
  - vm_compute. reflexivity.
Defined.

(** Empty corpora: the logging call after the first loop reads the loop
    variable, which no iteration has bound. *)
Lemma read_corpora_no_lines (tokenize : string -> list string) (fs : textfs)
    (fvocab_src fvocab_tgt : option string) (ftxt_src ftxt_tgt : string)
    (vs : Vocab.t) :
  Vocab.init fs fvocab_src = Ok vs ->
  fs !! ftxt_src = Some [] ->
  read_corpora tokenize fs fvocab_src fvocab_tgt ftxt_src ftxt_tgt =
    Raise UnboundLocalError.
Proof.
  intros Hvs Hsrc. unfold read_corpora, open_text. rewrite Hvs; cbn.
  rewrite Hsrc; cbn. reflexivity.
Qed.

(** C5 fails on the code: with both corpora empty, [Dataset] raises
    [UnboundLocalError] and returns no batch collection, whatever the shard
    and batch sizes; and a batch size of 0 raises [ValueError], an error of
    the batch builder itself. *)
Theorem init_empty_corpora_raises :
  (forall shard_size batch_size : Z,
     init space_tokenize id id sample_fs ∅ (Some "vocab") (Some "vocab")
          "empty" "empty" shard_size batch_size None
     = Raise UnboundLocalError) /\
  init space_tokenize id id sample_fs ∅ (Some "vocab") (Some "vocab")
       "src" "tgt" 0 0 None = Raise ValueError.
Proof.
  split; [|vm_compute; reflexivity].
  intros shard_size batch_size. unfold init. cbn [mbind option_bind].
  erewrite read_corpora_no_lines; [reflexivity| |].
  - vm_compute. reflexivity.
  - vm_compute. reflexivity.
Qed.

End Dataset.

(** ** Learning.py: prepare_input

    Tensors of token indices are lists of rows of integers; boolean masks
    are lists of lists of rows of booleans, indexed [batch][query][key]. *)

Module Prepare.

(** [torch.nn.utils.rnn.pad_sequence(..., batch_first=True)]: every row is
    extended on the right up to the longest row; an empty list of rows is
    refused. *)
Definition pad_sequence (seqs : list (list Z)) (padding_value : Z)
  : result (list (list Z)) :=
  match seqs with
  | [] => Raise RuntimeError
  | _ :: _ =>
      let width := max_list (length <$> seqs) in
      Ok ((fun s : list Z => s ++ replicate (width - length s) padding_value)
            <$> seqs)
  end.

(** [tensor.size(1)] of a padded batch. *)
Definition size1 (t : list (list Z)) : nat :=
  match t with
  | [] => 0
  | r :: _ => length r
  end.

(** [torch.ones((1, n, n))], [torch.triu(_, diagonal=d)], [1 - _] and
    [.bool()], on the one matrix of the leading dimension.  The entries are
    0 and 1, which the tensor's floating point type holds exactly. *)
Definition ones (n : nat) : list (list Z) := replicate n (replicate n 1%Z).

Definition triu (diagonal : Z) (m : list (list Z)) : list (list Z) :=
  imap (fun i r =>
          imap (fun j x =>
                  if (diagonal <=? Z.of_nat j - Z.of_nat i)%Z then x else 0%Z) r)
       m.

Definition one_minus (m : list (list Z)) : list (list Z) :=
  (fun r : list Z => (fun x => (1 - x)%Z) <$> r) <$> m.

Definition to_bool (m : list (list Z)) : list (list bool) :=
  (fun r : list Z => (fun x => negb (x =? 0)%Z) <$> r) <$> m.

(** [(t != idx_pad).unsqueeze(-2)]: shape [bs, 1, l]. *)
Definition not_pad (t : list (list Z)) (idx_pad : Z) : list (list (list bool)) :=
  (fun r : list Z => [(fun x => negb (x =? idx_pad)%Z) <$> r]) <$> t.

(** [a & c] for [a] of shape [bs, 1, l] and [c] of shape [1, l, l],
    broadcast to [bs, l, l]. *)
Definition and_broadcast (a : list (list (list bool))) (c : list (list bool))
  : list (list (list bool)) :=
  (fun a_b : list (list bool) =>
     match a_b with
     | [keys] => (fun c_i => zip_with andb keys c_i) <$> c
     | _ => []
     end) <$> a.

Record prepared : Type := mk_prepared {
  tgt : list (list Z);
  ref : list (list Z);
  msk_src : list (list (list bool));
  msk_tgt : list (list (list bool))
}.

Definition prepare_input (batch_src : list (list Z))
    (batch_tgt : option (list (list Z))) (idx_pad : Z)
  : result (list (list Z) * option prepared) :=
  src ← pad_sequence batch_src idx_pad;
  match batch_tgt with
  | None => Ok (src, None)
  | Some batch_tgt =>
      tgt ← pad_sequence (@removelast Z <$> batch_tgt) idx_pad;
      ref ← pad_sequence (drop 1 <$> batch_tgt) idx_pad;
      let msk_src := not_pad src idx_pad in
      let msk_tgt :=
        and_broadcast (not_pad tgt idx_pad)
                      (to_bool (one_minus (triu 1 (ones (size1 tgt))))) in
      Ok (src, Some {| tgt := tgt; ref := ref;
                       msk_src := msk_src; msk_tgt := msk_tgt |})
  end.

(** The entry of a mask at batch [b], query [i], key [j]. *)
Definition at3 (m : list (list (list bool))) (b i j : nat) : option bool :=
  m_b ← m !! b; m_bi ← m_b !! i; m_bi !! j.

(** The entry of a batch of sequences at batch [b], position [j]. *)
Definition at2 (t : list (list Z)) (b j : nat) : option Z :=
  t_b ← t !! b; t_b !! j.


(** The lower triangle, diagonal included. *)
Definition lower (n : nat) : list (list bool) :=
  to_bool (one_minus (triu 1 (ones n))).

Lemma pad_sequence_spec (seqs : list (list Z)) (pad : Z) (t : list (list Z)) :
  pad_sequence seqs pad = Ok t ->
  let width := max_list (length <$> seqs) in
  t = (fun s : list Z => s ++ replicate (width - length s) pad) <$> seqs /\
  Forall (fun r => length r = width) t /\
  size1 t = width.
Proof.
  unfold pad_sequence. destruct seqs as [|s0 seqs]; [intros H; discriminate H|].
  intros H. set (width := max_list (length <$> s0 :: seqs)). cbv zeta.
  assert (Ht : t = (fun s : list Z => s ++ replicate (width - length s) pad)
                     <$> (s0 :: seqs)) by (injection H; done).
  clear H. subst t.
  assert (Hle : forall s, s ∈ s0 :: seqs -> length s <= width).
  { intros s Hs. apply max_list_elem_of_le.
    apply list_elem_of_fmap. exists s. split; [reflexivity|exact Hs]. }
  clearbody width. repeat split.
  - apply Forall_fmap, Forall_forall. intros s Hs. cbn.
    rewrite length_app, length_replicate. specialize (Hle s Hs). lia.
  - cbn. rewrite length_app, length_replicate.
    specialize (Hle s0 (list_elem_of_here _ _)). lia.
Qed.

Lemma lower_lookup (n i : nat) :
  lower n !! i =
  if decide (i < n)
  then Some ((fun j => bool_decide (j <= i)) <$> seq 0 n)
  else None.
Proof.
  unfold lower, to_bool, one_minus, triu, ones.
  rewrite !list_lookup_fmap, list_lookup_imap.
  destruct (decide (i < n)) as [Hi|Hi].
  - rewrite lookup_replicate_2 by done. cbn. f_equal.
    apply list_eq. intros j.
    rewrite !list_lookup_fmap, list_lookup_imap.
    destruct (decide (j < n)) as [Hj|Hj].
    + rewrite lookup_replicate_2, lookup_seq_lt by done. cbn. f_equal.
      destruct (Z.leb_spec 1 (Z.of_nat j - Z.of_nat i)); cbn;
        symmetry; [apply bool_decide_eq_false|apply bool_decide_eq_true]; lia.
    + rewrite (proj1 (lookup_replicate_None _ _ _)) by lia.
      rewrite lookup_seq_ge by lia. done.
  - rewrite (proj1 (lookup_replicate_None _ _ _)) by lia. done.
Qed.

Lemma negb_eqb_decide (x y : Z) : negb (x =? y)%Z = bool_decide (x <> y).
Proof.
  destruct (Z.eqb_spec x y); cbn; symmetry;
    [by apply bool_decide_eq_false; intros []|by apply bool_decide_eq_true].
Qed.

Lemma not_pad_at3 (t : list (list Z)) (idx_pad : Z) (b i j : nat) :
  at3 (not_pad t idx_pad) b i j =
  match i with
  | 0 => (fun x => bool_decide (x <> idx_pad)) <$> at2 t b j
  | S _ => None
  end.
Proof.
  unfold at3, at2, not_pad. rewrite list_lookup_fmap.
  destruct (t !! b) as [r|]; cbn; [|by destruct i].
  destruct i as [|i]; cbn; [|done].
  rewrite list_lookup_fmap. destruct (r !! j) as [x|]; cbn; [|done].
  by rewrite negb_eqb_decide.
Qed.

Lemma causal_at3 (t : list (list Z)) (idx_pad : Z) (n b i j : nat) :
  Forall (fun r => length r = n) t ->
  at3 (and_broadcast (not_pad t idx_pad) (lower n)) b i j =
  if decide (i < n)
  then (fun x => bool_decide (x <> idx_pad /\ j <= i)) <$> at2 t b j
  else None.
Proof.
  intros Hw. unfold at3, at2, and_broadcast, not_pad.
  rewrite !list_lookup_fmap.
  destruct (t !! b) as [r|] eqn:Hr; cbn; [|by destruct (decide _)].
  rewrite list_lookup_fmap, lower_lookup.
  destruct (decide (i < n)) as [Hi|Hi]; cbn; [|done].
  rewrite lookup_zip_with, !list_lookup_fmap.
  destruct (r !! j) as [x|] eqn:Hx; cbn; [|done].
  assert (Hj : j < n).
  { apply lookup_lt_Some in Hx.
    rewrite Forall_forall in Hw.
    rewrite <- (Hw r); [done|]. by eapply list_elem_of_lookup_2. }
  rewrite lookup_seq_lt by done. cbn. f_equal.
  by rewrite negb_eqb_decide, bool_decide_and.
Qed.

(** C10: the target input is every target sequence without its final
    token and the reference is the same sequence without its first token,
    both padded on the right with [idx_pad] to one width; [msk_src] has one
    query row, true exactly where the padded source differs from [idx_pad];
    [msk_tgt] is square in the width of the target input and is true at
    [(i, j)] exactly where position [j] of the target input differs from
    [idx_pad] and [j <= i]. *)
Theorem prepare_input_spec (batch_src batch_tgt : list (list Z)) (idx_pad : Z)
    (src : list (list Z)) (p : prepared) :
  prepare_input batch_src (Some batch_tgt) idx_pad = Ok (src, Some p) ->
  let lt := max_list (length <$> (@removelast Z <$> batch_tgt)) in
  let lr := max_list (length <$> (drop 1 <$> batch_tgt)) in
  tgt p = (fun seq : list Z =>
             removelast seq ++ replicate (lt - length (removelast seq)) idx_pad)
          <$> batch_tgt /\
  ref p = (fun seq : list Z =>
             drop 1 seq ++ replicate (lr - length (drop 1 seq)) idx_pad)
          <$> batch_tgt /\
  Forall (fun r => length r = lt) (tgt p) /\
  Forall (fun r => length r = lr) (ref p) /\
  (forall b i j,
     at3 (msk_src p) b i j =
     match i with
     | 0 => (fun x => bool_decide (x <> idx_pad)) <$> at2 src b j
     | S _ => None
     end) /\
  (forall b i j,
     at3 (msk_tgt p) b i j =
     if decide (i < lt)
     then (fun x => bool_decide (x <> idx_pad /\ j <= i)) <$> at2 (tgt p) b j
     else None).
Proof.
  unfold prepare_input.
  destruct (pad_sequence batch_src idx_pad) as [src'|]; cbn; [|done].
  destruct (pad_sequence (@removelast Z <$> batch_tgt) idx_pad) as [t|] eqn:Ht;
    cbn; [|done].
  destruct (pad_sequence (drop 1 <$> batch_tgt) idx_pad) as [r|] eqn:Hr;
    cbn; [|done].
  intros H. assert (Hsrc : src' = src) by congruence.
  assert (Hp : p = {| tgt := t; ref := r;
                      msk_src := not_pad src' idx_pad;
                      msk_tgt := and_broadcast (not_pad t idx_pad)
                                   (lower (size1 t)) |})
    by (unfold lower; congruence).
  clear H. subst src' p. cbn [tgt ref msk_src msk_tgt].
  apply pad_sequence_spec in Ht as (Ht & Hwt & Hst).
  apply pad_sequence_spec in Hr as (Hr & Hwr & _).
  repeat split.
  - rewrite Ht at 1. by rewrite <- list_fmap_compose.
  - rewrite Hr at 1. by rewrite <- list_fmap_compose.
  - exact Hwt.
  - exact Hwr.
  - apply not_pad_at3.
  - intros b i j. rewrite Hst. by apply causal_at3.
Qed.

Definition sample_src : list (list Z) := [[2; 5; 6; 3]; [2; 5; 3; 0]]%Z.
Definition sample_tgt : list (list Z) := [[2; 6; 5; 3]; [2; 1; 3; 0]]%Z.

Definition sample_prepared : prepared :=
  {| tgt := [[2; 6; 5]; [2; 1; 3]]%Z;
     ref := [[6; 5; 3]; [1; 3; 0]]%Z;
     msk_src := [[[true; true; true; true]]; [[true; true; true; false]]];
     msk_tgt := [[[true; false; false]; [true; true; false]; [true; true; true]];
                 [[true; false; false]; [true; true; false]; [true; true; true]]]
  |}.

Lemma prepare_input_spec_witness :
  tgt sample_prepared =
    (fun seq : list Z => removelast seq ++ replicate (3 - length (removelast seq)) 0%Z)
    <$> sample_tgt /\
  (forall b i j,
     at3 (msk_tgt sample_prepared) b i j =
     if decide (i < 3)
     then (fun x => bool_decide (x <> 0%Z /\ j <= i)) <$> at2 (tgt sample_prepared) b j
     else None).
Proof.
  assert (H : prepare_input sample_src (Some sample_tgt) 0 =
              Ok (sample_src, Some sample_prepared))
    by (vm_compute; reflexivity).
  destruct (prepare_input_spec sample_src sample_tgt 0 sample_src
              sample_prepared H) as (Ht & _ & _ & _ & _ & Hm).
  split; [exact Ht|exact Hm].
Defined.

End Prepare.

(** ** Learning.py: Learning.learn

    The control flow of the training loop.  The numeric work of a batch
    (forward pass, loss, gradients) does not decide where the loop reports,
    validates, saves or stops, and is left out; what the loop does is
    recorded as a trace of events. *)

Module Learn.

Inductive event : Type :=
| Report (step : Z)
| Validate (step : Z)
| Save (step keep_last_n : Z).

(** The fields of [ol] that [__init__] copies into the object. *)
Record options : Type := mk_options {
  max_steps : Z;
  max_epochs : Z;
  validate_every : Z;
  save_every : Z;
  report_every : Z;
  keep_last_n : Z
}.

(** The attributes an instance of [Learning] has: the ones [__init__]
    assigns and the methods of the class.  Attribute names are case
    sensitive. *)
Definition instance_attrs : list string :=
  ["model"; "optScheduler"; "criter"; "suffix"; "max_steps"; "max_epochs";
   "validate_every"; "save_every"; "report_every"; "keep_last_n";
   "clip_grad_norm"].

Definition class_attrs : list string := ["__init__"; "learn"; "validate"].

Definition getattr (name : string) : result unit :=
  if bool_decide (name ∈ instance_attrs ++ class_attrs) then Ok tt
  else Raise AttributeError.

(** How a batch, or the whole of [learn], ends. *)
Inductive outcome : Type :=
| Continue (trace : list event)
| Returned (trace : list event)
| Raised (e : exn) (trace : list event).

(** [x and step % x == 0] *)
Definition every (x step : Z) : bool :=
  negb (x =? 0)%Z && (step mod x =? 0)%Z.

(** [save_checkpoint(self.suffix, self.model, self.<attr>.optimizer, ...)]:
    the arguments are evaluated before the call. *)
Definition save_with (attr : string) (o : options) (step : Z)
    (trace : list event) : outcome :=
  match getattr attr with
  | Ok _ => Continue (trace ++ [Save step (keep_last_n o)])
  | Raise e => Raised e trace
  end.

Definition validate_if (validset : bool) (step : Z) (trace : list event)
  : list event :=
  if validset then trace ++ [Validate step] else trace.

(** The body of the loop over the batches, from the report on; [step] is
    [self.optScheduler._step] after [self.optScheduler.step()]. *)
Definition after_step (o : options) (validset : bool) (step : Z)
    (trace : list event) : outcome :=
  let trace := if every (report_every o) step then trace ++ [Report step]
               else trace in
  let trace := if every (validate_every o) step
               then validate_if validset step trace else trace in
  let saved := if every (save_every o) step
               then save_with "optScheduler" o step trace
               else Continue trace in
  match saved with
  | Continue trace =>
      if negb (max_steps o =? 0)%Z && (max_steps o <=? step)%Z
      then match save_with "OptScheduler" o step
                   (validate_if validset step trace) with
           | Continue trace => Returned trace
           | other => other
           end
      else Continue trace
  | other => other
  end.

(** Modelled from the spec: [Optimizer.py] is not among the sources; every
    completed batch increments the global step counter by one. *)
Definition scheduler_step (step : Z) : Z := (step + 1)%Z.

(** The loop over the [n_batch] batches of the training set. *)
Fixpoint run_batches (o : options) (validset : bool) (n_batch : nat)
    (step : Z) (trace : list event) : outcome * Z :=
  match n_batch with
  | 0 => (Continue trace, step)
  | S n =>
      let step := scheduler_step step in
      match after_step o validset step trace with
      | Continue trace => run_batches o validset n step trace
      | other => (other, step)
      end
  end.

(** [learn]: the loop over the epochs, [fuel] bounding their number. *)
Fixpoint learn (fuel : nat) (o : options) (validset : bool) (n_batch : nat)
    (step epoch : Z) (trace : list event) : option outcome :=
  match fuel with
  | 0 => None
  | S fuel =>
      let epoch := (epoch + 1)%Z in
      match run_batches o validset n_batch step trace with
      | (Continue trace, step) =>
          if negb (max_epochs o =? 0)%Z && (max_epochs o <=? epoch)%Z
          then match save_with "optScheduler" o step
                       (validate_if validset step trace) with
               | Continue trace => Some (Returned trace)
               | other => Some other
               end
          else learn fuel o validset n_batch step epoch trace
      | (other, _) => Some other
      end
  end.

(** The events of one batch before the stopping test. *)
Definition periodic (o : options) (validset : bool) (step : Z) : list event :=
  (if every (report_every o) step then [Report step] else []) ++
  (if every (validate_every o) step && validset then [Validate step] else []) ++
  (if every (save_every o) step then [Save step (keep_last_n o)] else []).

Lemma after_step_eq (o : options) (validset : bool) (step : Z)
    (trace : list event) :
  after_step o validset step trace =
  if negb (max_steps o =? 0)%Z && (max_steps o <=? step)%Z
  then Raised AttributeError
         (trace ++ periodic o validset step ++
          (if validset then [Validate step] else []))
  else Continue (trace ++ periodic o validset step).
Proof.
  unfold after_step, periodic, save_with, validate_if.
  change (getattr "optScheduler") with (Ok tt).
  change (getattr "OptScheduler") with (@Raise unit AttributeError).
  destruct (every (report_every o) step), (every (validate_every o) step),
    validset, (every (save_every o) step),
    (negb (max_steps o =? 0)%Z && (max_steps o <=? step)%Z);
    cbn; rewrite <- ?app_assoc, ?app_nil_r; reflexivity.
Qed.

Lemma run_batches_outcome (o : options) (validset : bool) (n_batch : nat)
    (step : Z) (trace : list event) :
  exists trace' step',
    run_batches o validset n_batch step trace = (Continue trace', step') \/
    run_batches o validset n_batch step trace =
      (Raised AttributeError trace', step').
Proof.
  revert step trace. induction n_batch as [|n IH]; intros step trace; cbn.
  - exists trace, step. by left.
  - rewrite after_step_eq.
    destruct (negb (max_steps o =? 0)%Z && (max_steps o <=? scheduler_step step)%Z).
    + eexists _, _. by right.
    + apply IH.
Qed.

(** C2 fails on the code.  On the batch at which the step counter reaches
    [max_steps], the loop runs the final validation and then raises
    [AttributeError] while it evaluates the arguments of the final
    [save_checkpoint], which name the attribute [OptScheduler]: no final
    checkpoint is saved and [learn] does not return.  Without a limit on the
    epochs [learn] never returns normally, and the run with [max_steps = 2]
    over three batches ends in the exception after the validation of
    step 2. *)
Theorem learn_max_steps_raises :
  (forall o validset step trace,
     after_step o validset step trace =
     if negb (max_steps o =? 0)%Z && (max_steps o <=? step)%Z
     then Raised AttributeError
            (trace ++ periodic o validset step ++
             (if validset then [Validate step] else []))
     else Continue (trace ++ periodic o validset step)) /\
  (forall fuel ms ve se re k validset n_batch step epoch trace,
     let o := mk_options ms 0 ve se re k in
     learn fuel o validset n_batch step epoch trace = None \/
     exists trace',
       learn fuel o validset n_batch step epoch trace =
       Some (Raised AttributeError trace')) /\
  learn 1 (mk_options 2 0 0 0 0 1) true 3 0 0 [] =
    Some (Raised AttributeError [Validate 2]) /\
  learn 1 (mk_options 2 0 0 1 0 1) true 3 0 0 [] =
    Some (Raised AttributeError [Save 1 1; Save 2 1; Validate 2]).
Proof.
  split; [exact after_step_eq|]. split; [|split; vm_compute; reflexivity].
  intros fuel ms ve se re k validset n_batch step epoch trace o.
  revert step epoch trace.
  induction fuel as [|fuel IH]; intros step epoch trace; cbn; [by left|].
  destruct (run_batches_outcome o validset n_batch step trace)
    as (trace' & step' & [-> | ->]).
  - apply IH.
  - right. by exists trace'.
Qed.

End Learn.

(** ** Model.py: save_checkpoint and load_checkpoint

    The directory is a finite map from path to file; its entries are
    regular files that the process may remove.  A file is what [torch.load]
    makes of it: an object, or an exception.  The paths that
    [glob] returns come in no particular order; [sorted] orders them by code
    point, which is [String.compare].

    [glob] reads the characters [*], [?] and [[] of its whole argument as
    wildcards, those of [suffix] included.  [matches] is the meaning of the
    pattern for a suffix that holds none of them, a [plain] suffix: there
    the suffix stands for itself.  Every statement about [glob] is made for
    a plain suffix. *)

Module Checkpoint.

Definition digit (d : Z) : ascii := ascii_of_nat (48 + Z.to_nat d).

(** The [k] low-order decimal digits of [n], most significant first. *)
Fixpoint digits (k : nat) (n : Z) : string :=
  match k with
  | 0 => EmptyString
  | S k' => digits k' (n / 10) ++ String (digit (n mod 10)) EmptyString
  end.

(** The number of decimal digits of [n >= 0]. *)
Fixpoint ndigits_fuel (fuel : nat) (n : Z) : nat :=
  match fuel with
  | 0 => 1
  | S fuel' => if (n <? 10)%Z then 1 else S (ndigits_fuel fuel' (n / 10))
  end.

Definition ndigits (n : Z) : nat := ndigits_fuel (Z.to_nat (Z.log2 n)) n.

(** ["{:08d}".format(n)]: the decimal digits of [n], padded with zeros on
    the left to a width of at least 8, the sign counting in the width. *)
Definition fmt08d (n : Z) : string :=
  if (n <? 0)%Z then "-" ++ digits (Nat.max 7 (ndigits (- n))) (- n)
  else digits (Nat.max 8 (ndigits n)) n.

(** ["{}.checkpoint_{:08d}.pt".format(suffix, step)] *)
Definition checkpoint_name (suffix : string) (step : Z) : string :=
  suffix ++ ".checkpoint_" ++ fmt08d step ++ ".pt".

Fixpoint strip_prefix (p s : string) : option string :=
  match p, s with
  | EmptyString, _ => Some s
  | String a p', String b s' =>
      if Ascii.eqb a b then strip_prefix p' s' else None
  | String _ _, EmptyString => None
  end.

Fixpoint no_slash (s : string) : bool :=
  match s with
  | EmptyString => true
  | String c r => negb (Ascii.eqb c "/"%char) && no_slash r
  end.

(** The characters that [glob] reads as wildcards, and a suffix without
    them. *)
Definition magic (c : ascii) : bool :=
  Ascii.eqb c "*"%char || Ascii.eqb c "?"%char || Ascii.eqb c "["%char.

Fixpoint plain (s : string) : bool :=
  match s with
  | EmptyString => true
  | String c r => negb (magic c) && plain r
  end.

(** Does [name] match [suffix + '.checkpoint_????????.pt'], for a plain
    [suffix]?  Each [?] stands for one character other than the separator
    of directories. *)
Definition matches (suffix name : string) : bool :=
  match strip_prefix (suffix ++ ".checkpoint_") name with
  | None => false
  | Some rest =>
      (String.length rest =? 11) &&
      no_slash (substring 0 8 rest) &&
      String.eqb (substring 8 3 rest) ".pt"
  end.

Section WithStates.

(** What [state_dict()] returns, for the model and for the optimizer. *)
Variable model_state optimizer_state : Type.

(** The object that [torch.load] returns, by what the code reads of it:
    [checkpoint['step']], [checkpoint['model']] and [checkpoint['optimizer']]
    each give a value, or raise when the key is missing or the object is no
    dictionary. *)
Record pickle : Type := mk_pickle {
  step : result Z;
  model : result model_state;
  optimizer : result optimizer_state
}.

(** A file of the directory: [torch.load] returns an object, or raises. *)
Inductive file : Type :=
| Loadable (p : pickle)
| Unloadable (e : exn).

(** The file that [torch.save] writes for the dictionary of
    [save_checkpoint]. *)
Definition checkpoint (step : Z) (m : model_state) (o : optimizer_state)
  : file :=
  Loadable {| step := Ok step; model := Ok m; optimizer := Ok o |}.

(** [model.load_state_dict(state)]: the state of the model afterwards, or
    the exception that a state which does not fit the model raises. *)
Variable load_state_dict : model_state -> model_state -> result model_state.

Abbreviation directory := (gmap string file).

Definition glob (suffix : string) (fs : directory) : list string :=
  List.filter (matches suffix) (elements (dom fs)).

Definition sorted (names : list string) : list string :=
  sorted_by String.ltb names.

(** The loop that removes the oldest files: [files.pop(0)], [os.remove]. *)
Fixpoint remove_oldest (keep_last_n : Z) (files : list string) (fs : directory)
  : directory :=
  match files with
  | [] => fs
  | f :: rest =>
      if (0 <? keep_last_n)%Z && (keep_last_n <? Z.of_nat (length files))%Z
      then remove_oldest keep_last_n rest (delete f fs)
      else fs
  end.

Definition save_checkpoint (fs : directory) (suffix : string)
    (m : model_state) (o : optimizer_state) (step : Z) (keep_last_n : Z)
  : directory :=
  let fs := <[checkpoint_name suffix step := checkpoint step m o]> fs in
  let files := sorted (glob suffix fs) in
  remove_oldest keep_last_n files fs.

(** [torch.load(file)] *)
Definition torch_load (fs : directory) (path : string) : result pickle :=
  match fs !! path with
  | None => Raise FileNotFoundError
  | Some (Unloadable e) => Raise e
  | Some (Loadable p) => Ok p
  end.

(** [load_checkpoint]: the state of the model after
    [model.load_state_dict], with the path of the file it came from. *)
Definition load_checkpoint (fs : directory) (suffix : string)
    (m : model_state) : result (string * model_state) :=
  let files := sorted (glob suffix fs) in
  match last files with
  | None => Raise SysExit
  | Some file =>
      checkpoint ← torch_load fs file;
      _ ← step checkpoint;
      state ← model checkpoint;
      m ← load_state_dict m state;
      Ok (file, m)
  end.

End WithStates.

(** *** File names *)

Lemma string_app_cons (a : ascii) (s t : string) :
  (String a s ++ t)%string = String a (s ++ t).
Proof. reflexivity. Qed.

Lemma string_app_empty (t : string) : (EmptyString ++ t)%string = t.
Proof. reflexivity. Qed.

Lemma string_length_app (s t : string) :
  String.length (s ++ t) = String.length s + String.length t.
Proof.
  induction s as [|a s IH]; [done|].
  rewrite string_app_cons. cbn. by rewrite IH.
Qed.

Lemma string_app_assoc (s t u : string) : (s ++ (t ++ u) = (s ++ t) ++ u)%string.
Proof.
  induction s as [|a s IH]; [done|].
  rewrite !string_app_cons. by rewrite IH.
Qed.

Lemma string_compare_refl (s : string) : String.compare s s = Eq.
Proof.
  induction s as [|a s IH]; cbn; [done|].
  unfold Ascii.compare. by rewrite N.compare_refl.
Qed.

Lemma string_compare_app (p q s t : string) :
  String.length p = String.length q ->
  String.compare (p ++ s) (q ++ t) =
  match String.compare p q with
  | Eq => String.compare s t
  | c => c
  end.
Proof.
  revert q. induction p as [|a p IH]; intros [|b q]; cbn; try done.
  intros [= Hlen]. rewrite !string_app_cons. cbn.
  destruct (Ascii.compare a b); [by apply IH|done..].
Qed.

Lemma string_compare_app_prefix (p s t : string) :
  String.compare (p ++ s) (p ++ t) = String.compare s t.
Proof. by rewrite string_compare_app, string_compare_refl. Qed.

Lemma length_digits (k : nat) (n : Z) : String.length (digits k n) = k.
Proof.
  revert n. induction k as [|k IH]; intros n; cbn; [done|].
  rewrite string_length_app, IH. cbn. lia.
Qed.

Lemma digit_compare (a b : Z) :
  (0 <= a < 10)%Z -> (0 <= b < 10)%Z ->
  Ascii.compare (digit a) (digit b) = (a ?= b)%Z.
Proof.
  intros Ha Hb.
  assert (Hcases : forall x, (0 <= x < 10)%Z ->
            x = 0%Z \/ x = 1%Z \/ x = 2%Z \/ x = 3%Z \/ x = 4%Z \/
            x = 5%Z \/ x = 6%Z \/ x = 7%Z \/ x = 8%Z \/ x = 9%Z) by (intros; lia).
  destruct (Hcases a Ha) as [->|[->|[->|[->|[->|[->|[->|[->|[->| ->]]]]]]]]];
  destruct (Hcases b Hb) as [->|[->|[->|[->|[->|[->|[->|[->|[->| ->]]]]]]]]];
  reflexivity.
Qed.

Lemma compare_div_mod (a b : Z) :
  (0 <= a)%Z -> (0 <= b)%Z ->
  (a ?= b)%Z =
  match (a / 10 ?= b / 10)%Z with
  | Eq => (a mod 10 ?= b mod 10)%Z
  | c => c
  end.
Proof.
  intros Ha Hb.
  pose proof (Z.div_mod a 10 ltac:(lia)) as Hda.
  pose proof (Z.div_mod b 10 ltac:(lia)) as Hdb.
  pose proof (Z.mod_pos_bound a 10 ltac:(lia)) as Hma.
  pose proof (Z.mod_pos_bound b 10 ltac:(lia)) as Hmb.
  destruct (Z.compare_spec (a / 10) (b / 10)) as [Heq|Hlt|Hgt].
  - destruct (Z.compare_spec (a mod 10) (b mod 10));
      [apply Z.compare_eq_iff|apply Z.compare_lt_iff|apply Z.compare_gt_iff]; lia.
  - apply Z.compare_lt_iff. lia.
  - apply Z.compare_gt_iff. lia.
Qed.

Lemma div_mod_10 (r x : Z) :
  (0 <= r < 10)%Z ->
  ((r + 10 * x) / 10 = x)%Z /\ ((r + 10 * x) mod 10 = r)%Z.
Proof.
  intros Hr. split.
  - rewrite Z.add_comm, Z.mul_comm, Z.div_add_l by lia.
    rewrite Z.div_small by lia. lia.
  - rewrite Z.mul_comm, Z.mod_add by lia. apply Z.mod_small; lia.
Qed.

Lemma digits_compare (k : nat) (a b : Z) :
  (0 <= a)%Z -> (0 <= b)%Z ->
  String.compare (digits k a) (digits k b) =
  (a mod 10 ^ Z.of_nat k ?= b mod 10 ^ Z.of_nat k)%Z.
Proof.
  revert a b. induction k as [|k IH]; intros a b Ha Hb.
  - cbn. by rewrite !Z.mod_1_r.
  - cbn [digits]. rewrite string_compare_app by (by rewrite !length_digits).
    rewrite IH by (apply Z.div_pos; lia).
    assert (Hpow : (10 ^ Z.of_nat (S k) = 10 * 10 ^ Z.of_nat k)%Z).
    { rewrite Nat2Z.inj_succ, Z.pow_succ_r; lia. }
    assert (Hpos : (0 < 10 ^ Z.of_nat k)%Z) by (apply Z.pow_pos_nonneg; lia).
    rewrite (compare_div_mod (a mod _) (b mod _))
      by (apply Z.mod_pos_bound; lia).
    rewrite Hpow, !Z.rem_mul_r by lia.
    destruct (div_mod_10 (a mod 10) ((a / 10) mod 10 ^ Z.of_nat k))
      as [-> ->]; [apply Z.mod_pos_bound; lia|].
    destruct (div_mod_10 (b mod 10) ((b / 10) mod 10 ^ Z.of_nat k))
      as [-> ->]; [apply Z.mod_pos_bound; lia|].
    destruct (_ ?= _)%Z; [|done..].
    cbn. rewrite digit_compare by (apply Z.mod_pos_bound; lia).
    by destruct (_ ?= _)%Z.
Qed.

Lemma ndigits_fuel_le (fuel k : nat) (n : Z) :
  1 <= k -> (0 <= n < 10 ^ Z.of_nat k)%Z -> ndigits_fuel fuel n <= k.
Proof.
  revert k n. induction fuel as [|fuel IH]; intros k n Hk Hn; cbn; [done|].
  destruct (Z.ltb_spec n 10) as [Hlt|Hge]; [done|].
  destruct k as [|[|k]]; [lia| |].
  - cbn in Hn. lia.
  - apply le_n_S, IH; [lia|].
    rewrite (Nat2Z.inj_succ (S k)), Z.pow_succ_r in Hn by lia.
    split; [apply Z.div_pos; lia|].
    apply Z.div_lt_upper_bound; lia.
Qed.

Lemma fmt08d_small (n : Z) :
  (0 <= n < 10 ^ 8)%Z -> fmt08d n = digits 8 n.
Proof.
  intros Hn. unfold fmt08d.
  destruct (Z.ltb_spec n 0) as [Hlt|_]; [lia|].
  rewrite Nat.max_l; [done|].
  apply ndigits_fuel_le; [lia|]. change (Z.of_nat 8) with 8%Z. lia.
Qed.

(** Below [10 ^ 8], the names are ordered as the steps are. *)
Lemma checkpoint_name_compare (suffix : string) (a b : Z) :
  (0 <= a < 10 ^ 8)%Z -> (0 <= b < 10 ^ 8)%Z ->
  String.compare (checkpoint_name suffix a) (checkpoint_name suffix b) =
  (a ?= b)%Z.
Proof.
  intros Ha Hb. unfold checkpoint_name.
  rewrite !string_compare_app_prefix, !fmt08d_small by done.
  rewrite string_compare_app by (by rewrite !length_digits).
  rewrite digits_compare by lia.
  change (Z.of_nat 8) with 8%Z. rewrite !Z.mod_small by lia.
  destruct (a ?= b)%Z; [apply string_compare_refl|done..].
Qed.

Lemma strip_prefix_app (p x : string) : strip_prefix p (p ++ x) = Some x.
Proof.
  induction p as [|a p IH]; [by destruct x|].
  rewrite string_app_cons. cbn. by rewrite Ascii.eqb_refl.
Qed.

Lemma substring_app_l (s t : string) (k : nat) :
  String.length s = k -> substring 0 k (s ++ t) = s.
Proof.
  revert k. induction s as [|a s IH]; intros k <-; cbn.
  - by destruct t.
  - rewrite string_app_cons. cbn. by rewrite IH.
Qed.

Lemma substring_app_r (s t : string) (k m : nat) :
  String.length s = k -> substring k m (s ++ t) = substring 0 m t.
Proof.
  revert k. induction s as [|a s IH]; intros k <-; cbn; [done|].
  rewrite string_app_cons. cbn. by apply IH.
Qed.

Lemma no_slash_app (s t : string) :
  no_slash (s ++ t) = no_slash s && no_slash t.
Proof.
  induction s as [|a s IH]; [done|].
  rewrite string_app_cons. cbn. rewrite IH. by rewrite andb_assoc.
Qed.

Lemma no_slash_digits (k : nat) (n : Z) : no_slash (digits k n) = true.
Proof.
  revert n. induction k as [|k IH]; intros n; cbn; [done|].
  rewrite no_slash_app, IH. cbn.
  pose proof (Z.mod_pos_bound n 10 ltac:(lia)) as Hd.
  assert (Hcases : forall x, (0 <= x < 10)%Z ->
            x = 0%Z \/ x = 1%Z \/ x = 2%Z \/ x = 3%Z \/ x = 4%Z \/
            x = 5%Z \/ x = 6%Z \/ x = 7%Z \/ x = 8%Z \/ x = 9%Z) by (intros; lia).
  destruct (Hcases _ Hd) as [->|[->|[->|[->|[->|[->|[->|[->|[->| ->]]]]]]]]];
    reflexivity.
Qed.

Lemma matches_checkpoint_name (suffix : string) (n : Z) :
  (0 <= n < 10 ^ 8)%Z -> matches suffix (checkpoint_name suffix n) = true.
Proof.
  intros Hn. unfold matches, checkpoint_name.
  rewrite string_app_assoc, strip_prefix_app, fmt08d_small by done.
  rewrite string_length_app, length_digits.
  rewrite substring_app_l, substring_app_r by apply length_digits.
  by rewrite no_slash_digits.
Qed.

(** *** The directory *)

Arguments mk_pickle {model_state optimizer_state} step model optimizer.
Arguments step {model_state optimizer_state} p.
Arguments model {model_state optimizer_state} p.
Arguments optimizer {model_state optimizer_state} p.
Arguments Loadable {model_state optimizer_state} p.
Arguments Unloadable {model_state optimizer_state} e.
Arguments checkpoint {model_state optimizer_state} step m o.
Arguments glob {model_state optimizer_state} suffix fs.
Arguments remove_oldest {model_state optimizer_state} keep_last_n files fs.
Arguments save_checkpoint {model_state optimizer_state} fs suffix m o step keep_last_n.
Arguments torch_load {model_state optimizer_state} fs path.
Arguments load_checkpoint {model_state optimizer_state} load_state_dict fs suffix m.

Lemma ltb_false_le (x y : string) : String.ltb y x = false <-> String.le x y.
Proof.
  unfold String.le, String.ltb, String.leb.
  rewrite (String.compare_antisym x y).
  destruct (String.compare y x); cbn; split; done.
Qed.

Lemma sorted_sorted (l : list string) : StronglySorted String.le (sorted l).
Proof.
  eapply StronglySorted_mono; [|apply (sorted_by_sorted String.ltb)].
  - intros x y. apply ltb_false_le.
  - intros x y. unfold String.ltb. rewrite (String.compare_antisym y x).
    by destruct (String.compare x y).
  - intros x y z. unfold not_after. rewrite !ltb_false_le. apply transitivity.
Qed.

Lemma sorted_unique_from (l s : list string) :
  NoDup l -> NoDup s -> StronglySorted String.le s ->
  (forall x, x ∈ s <-> x ∈ l) -> sorted l = s.
Proof.
  intros Hl Hs Hsorted Hiff.
  apply (StronglySorted_unique String.le); [apply sorted_sorted|done|].
  unfold sorted. rewrite sorted_by_perm.
  apply NoDup_Permutation; [done..|]. intros x. by rewrite Hiff.
Qed.

Lemma StronglySorted_drop {A : Type} (R : A -> A -> Prop) (n : nat) (l : list A) :
  StronglySorted R l -> StronglySorted R (drop n l).
Proof.
  revert n. induction l as [|x l IH]; intros [|n] H; cbn; try done.
  apply IH. by inversion H.
Qed.

Lemma StronglySorted_last_max {A : Type} (R : A -> A -> Prop) `{!Reflexive R}
    (l : list A) (x : A) :
  StronglySorted R l -> last l = Some x -> forall y, y ∈ l -> R y x.
Proof.
  induction 1 as [|z l Hl IH Hz]; [done|].
  destruct l as [|z' l].
  - intros [= <-] y ->%list_elem_of_singleton. reflexivity.
  - cbn [last]. intros Hlast y [->|Hy]%elem_of_cons.
    + rewrite Forall_forall in Hz. apply Hz.
      apply list_elem_of_lookup. exists (length l).
      change (last (z' :: l) = Some x) in Hlast.
      by rewrite last_lookup in Hlast.
    + by apply IH.
Qed.

Section Directory.

Context {model_state optimizer_state : Type}.
Implicit Types fs : gmap string (file model_state optimizer_state).

Lemma elem_of_glob (suffix : string) fs (x : string) :
  x ∈ glob suffix fs <-> matches suffix x = true /\ is_Some (fs !! x).
Proof.
  unfold glob. rewrite list_elem_of_In, filter_In, <- list_elem_of_In.
  rewrite elem_of_elements, elem_of_dom. tauto.
Qed.

Lemma NoDup_glob (suffix : string) fs : NoDup (glob suffix fs).
Proof.
  unfold glob. apply NoDup_ListNoDup, List.NoDup_filter, NoDup_ListNoDup.
  apply NoDup_elements.
Qed.

Lemma NoDup_sorted (l : list string) : NoDup l -> NoDup (sorted l).
Proof. intros H. unfold sorted. by rewrite sorted_by_perm. Qed.

Lemma elem_of_sorted (l : list string) (x : string) : x ∈ sorted l <-> x ∈ l.
Proof. unfold sorted. by rewrite sorted_by_perm. Qed.

Lemma remove_oldest_lookup (keep_last_n : Z) (files : list string) fs
    (x : string) :
  (0 < keep_last_n)%Z ->
  remove_oldest keep_last_n files fs !! x =
  if decide (x ∈ take (length files - Z.to_nat keep_last_n) files)
  then None else fs !! x.
Proof.
  intros Hk. revert fs. induction files as [|f rest IH]; intros fs.
  - cbn. rewrite take_nil. by rewrite decide_False by apply not_elem_of_nil.
  - cbn [remove_oldest].
    replace (0 <? keep_last_n)%Z with true by (symmetry; apply Z.ltb_lt; lia).
    cbn [andb].
    destruct (Z.ltb_spec keep_last_n (Z.of_nat (length (f :: rest)))) as [Hlt|Hge].
    + rewrite IH. cbn [length] in *.
      replace (S (length rest) - Z.to_nat keep_last_n)
        with (S (length rest - Z.to_nat keep_last_n)) by lia.
      cbn [take].
      destruct (decide (x = f)) as [->|Hne].
      * rewrite (decide_True (P := f ∈ f :: _)) by apply list_elem_of_here.
        destruct (decide _); [done|]. apply lookup_delete_eq.
      * rewrite lookup_delete_ne by done.
        destruct (decide (x ∈ take _ rest)) as [Hin|Hin].
        -- rewrite decide_True; [done|]. by apply list_elem_of_further.
        -- rewrite decide_False; [done|].
           intros [?|?]%elem_of_cons; done.
    + replace (length (f :: rest) - Z.to_nat keep_last_n) with 0 by lia.
      cbn. by rewrite decide_False by apply not_elem_of_nil.
Qed.

(** Loading reads the last of the sorted matching names, which no
    matching name exceeds. *)
Lemma load_checkpoint_spec
    (load_state_dict : model_state -> model_state -> result model_state)
    (suffix : string) fs (m : model_state) :
  match last (sorted (glob suffix fs)) with
  | None =>
      glob suffix fs = [] /\
      load_checkpoint load_state_dict fs suffix m = Raise SysExit
  | Some path =>
      exists c, fs !! path = Some c /\
                path ∈ glob suffix fs /\
                (forall g, g ∈ glob suffix fs -> String.le g path) /\
                load_checkpoint load_state_dict fs suffix m =
                match c with
                | Unloadable e => Raise e
                | Loadable p =>
                    _ ← step p;
                    state ← model p;
                    m ← load_state_dict m state;
                    Ok (path, m)
                end
  end.
Proof.
  unfold load_checkpoint, torch_load.
  destruct (last (sorted (glob suffix fs))) as [path|] eqn:Hlast.
  - assert (Hin : path ∈ glob suffix fs).
    { apply elem_of_sorted, list_elem_of_lookup.
      rewrite last_lookup in Hlast. eauto. }
    pose proof Hin as [_ [c Hc]]%elem_of_glob.
    exists c. rewrite Hc. split; [done|]. split; [done|]. split.
    + intros g Hg. eapply (StronglySorted_last_max String.le);
        [apply sorted_sorted|exact Hlast|by apply elem_of_sorted].
    + by destruct c.
  - split; [|done]. apply last_None in Hlast.
    apply Permutation_nil_r. unfold sorted in Hlast.
    rewrite <- Hlast. symmetry. apply sorted_by_perm.
Qed.

Lemma remove_oldest_keep_all (keep_last_n : Z) (files : list string) fs :
  (keep_last_n <= 0)%Z -> remove_oldest keep_last_n files fs = fs.
Proof.
  intros Hk. destruct files as [|f rest]; [done|]. cbn [remove_oldest].
  by replace (0 <? keep_last_n)%Z with false by (symmetry; apply Z.ltb_ge; lia).
Qed.

Lemma save_checkpoint_files (suffix : string) fs (m : model_state)
    (o : optimizer_state) (step keep_last_n : Z) :
  (0 < keep_last_n)%Z ->
  let fs1 := <[checkpoint_name suffix step := checkpoint step m o]> fs in
  let files := sorted (glob suffix fs1) in
  sorted (glob suffix (save_checkpoint fs suffix m o step keep_last_n)) =
  drop (length files - Z.to_nat keep_last_n) files.
Proof.
  intros Hk fs1 files. unfold save_checkpoint. fold fs1. fold files.
  set (n := length files - Z.to_nat keep_last_n).
  assert (Hnd : NoDup files) by apply NoDup_sorted, NoDup_glob.
  rewrite <- (take_drop n files) in Hnd.
  apply NoDup_app in Hnd as (_ & Hdisj & Hnd).
  apply sorted_unique_from; [apply NoDup_glob|done| |].
  - apply StronglySorted_drop, sorted_sorted.
  - intros x. rewrite elem_of_glob, remove_oldest_lookup by done. fold n.
    destruct (decide (x ∈ take n files)) as [Hin|Hin].
    + split; [by intros ?%Hdisj|]. by intros [_ [? ?]].
    + rewrite <- elem_of_glob. fold fs1.
      rewrite <- (elem_of_sorted (glob suffix fs1)). fold files. split.
      * intros Hd. rewrite <- (take_drop n files).
        apply elem_of_app. by right.
      * intros Hf. rewrite <- (take_drop n files) in Hf.
        apply elem_of_app in Hf as [?|?]; done.
Qed.

End Directory.

Lemma last_drop_lt {A : Type} (n : nat) (l : list A) :
  n < length l -> last (drop n l) = last l.
Proof.
  intros Hn. rewrite !last_lookup, lookup_drop, length_drop.
  f_equal. lia.
Qed.

(** The scenario of the specification, in a directory that holds nothing
    else, with checkpoints whose states are trivial. *)
Definition scenario (keep_last_n : Z) (steps : list Z)
  : gmap string (file unit unit) :=
  foldl (fun fs step => save_checkpoint fs "run" tt tt step keep_last_n) ∅ steps.

(** C8, as the code has it, for a suffix without wildcards.  For a step
    from 0 to [10 ^ 8 - 1] the file name holds the step as 8 decimal digits
    and the names are ordered as the steps are.  With [keep_last_n > 0], a
    save leaves the [keep_last_n] last of the sorted matching names and
    removes exactly the ones before them; with [keep_last_n <= 0] it
    removes nothing.  Loading then reads the last of the sorted matching
    names, which no matching name exceeds: it raises what [torch.load]
    raises on that file, or loads the model that the file holds.  And steps
    10, 20, 30, 40 with [keep_last_n = 2] leave the files of steps 30 and
    40. *)
Theorem checkpoint_retention {model_state optimizer_state : Type}
    (load_state_dict : model_state -> model_state -> result model_state)
    (fs : gmap string (file model_state optimizer_state))
    (suffix : string) (m m0 : model_state) (o : optimizer_state)
    (step keep_last_n : Z) :
  plain suffix = true ->
  (0 <= step < 10 ^ 8)%Z ->
  let name := checkpoint_name suffix step in
  let fs1 := <[name := checkpoint step m o]> fs in
  let files := sorted (glob suffix fs1) in
  let fs' := save_checkpoint fs suffix m o step keep_last_n in
  String.length (fmt08d step) = 8 /\
  name ∈ files /\
  (forall step', (0 <= step' < 10 ^ 8)%Z ->
     String.compare name (checkpoint_name suffix step') = (step ?= step')%Z) /\
  ((0 < keep_last_n)%Z ->
   sorted (glob suffix fs') = drop (length files - Z.to_nat keep_last_n) files /\
   length (glob suffix fs') <= Z.to_nat keep_last_n /\
   forall x, fs' !! x =
             if decide (x ∈ take (length files - Z.to_nat keep_last_n) files)
             then None else fs1 !! x) /\
  ((keep_last_n <= 0)%Z -> fs' = fs1) /\
  (exists path c,
     last (sorted (glob suffix fs')) = Some path /\
     fs' !! path = Some c /\
     (forall g, g ∈ glob suffix fs' -> String.le g path) /\
     load_checkpoint load_state_dict fs' suffix m0 =
     match c with
     | Unloadable e => Raise e
     | Loadable p =>
         _ ← Checkpoint.step p;
         state ← model p;
         m ← load_state_dict m0 state;
         Ok (path, m)
     end) /\
  dom (scenario 2 [10; 20; 30; 40]%Z) =
    {[ "run.checkpoint_00000030.pt"; "run.checkpoint_00000040.pt" ]}.
Proof.
  intros _ Hstep name fs1 files fs'.
  assert (Hname : name ∈ files).
  { apply elem_of_sorted, elem_of_glob. split.
    - by apply matches_checkpoint_name.
    - subst fs1. rewrite lookup_insert_eq. by eexists. }
  assert (Hlen : 0 < length files).
  { destruct files; [by apply elem_of_nil in Hname|cbn; lia]. }
  assert (Hfiles : (0 < keep_last_n)%Z ->
            sorted (glob suffix fs') =
            drop (length files - Z.to_nat keep_last_n) files)
    by (intros Hk; by apply save_checkpoint_files).
  assert (Hzero : (keep_last_n <= 0)%Z -> fs' = fs1)
    by (intros Hk; by apply remove_oldest_keep_all).
  split; [by rewrite fmt08d_small, length_digits|].
  split; [done|].
  split; [intros step' Hstep'; by apply checkpoint_name_compare|].
  split.
  { intros Hk. split; [by apply Hfiles|]. split.
    - specialize (Hfiles Hk). unfold sorted in Hfiles.
      rewrite <- (sorted_by_length String.ltb), Hfiles, length_drop. lia.
    - intros x. by apply remove_oldest_lookup. }
  split; [done|].
  split; [|vm_compute; reflexivity].
  pose proof (load_checkpoint_spec load_state_dict suffix fs' m0) as Hload.
  destruct (last (sorted (glob suffix fs'))) as [path|] eqn:Hlast.
  - destruct Hload as (c & Hc & _ & Hmax & Hl). by exists path, c.
  - exfalso. destruct Hload as [Hnil _].
    destruct (Z.lt_ge_cases 0 keep_last_n) as [Hk|Hk].
    + specialize (Hfiles Hk). rewrite Hnil in Hfiles.
      assert (Hd : length (drop (length files - Z.to_nat keep_last_n) files) = 0)
        by (by rewrite <- Hfiles).
      rewrite length_drop in Hd. lia.
    + rewrite (Hzero Hk) in Hnil.
      assert (Hin : name ∈ glob suffix fs1)
        by (by apply (elem_of_sorted (glob suffix fs1))).
      rewrite Hnil in Hin. by apply elem_of_nil in Hin.
Qed.

Lemma checkpoint_retention_witness :
  sorted (glob "run" (scenario 2 [10; 20; 30]%Z)) =
    ["run.checkpoint_00000020.pt"; "run.checkpoint_00000030.pt"] /\
  load_checkpoint (fun _ state => Ok state) (scenario 2 [10; 20; 30]%Z) "run" tt =
    Ok ("run.checkpoint_00000030.pt", tt).
Proof.
  destruct (checkpoint_retention (fun _ state => Ok state)
              (scenario 2 [10; 20]%Z) "run" tt tt tt 30 2)
    as (_ & _ & _ & Hpos & _ & (path & c & Hlast & Hc & _ & Hload) & _);
    [reflexivity|lia|].
  destruct Hpos as (Hfiles & _); [lia|].
  split.
  - etrans; [exact Hfiles|]. vm_compute. reflexivity.
  - etrans; [exact Hload|].
    assert (Hpath : Some path = Some "run.checkpoint_00000030.pt")
      by (rewrite <- Hlast; vm_compute; reflexivity).
    injection Hpath as ->.
    assert (Hfile : Some c = Some (checkpoint 30 tt tt))
      by (rewrite <- Hc; vm_compute; reflexivity).
    injection Hfile as ->. reflexivity.
Defined.

(** C8 as stated fails in two places.  A step of [10 ^ 8] is written with 9
    digits: its name sorts before the name of step [10 ^ 8 - 1], does not
    match the pattern, is never removed and is never loaded.  And with
    [keep_last_n = 0] no file is removed at all. *)
Lemma checkpoint_retention_fails :
  String.length (fmt08d (10 ^ 8)) = 9 /\
  String.ltb (checkpoint_name "run" (10 ^ 8))
             (checkpoint_name "run" (10 ^ 8 - 1)) = true /\
  matches "run" (checkpoint_name "run" (10 ^ 8)) = false /\
  dom (scenario 1 [10 ^ 8 - 1; 10 ^ 8]%Z) =
    {[ "run.checkpoint_99999999.pt"; "run.checkpoint_100000000.pt" ]} /\
  load_checkpoint (fun _ state => Ok state)
                  (scenario 1 [10 ^ 8 - 1; 10 ^ 8]%Z) "run" tt =
    Ok ("run.checkpoint_99999999.pt", tt) /\
  ~ (length (glob "run" (scenario 0 [10; 20; 30]%Z)) <= 0).
Proof.
  split; [vm_compute; reflexivity|].
  split; [vm_compute; reflexivity|].
  split; [vm_compute; reflexivity|].
  split; [vm_compute; reflexivity|].
  split; [vm_compute; reflexivity|].
  intros H. vm_compute in H. lia.
Qed.

End Checkpoint.

(** ** Model.py: AddPositionalEncoding

    Floating point numbers are read as real numbers.  A tensor of rank 3 is
    its three sizes and the entry at every index; entries outside the sizes
    are never read. *)

Module PositionalEncoding.

Import Reals Lra.

Record tensor3 : Type := mk_tensor3 {
  size0 : nat;
  size1 : nat;
  size2 : nat;
  entry : nat -> nat -> nat -> R
}.

(** [torch.exp(torch.arange(0, emb_dim, 2).float() * (-math.log(10000.0) / emb_dim))],
    at index [i]. *)
Definition div_term (emb_dim i : nat) : R :=
  exp (INR (2 * i) * (- ln 10000 / INR emb_dim)).

(** [pe[p, d]] after [pe[:, 0::2] = sin(...)] and [pe[:, 1::2] = cos(...)]. *)
Definition pe_entry (emb_dim p d : nat) : R :=
  if Nat.even d then sin (INR p * div_term emb_dim (d / 2))
  else cos (INR p * div_term emb_dim (d / 2)).

Record module : Type := mk_module {
  pe : tensor3;
  dropout : tensor3 -> tensor3
}.

(** [__init__]: [pe] is registered with shape [max_len, 1, emb_dim].  The
    division by [emb_dim] fails at 0, and the assignment of the cosines needs
    as many odd columns as there are frequencies, or one frequency only. *)
Definition init (emb_dim : nat) (dropout : tensor3 -> tensor3) (max_len : nat)
  : result module :=
  if emb_dim =? 0 then Raise ZeroDivisionError
  else if (emb_dim / 2 =? (emb_dim + 1) / 2) || ((emb_dim + 1) / 2 =? 1)
  then Ok {| pe := {| size0 := max_len; size1 := 1; size2 := emb_dim;
                      entry := fun p _ d => pe_entry emb_dim p d |};
             dropout := dropout |}
  else Raise RuntimeError.

(** [t[:n, :]] *)
Definition slice0 (n : nat) (t : tensor3) : tensor3 :=
  {| size0 := Nat.min n (size0 t); size1 := size1 t; size2 := size2 t;
     entry := entry t |}.

(** Broadcasting of one dimension: equal sizes, or one of them 1. *)
Definition broadcast_size (a b : nat) : result nat :=
  if a =? b then Ok a
  else if a =? 1 then Ok b
  else if b =? 1 then Ok a
  else Raise RuntimeError.

Definition broadcast_index (size i : nat) : nat :=
  if size =? 1 then 0 else i.

Definition entry_broadcast (t : tensor3) (i j k : nat) : R :=
  entry t (broadcast_index (size0 t) i) (broadcast_index (size1 t) j)
          (broadcast_index (size2 t) k).

(** [a + b] *)
Definition add (a b : tensor3) : result tensor3 :=
  n0 ← broadcast_size (size0 a) (size0 b);
  n1 ← broadcast_size (size1 a) (size1 b);
  n2 ← broadcast_size (size2 a) (size2 b);
  Ok {| size0 := n0; size1 := n1; size2 := n2;
        entry := fun i j k =>
                   (entry_broadcast a i j k + entry_broadcast b i j k)%R |}.

(** [forward], without and with the dropout. *)
Definition add_pe (m : module) (x : tensor3) : result tensor3 :=
  add x (slice0 (size0 x) (pe m)).

Definition forward (m : module) (x : tensor3) : result tensor3 :=
  s ← add_pe m x; Ok (dropout m s).

Lemma broadcast_size_same (a : nat) : broadcast_size a a = Ok a.
Proof. unfold broadcast_size. by rewrite Nat.eqb_refl. Qed.

Lemma broadcast_size_one (a : nat) : broadcast_size a 1 = Ok a.
Proof.
  unfold broadcast_size. destruct (Nat.eqb_spec a 1) as [->|H1]; [done|].
  by destruct (a =? 1).
Qed.

(** What is added to the embedding of example [b] at position [p]: the row
    of the table at the index of the example. *)
Lemma add_pe_entry (emb_dim max_len : nat) (dropout : tensor3 -> tensor3)
    (m : module) (x : tensor3) :
  init emb_dim dropout max_len = Ok m ->
  size0 x <= max_len ->
  size2 x = emb_dim ->
  exists s,
    add_pe m x = Ok s /\
    size0 s = size0 x /\ size1 s = size1 x /\ size2 s = size2 x /\
    forall b p d, b < size0 x -> p < size1 x -> d < size2 x ->
      entry s b p d = (entry x b p d + pe_entry emb_dim b d)%R.
Proof.
  intros Hinit Hbs Hed. unfold init in Hinit.
  destruct (emb_dim =? 0) eqn:Hz; [done|].
  destruct (_ || _); [|done]. injection Hinit as <-.
  unfold add_pe, add, slice0. cbn [pe size0 size1 size2 entry].
  rewrite Nat.min_l by done.
  rewrite broadcast_size_same, broadcast_size_one; cbn [mbind result_bind].
  rewrite Hed, broadcast_size_same; cbn [mbind result_bind].
  eexists. split; [reflexivity|]. cbn [size0 size1 size2 entry].
  repeat split; try done.
  intros b p d Hb Hp Hd. unfold entry_broadcast.
  cbn [size0 size1 size2 entry]. unfold broadcast_index.
  f_equal.
  - destruct (Nat.eqb_spec (size0 x) 1), (Nat.eqb_spec (size1 x) 1),
      (Nat.eqb_spec (size2 x) 1); f_equal; lia.
  - destruct (Nat.eqb_spec (size0 x) 1), (Nat.eqb_spec emb_dim 1);
      f_equal; lia.
Qed.

Lemma pe_entry_row0 (emb_dim : nat) :
  pe_entry emb_dim 0 0 = 0%R /\ pe_entry emb_dim 0 1 = 1%R.
Proof.
  unfold pe_entry. cbn [Nat.even INR].
  rewrite !Rmult_0_l. split; [apply sin_0|apply cos_0].
Qed.

Lemma pe_entry_row1 (emb_dim : nat) :
  pe_entry emb_dim 1 0 = sin 1 /\ pe_entry emb_dim 1 1 = cos 1.
Proof.
  unfold pe_entry, div_term. cbn [Nat.even Nat.div Nat.divmod fst Nat.mul INR].
  rewrite !Rmult_0_l, exp_0, !Rmult_1_l. done.
Qed.

Lemma sin_1_neq_0 : sin 1 <> 0%R.
Proof.
  assert (H : (0 < sin 1)%R).
  { apply sin_gt_0; [lra|]. pose proof PI2_1. pose proof PI_RGT_0. lra. }
  lra.
Qed.

(** C1 fails on the code.  The network calls the module on embeddings of
    shape [bs, ls, ed], and [self.pe[:x.size(0), :]] takes the first [bs]
    rows of the table: the row that is added depends on the index of the
    example in the batch, not on the position in the sequence.  In a batch of
    two examples of two positions, with [emb_dim = 2] and the table of 5000
    rows that the network builds, position 1 of example 0 receives row 0 of
    the table, [(sin 0, cos 0)], and position 0 of example 1 receives row 1,
    [(sin 1, cos 1)]; the two rows differ. *)
Theorem positional_table_indexed_by_example
    (x : nat -> nat -> nat -> R) (drop : tensor3 -> tensor3) :
  exists m s,
    init 2 drop 5000 = Ok m /\
    add_pe m (mk_tensor3 2 2 2 x) = Ok s /\
    forward m (mk_tensor3 2 2 2 x) = Ok (drop s) /\
    entry s 0 1 0 = Rplus (x 0 1 0) 0%R /\
    entry s 0 1 1 = Rplus (x 0 1 1) 1%R /\
    entry s 1 0 0 = Rplus (x 1 0 0) (sin 1) /\
    entry s 1 0 1 = Rplus (x 1 0 1) (cos 1) /\
    sin 1 <> 0%R.
Proof.
  destruct (add_pe_entry 2 5000 drop
              {| pe := {| size0 := 5000; size1 := 1; size2 := 2;
                          entry := fun p _ d => pe_entry 2 p d |};
                 dropout := drop |}
              (mk_tensor3 2 2 2 x))
    as (s & Hs & _ & _ & _ & Hentry); [done|cbn; lia|done|].
  eexists _, s. split; [reflexivity|]. split; [exact Hs|].
  split; [unfold forward; by rewrite Hs|].
  cbn [size0 size1 size2 entry] in Hentry.
  destruct (pe_entry_row0 2) as [H00 H01].
  destruct (pe_entry_row1 2) as [H10 H11].
  rewrite !Hentry by lia. rewrite H00, H01, H10, H11.
  repeat split; try done. apply sin_1_neq_0.
Qed.

End PositionalEncoding.

(** ** Model.py: the attention module and the decoder layer

    The numeric kernels of the tensor library are parameters; the layers
    are the compositions that the source writes.  A module is the record of
    its parameters and of its sub-modules, as [__init__] assigns them.

    [torch.nn.Dropout] draws a new mask at every call in training mode and
    does nothing in evaluation mode: the forward functions take the mode of
    the module, which [train()] and [eval()] set for a model and all its
    sub-modules at once, and they pass the state of the random number
    generator from one call to the next. *)

Module Network.

Section WithTensors.

Variable tensor : Type.

(** [t.shape] *)
Variable shape : tensor -> list nat.

(** [torch.nn.Linear] and [torch.nn.LayerNorm] applied to an input, by
    weight and bias, and the tensor operations of [forward]. *)
Variable linear : tensor -> tensor -> tensor -> tensor.
Variable layer_norm : tensor -> tensor -> tensor -> tensor.
Variable split_heads : nat -> nat -> tensor -> tensor.
Variable merge_heads : tensor -> tensor.
Variable transpose_2_3 : tensor -> tensor.
Variable matmul : tensor -> tensor -> tensor.
Variable div_sqrt : nat -> tensor -> tensor.
Variable unsqueeze_1 : tensor -> tensor.
Variable masked_fill_neg_1e9 : tensor -> tensor -> tensor.
Variable softmax_last : tensor -> tensor.
Variable relu : tensor -> tensor.
Variable add : tensor -> tensor -> tensor.

(** The probability given to [torch.nn.Dropout], the state of the random
    number generator, and the dropout of training mode: the masked tensor
    and the state of the generator after the draw. *)
Variable rate : Type.
Variable generator : Type.
Variable bernoulli_dropout : rate -> tensor -> generator -> tensor * generator.

(** [torch.nn.Dropout.forward] *)
Definition Dropout_forward (training : bool) (p : rate) (x : tensor)
    (g : generator) : tensor * generator :=
  if training then bernoulli_dropout p x g else (x, g).

Record Linear : Type := mk_Linear { weight : tensor; bias : tensor }.

Record LayerNorm : Type := mk_LayerNorm { gamma : tensor; beta : tensor }.

Record MultiHead_Attn : Type := mk_MultiHead_Attn {
  nh : nat;
  ed : nat;
  qd : nat;
  kd : nat;
  vd : nat;
  WQ : Linear;
  WK : Linear;
  WV : Linear;
  WO : Linear;
  attn_dropout : rate
}.

Record FeedForward : Type := mk_FeedForward {
  FF_in : Linear;
  FF_out : Linear;
  ff_dropout : rate
}.

Record Decoder : Type := mk_Decoder {
  feedforward : FeedForward;
  multihead_attn : MultiHead_Attn;
  norm_att1 : LayerNorm;
  norm_att2 : LayerNorm;
  norm_ff : LayerNorm
}.

Definition apply_linear (l : Linear) (x : tensor) : tensor :=
  linear (weight l) (bias l) x.

Definition apply_norm (n : LayerNorm) (x : tensor) : tensor :=
  layer_norm (gamma n) (beta n) x.

Definition dim (t : tensor) (i : nat) : option nat := shape t !! i.

(** [MultiHead_Attn.forward] *)
Definition MultiHead_Attn_forward (training : bool) (self : MultiHead_Attn)
    (q k v : tensor) (msk : option tensor) (g : generator)
  : result (tensor * generator) :=
  let msk := unsqueeze_1 <$> msk in
  match dim q 0, dim q 1, dim k 1, dim v 1, dim q 2, dim k 2, dim v 2 with
  | Some bs, Some slq, Some slk, Some slv, Some q2, Some k2, Some v2 =>
      if negb ((ed self =? q2) && (q2 =? k2) && (k2 =? v2))
      then Raise AssertionError
      else if negb (slk =? slv) then Raise AssertionError
      else
        let Q := split_heads (nh self) (qd self) (apply_linear (WQ self) q) in
        let K := split_heads (nh self) (kd self) (apply_linear (WK self) k) in
        let V := split_heads (nh self) (vd self) (apply_linear (WV self) v) in
        let s := div_sqrt (kd self) (matmul Q (transpose_2_3 K)) in
        let s := match msk with
                 | Some msk => masked_fill_neg_1e9 msk s
                 | None => s
                 end in
        let w := softmax_last s in
        let z := matmul w V in
        let z := merge_heads z in
        let z := apply_linear (WO self) z in
        Ok (Dropout_forward training (attn_dropout self) z g)
  | _, _, _, _, _, _, _ => Raise IndexError
  end.

(** [FeedForward.forward] *)
Definition FeedForward_forward (training : bool) (self : FeedForward)
    (x : tensor) (g : generator) : tensor * generator :=
  let tmp := apply_linear (FF_in self) x in
  let tmp := relu tmp in
  let '(tmp, g) := Dropout_forward training (ff_dropout self) tmp g in
  let tmp := apply_linear (FF_out self) tmp in
  Dropout_forward training (ff_dropout self) tmp g.

(** [Decoder.forward] *)
Definition Decoder_forward (training : bool) (self : Decoder)
    (z_src tgt msk_src msk_tgt : tensor) (g : generator)
  : result (tensor * generator) :=
  let tgt_norm := apply_norm (norm_att1 self) tgt in
  '(a, g) ← MultiHead_Attn_forward training (multihead_attn self)
              tgt_norm tgt_norm tgt_norm (Some msk_tgt) g;
  let tmp := add a tgt in
  let tmp_norm := apply_norm (norm_att2 self) tmp in
  '(c, g) ← MultiHead_Attn_forward training (multihead_attn self)
              tmp_norm z_src z_src (Some msk_src) g;
  let tmp := add c tmp in
  let tmp_norm := apply_norm (norm_ff self) tmp in
  let '(f, g) := FeedForward_forward training (feedforward self) tmp_norm g in
  Ok (add f tmp, g).

(** [named_parameters()] of a decoder layer: the parameters of the
    sub-modules in the order of their registration, each under the name of
    the attributes that lead to it.  A [torch.nn.Dropout] has none. *)
Definition Linear_parameters (name : string) (l : Linear)
  : list (string * tensor) :=
  [((name ++ ".weight")%string, weight l); ((name ++ ".bias")%string, bias l)].

Definition LayerNorm_parameters (name : string) (n : LayerNorm)
  : list (string * tensor) :=
  [((name ++ ".weight")%string, gamma n); ((name ++ ".bias")%string, beta n)].

Definition FeedForward_parameters (name : string) (f : FeedForward)
  : list (string * tensor) :=
  Linear_parameters (name ++ ".FF_in") (FF_in f) ++
  Linear_parameters (name ++ ".FF_out") (FF_out f).

Definition MultiHead_Attn_parameters (name : string) (a : MultiHead_Attn)
  : list (string * tensor) :=
  Linear_parameters (name ++ ".WQ") (WQ a) ++
  Linear_parameters (name ++ ".WK") (WK a) ++
  Linear_parameters (name ++ ".WV") (WV a) ++
  Linear_parameters (name ++ ".WO") (WO a).

(** The sub-modules that [Decoder.__init__] registers, by attribute name,
    in the order of the assignments. *)
Inductive child : Type :=
| ChildFeedForward (m : FeedForward)
| ChildAttn (m : MultiHead_Attn)
| ChildNorm (m : LayerNorm).

Definition named_children (self : Decoder) : list (string * child) :=
  [("feedforward", ChildFeedForward (feedforward self));
   ("multihead_attn", ChildAttn (multihead_attn self));
   ("norm_att1", ChildNorm (norm_att1 self));
   ("norm_att2", ChildNorm (norm_att2 self));
   ("norm_ff", ChildNorm (norm_ff self))].

Definition child_parameters (c : string * child) : list (string * tensor) :=
  match c.2 with
  | ChildFeedForward f => FeedForward_parameters c.1 f
  | ChildAttn a => MultiHead_Attn_parameters c.1 a
  | ChildNorm n => LayerNorm_parameters c.1 n
  end.

Definition named_parameters (self : Decoder) : list (string * tensor) :=
  concat (child_parameters <$> named_children self).

(** The parameters of the sub-modules that are attention modules. *)
Definition is_attention (c : string * child) : bool :=
  match c.2 with
  | ChildAttn _ => true
  | _ => false
  end.

Definition attention_parameters (self : Decoder) : list (string * tensor) :=
  concat (child_parameters <$> List.filter is_attention (named_children self)).

(** Masked multi-head attention written out over its eight projection
    tensors: the weight and the bias of the projections of the queries,
    of the keys, of the values and of the output. *)
Definition projected_attention (training : bool)
    (heads q_dim k_dim v_dim : nat) (p : rate)
    (wq bq wk bk wv bv wo bo : tensor)
    (q k v msk : tensor) (g : generator) : tensor * generator :=
  let Q := split_heads heads q_dim (linear wq bq q) in
  let K := split_heads heads k_dim (linear wk bk k) in
  let V := split_heads heads v_dim (linear wv bv v) in
  let scores :=
    masked_fill_neg_1e9 (unsqueeze_1 msk)
                        (div_sqrt k_dim (matmul Q (transpose_2_3 K))) in
  let z := linear wo bo (merge_heads (matmul (softmax_last scores) V)) in
  Dropout_forward training p z g.

Lemma MultiHead_Attn_forward_Ok (training : bool) (self : MultiHead_Attn)
    (q k v msk : tensor) (g : generator) (r : tensor * generator) :
  MultiHead_Attn_forward training self q k v (Some msk) g = Ok r ->
  r = projected_attention training (nh self) (qd self) (kd self) (vd self)
        (attn_dropout self)
        (weight (WQ self)) (bias (WQ self)) (weight (WK self)) (bias (WK self))
        (weight (WV self)) (bias (WV self)) (weight (WO self)) (bias (WO self))
        q k v msk g.
Proof.
  unfold MultiHead_Attn_forward.
  destruct (dim q 0), (dim q 1), (dim k 1), (dim v 1), (dim q 2), (dim k 2),
    (dim v 2); try done.
  destruct (negb _); [done|]. destruct (negb _); [done|].
  intros H. by injection H as <-.
Qed.

(** C9: in every run of [Decoder.forward] that returns, the self-attention
    and the cross-attention are both computed with the eight projection
    tensors of the one module [multihead_attn]: the weights and biases of
    its [WQ], [WK], [WV] and [WO].  The first call attends from the
    normalised target to itself under the target mask, the second from the
    normalised intermediate result to the encoder output under the source
    mask, with the state of the generator that the first call leaves.  The
    layer registers these eight tensors as its only attention parameters,
    among eighteen parameters in all. *)
Theorem decoder_shares_attention (training : bool) (self : Decoder)
    (z_src tgt msk_src msk_tgt : tensor) (g g' : generator) (out : tensor) :
  Decoder_forward training self z_src tgt msk_src msk_tgt g = Ok (out, g') ->
  let a := multihead_attn self in
  let attention :=
    projected_attention training (nh a) (qd a) (kd a) (vd a) (attn_dropout a)
      (weight (WQ a)) (bias (WQ a)) (weight (WK a)) (bias (WK a))
      (weight (WV a)) (bias (WV a)) (weight (WO a)) (bias (WO a)) in
  (exists s g1 c g2 f g3,
     let x := layer_norm (gamma (norm_att1 self)) (beta (norm_att1 self)) tgt in
     attention x x x msk_tgt g = (s, g1) /\
     let y := layer_norm (gamma (norm_att2 self)) (beta (norm_att2 self))
                         (add s tgt) in
     attention y z_src z_src msk_src g1 = (c, g2) /\
     FeedForward_forward training (feedforward self)
       (layer_norm (gamma (norm_ff self)) (beta (norm_ff self))
                   (add c (add s tgt))) g2 = (f, g3) /\
     out = add f (add c (add s tgt)) /\ g' = g3) /\
  attention_parameters self =
    [("multihead_attn.WQ.weight", weight (WQ a));
     ("multihead_attn.WQ.bias", bias (WQ a));
     ("multihead_attn.WK.weight", weight (WK a));
     ("multihead_attn.WK.bias", bias (WK a));
     ("multihead_attn.WV.weight", weight (WV a));
     ("multihead_attn.WV.bias", bias (WV a));
     ("multihead_attn.WO.weight", weight (WO a));
     ("multihead_attn.WO.bias", bias (WO a))] /\
  length (named_parameters self) = 18.
Proof.
  intros H a attention. split; [|split; reflexivity].
  unfold Decoder_forward in H.
  destruct (MultiHead_Attn_forward training (multihead_attn self) _ _ _
              (Some msk_tgt) g) as [[s g1]|] eqn:Hself; [|done].
  cbn [mbind result_bind] in H.
  destruct (MultiHead_Attn_forward training (multihead_attn self) _ _ _
              (Some msk_src) g1) as [[c g2]|] eqn:Hcross; [|done].
  cbn [mbind result_bind] in H.
  destruct (FeedForward_forward training (feedforward self) _ g2)
    as [f g3] eqn:Hff.
  apply MultiHead_Attn_forward_Ok in Hself, Hcross.
  exists s, g1, c, g2, f, g3. cbv zeta.
  split; [by rewrite Hself|]. split; [by rewrite Hcross|].
  split; [exact Hff|]. split; congruence.
Qed.

End WithTensors.

(** A toy instance of the kernels runs the definitions: integers for
    tensors, every shape [[1; 1; 1]], a linear map [w * x + b], and a
    dropout that keeps its input at the even states of the generator and
    zeroes it at the odd ones. *)
Definition toy_linear (w b x : Z) : Z := (w * x + b)%Z.

Definition toy_masked_fill (m s : Z) : Z :=
  if (m =? 0)%Z then (-1000000000)%Z else s.

Definition toy_dropout (p x : Z) (g : nat) : Z * nat :=
  (if Nat.even g then x else 0%Z, S g).

Definition toy_attention (training : bool) (wq : Z) (q k v : Z) (g : nat)
  : Z * nat :=
  projected_attention Z toy_linear (fun _ _ x => x) (fun x => x) (fun x => x)
    Z.mul (fun _ x => x) (fun x => x) toy_masked_fill (fun x => x)
    Z nat toy_dropout
    training 1 1 1 1 0%Z wq 0%Z 1%Z 0%Z 1%Z 0%Z 1%Z 0%Z q k v 1%Z g.

Definition toy_attn (wq : Z) : MultiHead_Attn Z Z :=
  mk_MultiHead_Attn Z Z 1 1 1 1 1
    (mk_Linear Z wq 0%Z) (mk_Linear Z 1%Z 0%Z) (mk_Linear Z 1%Z 0%Z)
    (mk_Linear Z 1%Z 0%Z) 0%Z.

Definition toy_decoder (wq : Z) : Decoder Z Z :=
  mk_Decoder Z Z
    (mk_FeedForward Z Z (mk_Linear Z 1%Z 0%Z) (mk_Linear Z 1%Z 0%Z) 0%Z)
    (toy_attn wq)
    (mk_LayerNorm Z 1%Z 0%Z) (mk_LayerNorm Z 1%Z 0%Z) (mk_LayerNorm Z 1%Z 0%Z).

Definition toy_feedforward (training : bool) (x : Z) (g : nat) : Z * nat :=
  FeedForward_forward Z toy_linear (Z.max 0) Z nat toy_dropout
    training (feedforward Z Z (toy_decoder 1)) x g.

Definition toy_forward (training : bool) (self : Decoder Z Z)
    (z_src tgt : Z) (g : nat) : result (Z * nat) :=
  Decoder_forward Z (fun _ => [1; 1; 1]) toy_linear toy_linear
    (fun _ _ x => x) (fun x => x) (fun x => x) Z.mul (fun _ x => x)
    (fun x => x) toy_masked_fill (fun x => x) (Z.max 0) Z.add
    Z nat toy_dropout
    training self z_src tgt 1%Z 1%Z g.

(** The weight of the query projection enters both attention calls: in
    evaluation mode the output is a polynomial of degree two in it. *)
Example toy_forward_eval :
  toy_forward false (toy_decoder 1) 3 2 0 = Ok (200%Z, 0) /\
  toy_forward false (toy_decoder 2) 3 2 0 = Ok (684%Z, 0).
Proof. split; vm_compute; reflexivity. Qed.

(** In training mode on the toy instance: the self-attention draws at
    state 0 and is kept, the cross-attention draws at state 1 and is
    zeroed, the feed-forward block draws at states 2 and 3. *)
Lemma decoder_shares_attention_witness :
  exists s g1 c g2 f g3,
    toy_attention true 2 2 2 2 0 = (s, g1) /\
    toy_attention true 2 (s + 2) 3 3 g1 = (c, g2) /\
    toy_feedforward true (c + (s + 2)) g2 = (f, g3) /\
    18%Z = (f + (c + (s + 2)))%Z /\ 4 = g3.
Proof.
  assert (H : toy_forward true (toy_decoder 2) 3 2 0 = Ok (18%Z, 4))
    by (vm_compute; reflexivity).
  destruct (decoder_shares_attention Z (fun _ => [1; 1; 1]) toy_linear
              toy_linear (fun _ _ x => x) (fun x => x) (fun x => x) Z.mul
              (fun _ x => x) (fun x => x) toy_masked_fill (fun x => x)
              (Z.max 0) Z.add Z nat toy_dropout
              true (toy_decoder 2) 3%Z 2%Z 1%Z 1%Z 0 4 18%Z H)
    as ((s & g1 & c & g2 & f & g3 & H1 & H2 & H3 & Hout & Hg) & _).
  exists s, g1, c, g2, f, g3.
  split; [exact H1|]. split; [|split; [|split; [exact Hout|exact Hg]]].
  - etrans; [|exact H2]. unfold toy_attention. f_equal.
    unfold toy_linear. cbn. lia.
  - etrans; [|exact H3]. unfold toy_feedforward. f_equal.
    unfold toy_linear. cbn. lia.
Defined.

End Network.

(** ** More on Vocab.build: which tokens are printed *)

Module BuildFacts.

Import Build.

Lemma add_key_NoDup (keys : list string) (tok : string) :
  NoDup keys -> NoDup (Build.add_key keys tok).
Proof.
  intros Hk. unfold Build.add_key. destruct (decide (tok ∈ keys)); [done|].
  apply NoDup_app. repeat split; [done| |apply NoDup_singleton].
  intros x Hx ->%list_elem_of_singleton. done.
Qed.

Lemma fold_add_key_NoDup (toks keys : list string) :
  NoDup keys -> NoDup (fold_left Build.add_key toks keys).
Proof.
  revert keys. induction toks as [|t toks IH]; intros keys Hk; cbn; [done|].
  by apply IH, add_key_NoDup.
Qed.

Lemma fold_add_key_elem_of (toks keys : list string) (x : string) :
  x ∈ fold_left Build.add_key toks keys <-> x ∈ keys \/ x ∈ toks.
Proof.
  revert keys. induction toks as [|t toks IH]; intros keys; cbn.
  - rewrite elem_of_nil. tauto.
  - rewrite IH, elem_of_cons. unfold Build.add_key.
    destruct (decide (t ∈ keys)) as [Hin|Hin].
    + split; [tauto|]. intros [?|[->|?]]; tauto.
    + rewrite elem_of_app, list_elem_of_singleton. tauto.
Qed.

Lemma fold_add_key_fresh (toks keys : list string) :
  NoDup (keys ++ toks) -> fold_left add_key toks keys = keys ++ toks.
Proof.
  revert keys. induction toks as [|t toks IH]; intros keys Hnd; cbn.
  - by rewrite app_nil_r.
  - assert (Ht : t ∉ keys).
    { apply NoDup_app in Hnd as (_ & Hdisj & _). intros Hin.
      apply (Hdisj t Hin). apply list_elem_of_here. }
    unfold add_key at 2. rewrite decide_False by done.
    rewrite IH; [by rewrite <- app_assoc|]. by rewrite <- app_assoc.
Qed.

(** The counts that the reading loop builds: distinct keys, positive
    frequencies. *)
Definition counts_wf (d : list (string * nat)) : Prop :=
  NoDup (map fst d) /\ Forall (fun p => 0 < snd p) d.

Lemma incr_wf (tok : string) (d : list (string * nat)) :
  counts_wf d -> counts_wf (incr tok d).
Proof.
  intros [Hnd Hpos]. split.
  - rewrite keys_incr. by apply add_key_NoDup.
  - clear Hnd. induction d as [|[t n] r IH]; cbn.
    + repeat constructor.
    + inversion Hpos as [|? ? Hn Hr]; subst.
      destruct (String.eqb t tok); constructor; cbn in *; auto with lia.
Qed.

Lemma count_tokens_wf (tokenize : string -> list string) (stdin : list string) :
  counts_wf (count_tokens tokenize stdin).
Proof.
  unfold count_tokens.
  assert (H : forall d, counts_wf d ->
                        counts_wf (fold_left (count_line tokenize) stdin d)).
  { induction stdin as [|l stdin IH]; intros d Hd; cbn; [done|].
    apply IH. unfold count_line.
    generalize (tokenize (strip_by blank_or_lf l)). intros toks.
    revert d Hd. induction toks as [|t toks IHt]; intros d Hd; cbn; [done|].
    by apply IHt, incr_wf. }
  apply H. split; constructor.
Qed.

Lemma frq_of_elem_of (d : list (string * nat)) (tok : string) (n : nat) :
  counts_wf d -> (tok, n) ∈ d <-> frq_of tok d = n /\ 0 < n.
Proof.
  intros [Hnd Hpos]. induction d as [|[t m] r IH]; cbn.
  - rewrite elem_of_nil. split; [done|]. intros [<- ?]. lia.
  - cbn in Hnd. apply NoDup_cons in Hnd as [Ht Hnd].
    inversion Hpos as [|? ? Hm Hr]; subst. cbn in Hm.
    rewrite elem_of_cons, (IH Hnd Hr).
    destruct (String.eqb_spec t tok) as [->|Hne].
    + split.
      * intros [[= ->]|[Hf Hn]]; [done|].
        exfalso. apply Ht. apply list_elem_of_fmap.
        exists (tok, n). split; [done|]. by apply (IH Hnd Hr).
      * intros [-> ?]. by left.
    + split.
      * intros [[= -> ->]|?]; done.
      * intros ?. by right.
Qed.

(** A list of candidates by descending frequency: the candidates up to
    the first one below [min_freq] are the candidates not below it. *)
Lemma eligible_filter (min_freq : Z) (items : list (string * nat)) :
  StronglySorted (fun a b => snd b <= snd a) items ->
  eligible min_freq items =
  List.filter (fun p => negb (Z.of_nat (snd p) <? min_freq)%Z) items.
Proof.
  induction 1 as [|[t n] r Hr IH Hle]; cbn; [done|].
  destruct (Z.ltb_spec (Z.of_nat n) min_freq) as [Hlt|Hge]; cbn.
  - clear IH Hr. induction Hle as [|[t' n'] r' Hn' _ IH']; cbn; [done|].
    cbn in Hn'.
    replace (Z.of_nat n' <? min_freq)%Z with true
      by (symmetry; apply Z.ltb_lt; lia).
    exact IH'.
  - by rewrite IH.
Qed.

Lemma emit_prefix (min_freq max_size n : Z) (items : list (string * nat)) :
  exists k, emit min_freq max_size n items =
            take k (map fst (eligible min_freq items)).
Proof.
  destruct (Z.le_gt_cases n max_size) as [Hle|Hgt].
  - exists (Z.to_nat (max_size - n)).
    rewrite emit_bounded by done. by rewrite <- fmap_take.
  - exists (length (map fst (eligible min_freq items))).
    rewrite emit_unbounded by lia. by rewrite firstn_all.
Qed.

Lemma build_tokens (tokenize : string -> list string) (stdin : list string)
    (min_freq max_size : Z) :
  drop 5 (build tokenize stdin min_freq max_size) =
  emit min_freq max_size 5
       (sorted_by by_frq_desc (count_tokens tokenize stdin)).
Proof. reflexivity. Qed.

Lemma eligible_elem_of (tokenize : string -> list string) (stdin : list string)
    (min_freq : Z) (tok : string) :
  tok ∈ map fst (eligible min_freq
                   (sorted_by by_frq_desc (count_tokens tokenize stdin))) <->
  let n := count_occ string_dec (all_tokens tokenize stdin) tok in
  0 < n /\ (min_freq <= Z.of_nat n)%Z.
Proof.
  cbv zeta. rewrite <- frq_of_count_tokens.
  rewrite eligible_filter by apply by_frq_desc_sorted.
  rewrite list_elem_of_fmap. split.
  - intros ([t n] & -> & Hin). cbn.
    apply list_elem_of_In, filter_In in Hin as [Hin Hge]. cbn in Hge.
    apply sorted_by_In, list_elem_of_In in Hin.
    apply frq_of_elem_of in Hin as [-> Hpos]; [|apply count_tokens_wf].
    split; [done|]. apply negb_true_iff, Z.ltb_ge in Hge. done.
  - intros [Hpos Hge].
    exists (tok, frq_of tok (count_tokens tokenize stdin)). split; [done|].
    apply list_elem_of_In, filter_In. split.
    + apply sorted_by_In, list_elem_of_In, frq_of_elem_of;
        [apply count_tokens_wf|done].
    + cbn. apply negb_true_iff, Z.ltb_ge. done.
Qed.

Lemma eligible_keys_NoDup (tokenize : string -> list string)
    (stdin : list string) (min_freq : Z) :
  NoDup (map fst (eligible min_freq
                    (sorted_by by_frq_desc (count_tokens tokenize stdin)))).
Proof.
  rewrite eligible_filter by apply by_frq_desc_sorted.
  destruct (count_tokens_wf tokenize stdin) as [Hnd _].
  set (d := count_tokens tokenize stdin) in *.
  assert (Hs : NoDup (map fst (sorted_by by_frq_desc d))).
  { by rewrite (sorted_by_perm by_frq_desc d). }
  clearbody d. induction (sorted_by by_frq_desc d) as [|[t n] r IH]; cbn.
  - constructor.
  - cbn in Hs. apply NoDup_cons in Hs as [Ht Hr].
    destruct (negb _); cbn; [|by apply IH].
    apply NoDup_cons. split; [|by apply IH].
    intros Hin. apply Ht. apply list_elem_of_fmap in Hin as (p & -> & Hp).
    apply list_elem_of_In, filter_In in Hp as [Hp _].
    apply list_elem_of_fmap. exists p. split; [done|]. by apply list_elem_of_In.
Qed.

(** X1: With [max_size = 0] the vocabulary is complete: a token is printed
    after the reserved symbols exactly when it occurs in the input and its
    number of occurrences is not below [min_freq]. *)
Theorem build_complete (tokenize : string -> list string) (stdin : list string)
    (min_freq : Z) (tok : string) :
  tok ∈ drop 5 (build tokenize stdin min_freq 0) <->
  0 < count_occ string_dec (all_tokens tokenize stdin) tok /\
  (min_freq <= Z.of_nat (count_occ string_dec (all_tokens tokenize stdin) tok))%Z.
Proof.
  rewrite build_tokens, emit_unbounded by lia. apply eligible_elem_of.
Qed.

Lemma reserved_NoDup : NoDup reserved.
Proof. apply (bool_decide_unpack _). vm_compute. exact I. Qed.

Lemma build_tokens_sound (tokenize : string -> list string) (stdin : list string)
    (min_freq max_size : Z) :
  NoDup (drop 5 (build tokenize stdin min_freq max_size)) /\
  forall tok, tok ∈ drop 5 (build tokenize stdin min_freq max_size) ->
    0 < count_occ string_dec (all_tokens tokenize stdin) tok /\
    (min_freq <= Z.of_nat (count_occ string_dec (all_tokens tokenize stdin) tok))%Z.
Proof.
  rewrite build_tokens.
  destruct (emit_prefix min_freq max_size 5
              (sorted_by by_frq_desc (count_tokens tokenize stdin))) as [k ->].
  split.
  - pose proof (eligible_keys_NoDup tokenize stdin min_freq) as Hnd.
    rewrite <- (take_drop k) in Hnd. by apply NoDup_app in Hnd as [? _].
  - intros tok Hin. apply eligible_elem_of.
    eapply subseteq_take, Hin.
Qed.

(** X2: Whatever [min_freq] and [max_size], no token is printed twice, and a
    printed token occurs in the input at least [min_freq] times. *)
Theorem build_sound (tokenize : string -> list string) (stdin : list string)
    (min_freq max_size : Z) :
  NoDup (drop 5 (build tokenize stdin min_freq max_size)) /\
  forall tok, tok ∈ drop 5 (build tokenize stdin min_freq max_size) ->
    0 < count_occ string_dec (all_tokens tokenize stdin) tok /\
    (min_freq <= Z.of_nat (count_occ string_dec (all_tokens tokenize stdin) tok))%Z.
Proof. exact (build_tokens_sound tokenize stdin min_freq max_size). Qed.

Lemma build_sound_witness :
  NoDup (drop 5 (build space_tokenize sample_stdin 2 7)) /\
  0 < count_occ string_dec (all_tokens space_tokenize sample_stdin) "b".
Proof.
  destruct (build_sound space_tokenize sample_stdin 2 7) as [Hnd Hin].
  split; [exact Hnd|].
  apply (Hin "b"). vm_compute.
  apply list_elem_of_further, list_elem_of_here.
Defined.

(** X3: A [max_size] of at least 5 bounds the length of the output. *)
Theorem build_length (tokenize : string -> list string) (stdin : list string)
    (min_freq max_size : Z) :
  (5 <= max_size)%Z ->
  5 <= length (build tokenize stdin min_freq max_size) /\
  (Z.of_nat (length (build tokenize stdin min_freq max_size)) <= max_size)%Z.
Proof.
  intros Hmax. unfold build. rewrite length_app, emit_bounded by done.
  rewrite length_fmap, length_take. cbn. lia.
Qed.

Lemma build_length_witness :
  (Z.of_nat (length (build space_tokenize sample_stdin 1 7)) <= 7)%Z.
Proof. apply (build_length space_tokenize sample_stdin 1 7). lia. Defined.

End BuildFacts.

(** ** More on Vocab: what a vocabulary read from a file holds *)

Module VocabFacts.

Import Vocab.

(** The test of [read] on a stripped line: no blank inside, not empty. *)
Definition valid_entry (tok : string) : bool :=
  negb (has_blank tok || (String.length tok =? 0)).

(** The entries of a vocabulary file, as [read] takes them: the stripped
    lines that pass the test, each at its first occurrence. *)
Definition entries (lines : list string) : list string :=
  Build.first_seen (List.filter valid_entry (map rstrip lines)).

Lemma contains_str_elem_of (v : t) (tok : string) :
  consistent v -> contains_str v tok = true <-> tok ∈ idx_to_tok v.
Proof.
  intros [_ Hbij]. unfold contains_str. rewrite bool_decide_eq_true.
  rewrite list_elem_of_lookup. split.
  - intros [i Hi]. exists i. by apply Hbij.
  - intros [i Hi]. exists i. by apply Hbij.
Qed.

Lemma read_line_keys (v : t) (l : string) :
  consistent v ->
  idx_to_tok (read_line v l) =
  if valid_entry (rstrip l) then Build.add_key (idx_to_tok v) (rstrip l)
  else idx_to_tok v.
Proof.
  intros Hv. unfold read_line, valid_entry, Build.add_key.
  destruct (contains_str v (rstrip l)) eqn:Hc.
  - apply contains_str_elem_of in Hc; [|done].
    rewrite decide_True by done. by destruct (negb _).
  - assert (Hnot : rstrip l ∉ idx_to_tok v).
    { intros Hin. apply contains_str_elem_of in Hin; [|done]. congruence. }
    rewrite decide_False by done.
    by destruct (has_blank (rstrip l) || (String.length (rstrip l) =? 0)).
Qed.

Lemma fold_read_line_keys (lines : list string) (v : t) :
  consistent v ->
  idx_to_tok (fold_left read_line lines v) =
  fold_left Build.add_key (List.filter valid_entry (map rstrip lines))
            (idx_to_tok v).
Proof.
  revert v. induction lines as [|l lines IH]; intros v Hv; cbn; [done|].
  rewrite IH by (by apply consistent_read_line).
  rewrite read_line_keys by done.
  by destruct (valid_entry (rstrip l)).
Qed.

Lemma read_ok (fs : textfs) (file : string) (v : t) :
  read fs file empty = Ok v ->
  exists lines,
    fs !! file = Some lines /\ v = fold_left read_line lines empty /\
    idx_to_tok v !! 0 = Some str_pad /\ idx_to_tok v !! 1 = Some str_unk /\
    idx_to_tok v !! 2 = Some str_bos /\ idx_to_tok v !! 3 = Some str_eos /\
    idx_to_tok v !! 4 = Some str_sep.
Proof.
  unfold read. destruct (fs !! file) as [lines|]; [|intros H; discriminate H].
  set (v' := fold_left read_line lines empty).
  unfold check_reserved, idx_pad, idx_unk, idx_bos, idx_eos, idx_sep.
  destruct (idx_to_tok v' !! 0) as [t0|] eqn:H0; [|done].
  destruct (String.eqb_spec t0 str_pad) as [->|]; [|done]. cbn.
  destruct (idx_to_tok v' !! 1) as [t1|] eqn:H1; [|done].
  destruct (String.eqb_spec t1 str_unk) as [->|]; [|done]. cbn.
  destruct (idx_to_tok v' !! 2) as [t2|] eqn:H2; [|done].
  destruct (String.eqb_spec t2 str_bos) as [->|]; [|done]. cbn.
  destruct (idx_to_tok v' !! 3) as [t3|] eqn:H3; [|done].
  destruct (String.eqb_spec t3 str_eos) as [->|]; [|done]. cbn.
  destruct (idx_to_tok v' !! 4) as [t4|] eqn:H4; [|done].
  destruct (String.eqb_spec t4 str_sep) as [->|]; [|done]. cbn.
  intros Hv. assert (v = v') as -> by congruence.
  exists lines. done.
Qed.

Lemma getitem_str_of_lookup (v : t) (i : nat) (tok : string) :
  consistent v -> idx_to_tok v !! i = Some tok -> getitem_str v tok = i.
Proof.
  intros [_ Hbij] Hi. apply Hbij in Hi. unfold getitem_str, contains_str.
  rewrite bool_decide_eq_true_2 by (by eexists). cbn. by rewrite Hi.
Qed.

(** X4: The reserved symbols of a vocabulary read from a file: it has at least
    five entries, the first five are the reserved symbols in their order, and
    each reserved symbol is looked up to its reserved index. *)
Theorem read_reserved (fs : textfs) (file : string) (v : t) :
  init fs (Some file) = Ok v ->
  5 <= len v /\
  take 5 (idx_to_tok v) = Build.reserved /\
  getitem_str v str_pad = idx_pad /\
  getitem_str v str_unk = idx_unk /\
  getitem_str v str_bos = idx_bos /\
  getitem_str v str_eos = idx_eos /\
  getitem_str v str_sep = idx_sep.
Proof.
  intros Hinit. pose proof (init_consistent _ _ _ Hinit) as Hv.
  cbn in Hinit. apply read_ok in Hinit
    as (lines & _ & _ & H0 & H1 & H2 & H3 & H4).
  split; [apply lookup_lt_Some in H4; unfold len; lia|].
  split.
  { destruct (idx_to_tok v) as [|a0 [|a1 [|a2 [|a3 [|a4 r]]]]];
      simplify_eq/=; reflexivity. }
  repeat split; by apply getitem_str_of_lookup.
Qed.

Lemma read_reserved_witness :
  take 5 (idx_to_tok sample) = Build.reserved /\ getitem_str sample "<eos>" = 3.
Proof.
  assert (Hinit : init sample_fs (Some "vocab.txt") = Ok sample)
    by (vm_compute; reflexivity).
  destruct (read_reserved sample_fs "vocab.txt" sample Hinit)
    as (_ & Htake & _ & _ & _ & Heos & _).
  split; [exact Htake|exact Heos].
Defined.

(** X5: Index to string and back: in a vocabulary that [Vocab(file)] returns,
    every index from 0 to [len - 1] has a string, and that string is looked up
    to the same index; any other integer makes the index lookup exit. *)
Theorem index_roundtrip (fs : textfs) (file : option string) (v : t) (i : Z) :
  init fs file = Ok v ->
  ((0 <= i < Z.of_nat (len v))%Z ->
   exists tok, getitem_int v i = Ok tok /\ Z.of_nat (getitem_str v tok) = i) /\
  (~ (0 <= i < Z.of_nat (len v))%Z -> getitem_int v i = Raise SysExit).
Proof.
  intros Hinit. pose proof (init_consistent _ _ _ Hinit) as Hv. split.
  - intros Hi. unfold getitem_int, contains_int.
    replace ((0 <=? i)%Z && (i <? Z.of_nat (len v))%Z) with true
      by (symmetry; apply andb_true_iff; split;
          [apply Z.leb_le|apply Z.ltb_lt]; lia).
    cbn. destruct (lookup_lt_is_Some_2 (idx_to_tok v) (Z.to_nat i)) as [tok Ht].
    { unfold len in Hi. lia. }
    rewrite Ht. exists tok. split; [done|].
    rewrite (getitem_str_of_lookup v (Z.to_nat i) tok) by done. lia.
  - intros Hi. unfold getitem_int, contains_int.
    replace ((0 <=? i)%Z && (i <? Z.of_nat (len v))%Z) with false; [done|].
    symmetry. apply andb_false_iff.
    destruct (Z.leb_spec 0 i); [right; apply Z.ltb_ge; lia|by left].
Qed.

Lemma index_roundtrip_witness :
  (exists tok, getitem_int sample 6 = Ok tok /\
               Z.of_nat (getitem_str sample tok) = 6%Z) /\
  getitem_int sample 7 = Raise SysExit /\
  getitem_int sample (-1) = Raise SysExit.
Proof.
  assert (Hinit : init sample_fs (Some "vocab.txt") = Ok sample)
    by (vm_compute; reflexivity).
  assert (Hlen : len sample = 7) by (vm_compute; reflexivity).
  split; [|split].
  - apply (index_roundtrip sample_fs (Some "vocab.txt") sample 6 Hinit).
    rewrite Hlen. lia.
  - apply (index_roundtrip sample_fs (Some "vocab.txt") sample 7 Hinit).
    rewrite Hlen. lia.
  - apply (index_roundtrip sample_fs (Some "vocab.txt") sample (-1) Hinit).
    rewrite Hlen. lia.
Defined.

(** X6: What [read] keeps of a file: the stripped lines that hold no blank and
    are not empty, each at its first occurrence, in the order of the file; so
    the entries are distinct and the index of a token is its rank among
    them. *)
Theorem read_entries (fs : textfs) (file : string) (lines : list string) (v : t) :
  fs !! file = Some lines ->
  init fs (Some file) = Ok v ->
  idx_to_tok v = entries lines /\
  NoDup (idx_to_tok v) /\
  (forall tok, tok ∈ idx_to_tok v <->
               valid_entry tok = true /\ tok ∈ map rstrip lines) /\
  (forall tok i, entries lines !! i = Some tok -> getitem_str v tok = i).
Proof.
  intros Hfs Hinit. pose proof (init_consistent _ _ _ Hinit) as Hv.
  cbn in Hinit. apply read_ok in Hinit as (lines' & Hfs' & -> & _).
  assert (lines' = lines) as -> by congruence.
  assert (Hkeys : idx_to_tok (fold_left read_line lines empty) = entries lines).
  { rewrite fold_read_line_keys by apply consistent_empty. done. }
  split; [done|]. split; [|split].
  - rewrite Hkeys. apply BuildFacts.fold_add_key_NoDup, NoDup_nil_2.
  - intros tok. rewrite Hkeys. unfold entries, Build.first_seen.
    rewrite BuildFacts.fold_add_key_elem_of, elem_of_nil.
    rewrite list_elem_of_In, filter_In, <- list_elem_of_In. tauto.
  - intros tok i Hi. apply getitem_str_of_lookup; [done|]. by rewrite Hkeys.
Qed.

Lemma read_entries_witness :
  idx_to_tok sample = entries sample_lines /\
  entries sample_lines = ["<pad>"; "<unk>"; "<bos>"; "<eos>"; "<sep>"; "a"; "b"].
Proof.
  assert (Hinit : init sample_fs (Some "vocab.txt") = Ok sample)
    by (vm_compute; reflexivity).
  destruct (read_entries sample_fs "vocab.txt" sample_lines sample)
    as (Hk & _); [vm_compute; reflexivity|exact Hinit|].
  split; [exact Hk|vm_compute; reflexivity].
Defined.

(** X7: A file without a single valid entry is not refused by the checks of the
    reserved symbols: the first check reads [idx_to_tok[0]] of an empty list
    and raises [IndexError]. *)
Theorem read_no_entry (fs : textfs) (file : string) (lines : list string) :
  fs !! file = Some lines ->
  Forall (fun l => valid_entry (rstrip l) = false) lines ->
  init fs (Some file) = Raise IndexError.
Proof.
  intros Hfs Hbad. cbn. unfold read. rewrite Hfs.
  assert (Hnil : idx_to_tok (fold_left read_line lines empty) = []).
  { rewrite fold_read_line_keys by apply consistent_empty. cbn.
    replace (List.filter valid_entry (map rstrip lines)) with (@nil string);
      [done|].
    clear Hfs. induction Hbad as [|l ls Hl _ IH]; [done|].
    cbn [map List.filter]. rewrite Hl. exact IH. }
  unfold check_reserved. rewrite Hnil. reflexivity.
Qed.

Lemma read_no_entry_witness :
  init {[ "v" := [line ""; line "a b"; " "] ]} (Some "v") = Raise IndexError.
Proof.
  apply (read_no_entry _ "v" [line ""; line "a b"; " "]).
  - vm_compute. reflexivity.
  - repeat constructor.
Defined.

End VocabFacts.

(** ** Vocab.build, then Vocab.read: the printed vocabulary read back *)

Module VocabFile.

Import Vocab.

(** No line terminator inside a string: printed on a line of its own,
    it is read back as one line. *)
Fixpoint no_break (s : string) : bool :=
  match s with
  | EmptyString => true
  | String c r =>
      negb (Ascii.eqb c (ascii_of_nat 10)) &&
      negb (Ascii.eqb c (ascii_of_nat 13)) && no_break r
  end.

(** A token that survives the trip through a file: it holds no line
    terminator, [rstrip] leaves it as it is (it does not end with white
    space), and it passes the test of [read]. *)
Definition clean (tok : string) : bool :=
  String.eqb (rstrip tok) tok && VocabFacts.valid_entry tok && no_break tok.

Lemma rstrip_by_app (p : ascii -> bool) (s t : string) :
  rstrip_by p t = EmptyString -> rstrip_by p (s ++ t) = rstrip_by p s.
Proof.
  intros Ht. induction s as [|c s IH]; [done|].
  rewrite Checkpoint.string_app_cons. cbn. by rewrite IH.
Qed.

Lemma rstrip_line (tok : string) : rstrip (line tok) = rstrip tok.
Proof. unfold rstrip, line. by apply rstrip_by_app. Qed.

Lemma clean_lines (toks : list string) :
  Forall (fun tok => clean tok = true) toks ->
  List.filter VocabFacts.valid_entry (map rstrip (map line toks)) = toks.
Proof.
  induction 1 as [|tok toks Htok _ IH]; [done|].
  cbn [map List.filter]. rewrite rstrip_line.
  apply andb_true_iff in Htok as [Htok _].
  apply andb_true_iff in Htok as [Hr Hv]. apply String.eqb_eq in Hr.
  by rewrite Hr, Hv, IH.
Qed.

Lemma fold_add_key_prefix (toks keys : list string) :
  exists r, fold_left Build.add_key toks keys = keys ++ r.
Proof.
  revert keys. induction toks as [|t toks IH]; intros keys; cbn.
  - exists []. by rewrite app_nil_r.
  - unfold Build.add_key at 2. destruct (decide (t ∈ keys)); [apply IH|].
    destruct (IH (keys ++ [t])) as [r ->]. exists ([t] ++ r).
    by rewrite <- app_assoc.
Qed.

(** X8: The vocabulary that [build] prints, written to a file one entry per
    line and read back by [Vocab(file)]: when the tokens are clean (no
    token is empty, holds a blank or a line terminator, or ends with white
    space), the file is accepted and the entries are the printed lines in
    their order, a token that repeats a reserved symbol keeping the index of
    the symbol; when no token is a reserved symbol the entries are the printed
    lines. *)
Theorem build_then_read (tokenize : string -> list string) (stdin : list string)
    (min_freq max_size : Z) (fs : textfs) (file : string) :
  Forall (fun tok => clean tok = true) (Build.all_tokens tokenize stdin) ->
  fs !! file = Some (map line (Build.build tokenize stdin min_freq max_size)) ->
  exists v,
    init fs (Some file) = Ok v /\
    idx_to_tok v =
      Build.first_seen (Build.build tokenize stdin min_freq max_size) /\
    (Forall (fun tok => tok ∉ Build.reserved)
            (Build.all_tokens tokenize stdin) ->
     idx_to_tok v = Build.build tokenize stdin min_freq max_size).
Proof.
  intros Hclean Hfs.
  set (out := Build.build tokenize stdin min_freq max_size) in *.
  assert (Hout : out = Build.reserved ++ drop 5 out) by reflexivity.
  assert (Htoks : forall tok, tok ∈ drop 5 out ->
                              tok ∈ Build.all_tokens tokenize stdin).
  { intros tok Hin.
    destruct (BuildFacts.build_tokens_sound tokenize stdin min_freq max_size)
      as [_ Hs].
    destruct (Hs tok Hin) as [Hpos _].
    apply list_elem_of_In, (count_occ_In string_dec). lia. }
  assert (Hall : Forall (fun tok => clean tok = true) out).
  { rewrite Hout. apply Forall_app. split.
    - repeat constructor.
    - apply Forall_forall. intros tok Hin.
      rewrite Forall_forall in Hclean. by apply Hclean, Htoks. }
  set (v := fold_left read_line (map line out) empty).
  assert (Hkeys : idx_to_tok v = Build.first_seen out).
  { subst v. rewrite VocabFacts.fold_read_line_keys by apply consistent_empty.
    by rewrite clean_lines. }
  assert (Hpre : exists r, idx_to_tok v = Build.reserved ++ r).
  { rewrite Hkeys, Hout. unfold Build.first_seen.
    rewrite fold_left_app.
    change (fold_left Build.add_key Build.reserved []) with Build.reserved.
    apply fold_add_key_prefix. }
  destruct Hpre as [r Hr].
  exists v. split; [|split; [done|]].
  - cbn. unfold read. rewrite Hfs. fold v.
    unfold check_reserved. rewrite Hr. reflexivity.
  - intros Hres. rewrite Hkeys. unfold Build.first_seen.
    rewrite Hout at 1. rewrite fold_left_app.
    change (fold_left Build.add_key Build.reserved []) with Build.reserved.
    rewrite BuildFacts.fold_add_key_fresh; [by rewrite <- Hout|].
    apply NoDup_app. split; [|split].
    + apply BuildFacts.reserved_NoDup.
    + intros tok Hin Hin'. rewrite Forall_forall in Hres.
      by apply (Hres tok (Htoks tok Hin')).
    + apply (BuildFacts.build_tokens_sound tokenize stdin min_freq max_size).
Qed.

Lemma build_then_read_witness :
  exists v,
    init {[ "v" := map line (Build.build space_tokenize Build.sample_stdin 2 0) ]}
         (Some "v") = Ok v /\
    idx_to_tok v = ["<pad>"; "<unk>"; "<bos>"; "<eos>"; "<sep>"; "a"; "b"].
Proof.
  destruct (build_then_read space_tokenize Build.sample_stdin 2 0
              {[ "v" := map line (Build.build space_tokenize Build.sample_stdin 2 0) ]}
              "v") as (v & Hinit & _ & Hk).
  - apply (bool_decide_unpack _). vm_compute. exact I.
  - apply lookup_singleton_eq.
  - exists v. split; [exact Hinit|]. rewrite Hk; [vm_compute; reflexivity|].
    apply (bool_decide_unpack _). vm_compute. exact I.
Defined.

End VocabFile.

(** ** More on Dataset: errors, sizes and order of the batches *)

Module DatasetFacts.

Import Dataset.

Lemma src_fold_ntokens (tokenize : string -> list string) (vocab : Vocab.t)
    (lines : list string) (k : nat) (st : locals) :
  ntokens (fold_left (src_body tokenize vocab)
                     (combine (seq k (length lines)) lines) st) =
  ntokens st + length (concat (map (encode tokenize vocab) lines)).
Proof.
  revert k st. induction lines as [|l lines IH]; intros k st; cbn; [lia|].
  rewrite IH. cbn. rewrite length_app. lia.
Qed.

Lemma tgt_loop_overflow (tokenize : string -> list string) (vocab : Vocab.t)
    (lines : list string) (k : nat) (st : locals) :
  length (idata st) < k + length lines ->
  k <= length (idata st) ->
  tgt_loop tokenize vocab st (combine (seq k (length lines)) lines) =
  Raise SysExit.
Proof.
  revert k st. induction lines as [|l lines IH]; intros k st Hlt Hle; cbn.
  - cbn in Hlt. lia.
  - destruct (Nat.leb_spec (length (idata st)) k) as [Hk|Hk]; [done|].
    cbn. apply IH; cbn; rewrite length_alter; cbn in Hlt; lia.
Qed.

Lemma tgt_loop_fits (tokenize : string -> list string) (vocab : Vocab.t)
    (lines : list string) (k : nat) (st : locals) :
  k + length lines <= length (idata st) ->
  exists st',
    tgt_loop tokenize vocab st (combine (seq k (length lines)) lines) = Ok st'.
Proof.
  revert k st. induction lines as [|l lines IH]; intros k st Hle; cbn.
  - by exists st.
  - cbn in Hle.
    destruct (Nat.leb_spec (length (idata st)) k) as [Hk|Hk]; [lia|].
    cbn. apply IH. cbn. rewrite length_alter. lia.
Qed.

(** X9: Corpora of different lengths.  When the source file has been read and
    the target file has another number of lines, [Dataset] exits, unless the
    target file is empty: then the loop variable still holds the last source
    index, the test of the line counts passes, and the statistics line divides
    by zero. *)
Theorem corpora_mismatch (tokenize : string -> list string)
    (shuffle_rows : list row -> list row)
    (shuffle_batches : list batch -> list batch)
    (fs : textfs) (saved : pickles)
    (fvocab_src fvocab_tgt : option string) (ftxt_src ftxt_tgt : string)
    (shard_size batch_size : Z) (ofile : option string)
    (vs vt : Vocab.t) (src_lines tgt_lines : list string) :
  ofile ≫= (fun path => saved !! path) = None ->
  Vocab.init fs fvocab_src = Ok vs ->
  Vocab.init fs fvocab_tgt = Ok vt ->
  fs !! ftxt_src = Some src_lines ->
  fs !! ftxt_tgt = Some tgt_lines ->
  concat (map (encode tokenize vs) src_lines) <> [] ->
  length tgt_lines <> length src_lines ->
  init tokenize shuffle_rows shuffle_batches fs saved fvocab_src fvocab_tgt
       ftxt_src ftxt_tgt shard_size batch_size ofile =
  Raise (match tgt_lines with
         | [] => ZeroDivisionError
         | _ :: _ => SysExit
         end).
Proof.
  intros Hmiss Hvs Hvt Hsrc Htgt Htok Hlen.
  unfold init. rewrite Hmiss.
  enough (Hread : read_corpora tokenize fs fvocab_src fvocab_tgt ftxt_src ftxt_tgt
                  = Raise (match tgt_lines with
                           | [] => ZeroDivisionError
                           | _ :: _ => SysExit
                           end)) by (by rewrite Hread).
  unfold read_corpora, open_text, enumerate.
  rewrite Hvs. cbn [mbind result_bind]. rewrite Hsrc. cbn [mbind result_bind].
  set (st_s := fold_left _ _ _).
  destruct (src_fold tokenize vs src_lines 0 _ st_s eq_refl) as (_ & Hi & Hv).
  cbn [idata i_var app] in Hi, Hv.
  assert (Hnt : ntokens st_s = length (concat (map (encode tokenize vs) src_lines)))
    by (subst st_s; by rewrite src_fold_ntokens).
  assert (Hne : src_lines <> []) by (intros ->; by apply Htok).
  assert (HN : length (idata st_s) = length src_lines).
  { rewrite Hi, length_zip_with, length_seq. lia. }
  assert (Hvar : i_var st_s = Some (length src_lines - 1)).
  { rewrite Hv. by destruct src_lines. }
  assert (Hlog : log_read st_s = Ok tt).
  { unfold log_read. rewrite Hvar, Hnt.
    destruct (concat _) eqn:Hc; [done|]. reflexivity. }
  rewrite Hlog. cbn [mbind result_bind].
  rewrite Hvt. cbn [mbind result_bind]. rewrite Htgt. cbn [mbind result_bind].
  set (st0 := {| ldata := ldata st_s |}).
  destruct tgt_lines as [|l tgt_lines].
  - cbn [length seq combine tgt_loop mbind result_bind]. subst st0.
    cbn [i_var idata]. rewrite Hvar, HN.
    replace (Z.of_nat (length src_lines - 1) =? Z.of_nat (length src_lines) - 1)%Z
      with true.
    2:{ symmetry. apply Z.eqb_eq. destruct src_lines; [done|]. cbn. lia. }
    cbn [negb]. unfold log_read. cbn [i_var ntokens]. reflexivity.
  - destruct (decide (length src_lines < length (l :: tgt_lines))) as [Hgt|Hle].
    + rewrite tgt_loop_overflow; [done| |]; subst st0; cbn [idata]; lia.
    + destruct (tgt_loop_fits tokenize vt (l :: tgt_lines) 0 st0) as [st_t Hloop].
      { subst st0. cbn [idata]. lia. }
      rewrite Hloop. cbn [mbind result_bind].
      apply tgt_loop_spec in Hloop as (Hli & _ & _ & Hvt' & _).
      rewrite Hvt', Hli. subst st0. cbn [idata]. rewrite HN.
      replace (Z.of_nat (0 + length (l :: tgt_lines) - 1)
               =? Z.of_nat (length src_lines) - 1)%Z with false; [done|].
      symmetry. apply Z.eqb_neq. cbn [length] in *. lia.
Qed.

Definition sample_vocab : Vocab.t :=
  match Vocab.init sample_fs (Some "vocab") with
  | Ok v => v
  | Raise _ => Vocab.empty
  end.

Lemma corpora_mismatch_witness :
  init space_tokenize (fun l => l) (fun l => l) sample_fs ∅
       (Some "vocab") (Some "vocab") "src" "blank" 0 2 None = Raise SysExit /\
  init space_tokenize (fun l => l) (fun l => l) sample_fs ∅
       (Some "vocab") (Some "vocab") "src" "empty" 0 2 None
  = Raise ZeroDivisionError.
Proof.
  assert (Hv : Vocab.init sample_fs (Some "vocab") = Ok sample_vocab)
    by (vm_compute; reflexivity).
  split.
  - apply (corpora_mismatch space_tokenize (fun l => l) (fun l => l) sample_fs ∅
             (Some "vocab") (Some "vocab") "src" "blank" 0 2 None
             sample_vocab sample_vocab
             (map line ["a b"; "a"; "b b b a"]) (map line [""; ""]));
      try done; vm_compute; reflexivity.
  - apply (corpora_mismatch space_tokenize (fun l => l) (fun l => l) sample_fs ∅
             (Some "vocab") (Some "vocab") "src" "empty" 0 2 None
             sample_vocab sample_vocab
             (map line ["a b"; "a"; "b b b a"]) []);
      try done; vm_compute; reflexivity.
Defined.

(** *** Every line in one batch *)

Definition pos_of_row (r : row) : nat := r.1.1.
Definition pos_of_example (e : example) : nat := e.1.1.

Lemma collect_Forall2 {X Y : Type} (f : X -> result Y) (l : list X)
    (ys : list Y) :
  collect f l = Ok ys -> Forall2 (fun x y => f x = Ok y) l ys.
Proof.
  revert ys. induction l as [|x l IH]; intros ys; cbn.
  - intros [= <-]. constructor.
  - destruct (f x) as [y|] eqn:Hfx; cbn; [|done].
    destruct (collect f l) as [ys'|]; cbn; [|done].
    intros [= <-]. constructor; [done|]. by apply IH.
Qed.

Lemma build_example_pos (ldata : list (list (list nat)))
    (a b ms mt : nat) (r : row) (e : example) :
  build_example ldata a b ms mt r = Ok e -> pos_of_example e = pos_of_row r.
Proof.
  destruct r as [[pos sl] tl]. cbn.
  destruct (ldata !! pos) as [entry|]; [|done].
  destruct (entry !! 0), (entry !! 1); try done. by intros [= <-].
Qed.

Lemma build_batch_pos (g : list row) (ldata : list (list (list nat)))
    (a b : nat) (bt : batch) :
  build_batch g ldata a b = Ok bt ->
  map pos_of_example bt = map pos_of_row g /\ length bt = length g.
Proof.
  intros (ms & mt & _ & _ & Hcol)%build_batch_spec.
  apply collect_Forall2 in Hcol.
  induction Hcol as [|r e g bt Hre _ IH]; [done|].
  destruct IH as [IHp IHl]. cbn. rewrite IHp, IHl.
  by rewrite (build_example_pos _ _ _ _ _ _ _ Hre).
Qed.

Lemma concat_slices_from {X : Type} (fuel step : nat) (l : list X) :
  0 < step -> length l <= fuel -> concat (slices_from fuel step l) = l.
Proof.
  intros Hstep. revert l. induction fuel as [|fuel IH]; intros l Hlen; cbn.
  - destruct l; [done|cbn in Hlen; lia].
  - destruct l as [|x l]; [done|].
    cbn [concat]. rewrite IH; [apply take_drop|].
    rewrite length_drop. cbn in *. lia.
Qed.

Lemma concat_slices {X : Type} (step : Z) (l : list X) (gs : list (list X)) :
  (0 < step)%Z -> slices step l = Ok gs -> concat gs = l.
Proof.
  intros Hstep. unfold slices.
  destruct (Z.eqb_spec step 0); [lia|].
  destruct (Z.ltb_spec step 0); [lia|].
  intros [= <-]. apply concat_slices_from; lia.
Qed.

Lemma concat_sorted_perm {X : Type} (before : X -> X -> bool)
    (ls : list (list X)) :
  concat (map (sorted_by before) ls) ≡ₚ concat ls.
Proof.
  induction ls as [|l ls IH]; cbn; [done|].
  by rewrite sorted_by_perm, IH.
Qed.

Lemma collect_concat_pos (F : list row -> result (list batch))
    (shards : list (list row)) (bss : list (list batch)) :
  (forall shard bs, F shard = Ok bs ->
     map pos_of_example (concat bs) = map pos_of_row shard) ->
  collect F shards = Ok bss ->
  map pos_of_example (concat (concat bss)) = map pos_of_row (concat shards).
Proof.
  intros HF Hcol. apply collect_Forall2 in Hcol.
  induction Hcol as [|shard bs shards bss Hs _ IH]; [done|].
  cbn. rewrite concat_app, !map_app, IH. by rewrite (HF _ _ Hs).
Qed.

Lemma shard_batches_pos (ldata : list (list (list nat))) (batch_size : Z)
    (shard : list row) (bs : list batch) :
  (0 < batch_size)%Z ->
  (groups ← slices batch_size shard;
   collect (fun g => build_batch g ldata Vocab.idx_pad Vocab.idx_pad) groups)
  = Ok bs ->
  map pos_of_example (concat bs) = map pos_of_row shard.
Proof.
  intros Hb. destruct (slices batch_size shard) as [groups|] eqn:Hsl; cbn;
    [|done].
  intros Hcol. rewrite <- (concat_slices _ _ _ Hb Hsl).
  apply collect_Forall2 in Hcol. clear Hsl.
  induction Hcol as [|g bt groups bs Hg _ IH]; [done|].
  cbn. rewrite !map_app, IH.
  by destruct (build_batch_pos _ _ _ _ _ Hg) as [-> _].
Qed.

Lemma make_batches_pos (shuffle_rows : list row -> list row)
    (shuffle_batches : list batch -> list batch)
    (st : locals) (shard_size batch_size : Z) (batches : list batch) :
  (forall l, shuffle_rows l ≡ₚ l) ->
  (forall l, shuffle_batches l ≡ₚ l) ->
  (0 <= shard_size)%Z -> (0 < batch_size)%Z ->
  make_batches shuffle_rows shuffle_batches st shard_size batch_size = Ok batches ->
  exists rs, asarray (idata st) = Ok rs /\
             map pos_of_example (concat batches) ≡ₚ map pos_of_row rs.
Proof.
  intros Hrows Hbatches Hs Hb. unfold make_batches.
  destruct (asarray (idata st)) as [rs|]; cbn; [|done].
  set (size := if (shard_size =? 0)%Z then _ else _).
  destruct (slices size (shuffle_rows rs)) as [shards|] eqn:Hshards; cbn;
    [|done].
  destruct (collect _ _) as [bss|] eqn:Hbss; cbn; [|done].
  intros [= <-]. exists rs. split; [done|].
  rewrite Hbatches.
  rewrite (collect_concat_pos _ _ _ (fun shard bs H =>
             shard_batches_pos (ldata st) batch_size shard bs Hb H) Hbss).
  rewrite concat_sorted_perm.
  assert (Hsize : (0 < size)%Z).
  { unfold slices in Hshards. destruct (Z.eqb_spec size 0); [done|].
    subst size. destruct (shard_size =? 0)%Z; lia. }
  by rewrite (concat_slices _ _ _ Hsize Hshards), Hrows.
Qed.

Lemma rows_positions (tokenize : string -> list string) (vs vt : Vocab.t)
    (src_lines tgt_lines : list string) (st : locals) (rs : list row) :
  aligned tokenize vs vt src_lines tgt_lines st ->
  asarray (idata st) = Ok rs ->
  map pos_of_row rs = seq 0 (length src_lines).
Proof.
  intros (_ & Hlen & Hal) Hrs%asarray_rows.
  apply list_eq. intros j.
  assert (Hl : length rs = length src_lines).
  { rewrite <- Hlen, Hrs. by rewrite length_map. }
  destruct (decide (j < length src_lines)) as [Hj|Hj].
  - rewrite lookup_seq_lt by done.
    destruct (lookup_lt_is_Some_2 rs j ltac:(lia)) as [r Hr].
    change (map pos_of_row rs) with (pos_of_row <$> rs).
    rewrite list_lookup_fmap, Hr. cbn. f_equal.
    assert (Hrow : idata st !! j = Some (row_list r)).
    { rewrite Hrs. change (map row_list rs) with (row_list <$> rs).
      by rewrite list_lookup_fmap, Hr. }
    destruct (Hal j _ Hrow) as (ls & lt & _ & _ & _ & Heq).
    destruct r as [[p a] b]. cbn in Heq. by injection Heq as -> _ _.
  - rewrite lookup_seq_ge by lia. apply lookup_ge_None.
    rewrite length_map. lia.
Qed.

(** X10: The batches share out the corpus: with a positive batch size and a
    non-negative shard size, every line position from 0 to [N - 1] is in
    exactly one batch, once. *)
Theorem batches_partition (tokenize : string -> list string)
    (shuffle_rows : list row -> list row)
    (shuffle_batches : list batch -> list batch)
    (fs : textfs) (saved saved' : pickles)
    (fvocab_src fvocab_tgt : option string) (ftxt_src ftxt_tgt : string)
    (shard_size batch_size : Z) (ofile : option string) (batches : list batch)
    (src_lines : list string) :
  (forall l, shuffle_rows l ≡ₚ l) ->
  (forall l, shuffle_batches l ≡ₚ l) ->
  (0 <= shard_size)%Z -> (0 < batch_size)%Z ->
  ofile ≫= (fun path => saved !! path) = None ->
  fs !! ftxt_src = Some src_lines ->
  init tokenize shuffle_rows shuffle_batches fs saved fvocab_src fvocab_tgt
       ftxt_src ftxt_tgt shard_size batch_size ofile = Ok (batches, saved') ->
  map pos_of_example (concat batches) ≡ₚ seq 0 (length src_lines).
Proof.
  intros Hrows Hbatches Hs Hb Hmiss Hsrc. unfold init. rewrite Hmiss.
  destruct (read_corpora _ _ _ _ _ _) as [st|] eqn:Hread; cbn; [|done].
  destruct (make_batches _ _ _ _ _) as [bs|] eqn:Hmake; cbn; [|done].
  intros Hres. assert (bs = batches) as -> by (destruct ofile; congruence).
  destruct (read_corpora_aligned _ _ _ _ _ _ _ Hread)
    as (vs & vt & src_lines' & tgt_lines & _ & _ & Hsrc' & _ & Hal).
  assert (src_lines' = src_lines) as -> by congruence.
  destruct (make_batches_pos _ _ _ _ _ _ Hrows Hbatches Hs Hb Hmake)
    as (rs & Hrs & Hperm).
  rewrite Hperm. by rewrite (rows_positions _ _ _ _ _ _ _ Hal Hrs).
Qed.

Lemma batches_partition_witness :
  map pos_of_example (concat sample_batches) ≡ₚ seq 0 3.
Proof.
  apply (batches_partition space_tokenize (@rev row) (@rev batch) sample_fs ∅ ∅
           (Some "vocab") (Some "vocab") "src" "tgt" 0 2 None sample_batches
           (map line ["a b"; "a"; "b b b a"])).
  - intros l. symmetry. apply Permutation_rev.
  - intros l. symmetry. apply Permutation_rev.
  - lia.
  - lia.
  - reflexivity.
  - vm_compute. reflexivity.
  - vm_compute. reflexivity.
Defined.

(** *** Size and order of a batch *)

Lemma StronglySorted_take {X : Type} (R : X -> X -> Prop) (n : nat) (l : list X) :
  StronglySorted R l -> StronglySorted R (take n l).
Proof.
  intros H. revert n. induction H as [|x l Hl IH Hx]; intros [|n]; cbn;
    try constructor; [apply IH|].
  eapply Forall_forall. intros y Hy. rewrite Forall_forall in Hx.
  apply Hx. eapply subseteq_take, Hy.
Qed.

Lemma StronglySorted_skip {X : Type} (R : X -> X -> Prop) (n : nat) (l : list X) :
  StronglySorted R l -> StronglySorted R (drop n l).
Proof.
  revert n. induction l as [|x l IH]; intros [|n] H; cbn; try done.
  apply IH. by inversion H.
Qed.

Lemma slices_from_slice {X : Type} (R : X -> X -> Prop) (fuel step : nat)
    (l g : list X) :
  g ∈ slices_from fuel step l ->
  length g <= step /\ (StronglySorted R l -> StronglySorted R g).
Proof.
  revert l. induction fuel as [|fuel IH]; intros l; cbn.
  - by intros ?%elem_of_nil.
  - destruct l as [|x l]; [by intros ?%elem_of_nil|].
    intros [->|Hin]%elem_of_cons.
    + split; [rewrite length_take; lia|apply StronglySorted_take].
    + destruct (IH _ Hin) as [Hlen Hs]. split; [done|].
      intros H. by apply Hs, StronglySorted_skip.
Qed.

Lemma slices_slice {X : Type} (R : X -> X -> Prop) (step : Z)
    (l g : list X) (gs : list (list X)) :
  slices step l = Ok gs -> g ∈ gs ->
  (Z.of_nat (length g) <= step)%Z /\
  (StronglySorted R l -> StronglySorted R g).
Proof.
  unfold slices. destruct (Z.eqb_spec step 0); [done|].
  destruct (Z.ltb_spec step 0).
  - intros [= <-]. by intros ?%elem_of_nil.
  - intros [= <-] Hin.
    destruct (slices_from_slice R _ _ _ _ Hin) as [Hlen Hs].
    split; [lia|done].
Qed.

(** The order of [sorted(shard, key=operator.itemgetter(1, 2))]. *)
Definition lex_le (a b : nat * nat) : Prop :=
  a.1 < b.1 \/ (a.1 = b.1 /\ a.2 <= b.2).

Lemma by_lengths_false (x y : row) :
  by_lengths y x = false <-> lex_le (x.1.2, x.2) (y.1.2, y.2).
Proof.
  destruct x as [[px xs] xt], y as [[py ys] yt].
  unfold lex_le, by_lengths. cbn [fst snd].
  destruct (Nat.ltb_spec ys xs), (Nat.eqb_spec ys xs), (Nat.ltb_spec yt xt);
    cbn; split; (done || lia).
Qed.

Lemma sorted_by_lengths (l : list row) :
  StronglySorted (fun x y => lex_le (x.1.2, x.2) (y.1.2, y.2))
                 (sorted_by by_lengths l).
Proof.
  eapply StronglySorted_mono; [|apply (sorted_by_sorted by_lengths)].
  - intros x y. apply by_lengths_false.
  - intros x y Hxy. apply by_lengths_false.
    destruct x as [[px xs] xt], y as [[py ys] yt].
    unfold lex_le, by_lengths in *. cbn [fst snd].
    destruct (Nat.ltb_spec xs ys), (Nat.eqb_spec xs ys), (Nat.ltb_spec xt yt);
      cbn in Hxy; (done || lia).
  - intros x y z. unfold not_after. rewrite !by_lengths_false.
    unfold lex_le. cbn. lia.
Qed.

(** Every batch is [build_batch] of a slice of a sorted shard. *)
Lemma make_batches_slices (shuffle_rows : list row -> list row)
    (shuffle_batches : list batch -> list batch)
    (st : locals) (shard_size batch_size : Z) (batches : list batch) (b : batch) :
  (forall l, shuffle_rows l ≡ₚ l) ->
  (forall l, shuffle_batches l ≡ₚ l) ->
  make_batches shuffle_rows shuffle_batches st shard_size batch_size = Ok batches ->
  b ∈ batches ->
  exists (rs g : list row),
    asarray (idata st) = Ok rs /\ g <> [] /\ g ⊆ rs /\
    (Z.of_nat (length g) <= batch_size)%Z /\
    StronglySorted (fun x y => lex_le (x.1.2, x.2) (y.1.2, y.2)) g /\
    build_batch g (ldata st) Vocab.idx_pad Vocab.idx_pad = Ok b.
Proof.
  intros Hrows Hbatches. unfold make_batches.
  destruct (asarray (idata st)) as [rs|]; cbn; [|done].
  destruct (slices _ (shuffle_rows rs)) as [shards|] eqn:Hshards; cbn; [|done].
  destruct (collect _ _) as [bss|] eqn:Hbss; cbn; [|done].
  intros [= <-] Hb. rewrite Hbatches in Hb.
  apply list_elem_of_In, in_concat in Hb as (bs & Hbs & Hb).
  apply list_elem_of_In in Hbs, Hb.
  destruct (collect_elem_of_r _ _ _ _ Hbss Hbs) as (shard & Hshard & Hgroups).
  apply list_elem_of_fmap in Hshard as (shard0 & -> & Hshard0).
  destruct (slices batch_size _) as [groups|] eqn:Hsl; cbn in Hgroups; [|done].
  destruct (collect_elem_of_r _ _ _ _ Hgroups Hb) as (g & Hg & Hbuild).
  destruct (slices_spec _ _ _ _ Hsl Hg) as [Hne Hsub].
  destruct (slices_spec _ _ _ _ Hshards Hshard0) as [_ Hsub0].
  destruct (slices_slice (fun x y => lex_le (x.1.2, x.2) (y.1.2, y.2))
              _ _ _ _ Hsl Hg) as [Hlen Hsorted].
  exists rs, g. repeat split; try done.
  - intros e He. apply Hsub in He.
    apply list_elem_of_In, sorted_by_In, list_elem_of_In in He.
    apply Hsub0 in He. by rewrite Hrows in He.
  - apply Hsorted, sorted_by_lengths.
Qed.

(** X11: No batch is empty and none has more than [batch_size] examples. *)
Theorem batch_sizes (tokenize : string -> list string)
    (shuffle_rows : list row -> list row)
    (shuffle_batches : list batch -> list batch)
    (fs : textfs) (saved saved' : pickles)
    (fvocab_src fvocab_tgt : option string) (ftxt_src ftxt_tgt : string)
    (shard_size batch_size : Z) (ofile : option string) (batches : list batch) :
  (forall l, shuffle_rows l ≡ₚ l) ->
  (forall l, shuffle_batches l ≡ₚ l) ->
  ofile ≫= (fun path => saved !! path) = None ->
  init tokenize shuffle_rows shuffle_batches fs saved fvocab_src fvocab_tgt
       ftxt_src ftxt_tgt shard_size batch_size ofile = Ok (batches, saved') ->
  forall b, b ∈ batches ->
    1 <= length b /\ (Z.of_nat (length b) <= batch_size)%Z.
Proof.
  intros Hrows Hbatches Hmiss. unfold init. rewrite Hmiss.
  destruct (read_corpora _ _ _ _ _ _) as [st|] eqn:Hread; cbn; [|done].
  destruct (make_batches _ _ _ _ _) as [bs|] eqn:Hmake; cbn; [|done].
  intros Hres. assert (bs = batches) as -> by (destruct ofile; congruence).
  intros b Hb.
  destruct (make_batches_slices _ _ _ _ _ _ _ Hrows Hbatches Hmake Hb)
    as (rs & g & _ & Hne & _ & Hlen & _ & Hbuild).
  destruct (build_batch_pos _ _ _ _ _ Hbuild) as [_ ->].
  split; [|done]. destruct g; [done|cbn; lia].
Qed.

Lemma batch_sizes_witness :
  Forall (fun b : batch => 1 <= length b /\ (Z.of_nat (length b) <= 2)%Z)
         sample_batches.
Proof.
  apply Forall_forall.
  apply (batch_sizes space_tokenize (@rev row) (@rev batch) sample_fs ∅ ∅
           (Some "vocab") (Some "vocab") "src" "tgt" 0 2 None sample_batches).
  - intros l. symmetry. apply Permutation_rev.
  - intros l. symmetry. apply Permutation_rev.
  - reflexivity.
  - vm_compute. reflexivity.
Defined.

(** The lengths of the encoded source and target of the line at [pos]. *)
Definition lengths_at (tokenize : string -> list string) (vs vt : Vocab.t)
    (src_lines tgt_lines : list string) (pos : nat) : nat * nat :=
  (length (wrap (encode tokenize vs (src_lines !!! pos))),
   length (wrap (encode tokenize vt (tgt_lines !!! pos)))).

Lemma StronglySorted_Forall2 {X Y : Type} (R : X -> X -> Prop)
    (R' : Y -> Y -> Prop) (Q : X -> Y -> Prop) (l : list X) (k : list Y) :
  (forall x x' y y', Q x y -> Q x' y' -> R x x' -> R' y y') ->
  Forall2 Q l k -> StronglySorted R l -> StronglySorted R' k.
Proof.
  intros HQ H2. induction H2 as [|x y l k Hxy H2 IH]; [constructor|].
  intros Hs. inversion Hs as [|? ? Hl Hx]; subst.
  constructor; [by apply IH|].
  clear IH Hs Hl. induction H2 as [|x' y' l k Hxy' _ IH]; [constructor|].
  inversion Hx; subst. constructor; [by eapply HQ|by apply IH].
Qed.

Lemma Forall2_elem_of_l {X Y : Type} (Q : X -> Y -> Prop) (P : X -> Prop)
    (l : list X) (k : list Y) :
  Forall2 Q l k -> (forall x, x ∈ l -> P x) ->
  Forall2 (fun x y => Q x y /\ P x) l k.
Proof.
  intros H2. induction H2 as [|x y l k Hxy _ IH]; intros HP; constructor.
  - split; [done|]. apply HP, list_elem_of_here.
  - apply IH. intros z Hz. by apply HP, list_elem_of_further.
Qed.

(** X12: Inside a batch the examples are in the order of their shard: by the
    length of the encoded source, then by the length of the encoded target,
    both ascending. *)
Theorem batches_sorted (tokenize : string -> list string)
    (shuffle_rows : list row -> list row)
    (shuffle_batches : list batch -> list batch)
    (fs : textfs) (saved saved' : pickles)
    (fvocab_src fvocab_tgt : option string) (ftxt_src ftxt_tgt : string)
    (shard_size batch_size : Z) (ofile : option string) (batches : list batch)
    (vs vt : Vocab.t) (src_lines tgt_lines : list string) :
  (forall l, shuffle_rows l ≡ₚ l) ->
  (forall l, shuffle_batches l ≡ₚ l) ->
  ofile ≫= (fun path => saved !! path) = None ->
  Vocab.init fs fvocab_src = Ok vs ->
  Vocab.init fs fvocab_tgt = Ok vt ->
  fs !! ftxt_src = Some src_lines ->
  fs !! ftxt_tgt = Some tgt_lines ->
  init tokenize shuffle_rows shuffle_batches fs saved fvocab_src fvocab_tgt
       ftxt_src ftxt_tgt shard_size batch_size ofile = Ok (batches, saved') ->
  forall b, b ∈ batches ->
    StronglySorted
      (fun e1 e2 =>
         lex_le (lengths_at tokenize vs vt src_lines tgt_lines (pos_of_example e1))
                (lengths_at tokenize vs vt src_lines tgt_lines (pos_of_example e2)))
      b.
Proof.
  intros Hrows Hbatches Hmiss Hvs Hvt Hsrc Htgt. unfold init. rewrite Hmiss.
  destruct (read_corpora _ _ _ _ _ _) as [st|] eqn:Hread; cbn; [|done].
  destruct (make_batches _ _ _ _ _) as [bs|] eqn:Hmake; cbn; [|done].
  intros Hres. assert (bs = batches) as -> by (destruct ofile; congruence).
  intros b Hb.
  destruct (read_corpora_aligned _ _ _ _ _ _ _ Hread)
    as (vs' & vt' & src' & tgt' & Hvs' & Hvt' & Hsrc' & Htgt' & Hal).
  assert (vs' = vs) as -> by congruence.
  assert (vt' = vt) as -> by congruence.
  assert (src' = src_lines) as -> by congruence.
  assert (tgt' = tgt_lines) as -> by congruence.
  destruct (make_batches_slices _ _ _ _ _ _ _ Hrows Hbatches Hmake Hb)
    as (rs & g & Hrs & _ & Hsub & _ & Hsorted & Hbuild).
  apply asarray_rows in Hrs. destruct Hal as (_ & _ & Hal).
  assert (Hkey : forall r, r ∈ g ->
            lengths_at tokenize vs vt src_lines tgt_lines (pos_of_row r)
            = (r.1.2, r.2)).
  { intros r Hr. apply Hsub in Hr.
    assert (Hin : row_list r ∈ idata st)
      by (rewrite Hrs; by apply list_elem_of_fmap_2).
    apply list_elem_of_lookup in Hin as [j Hj].
    destruct (Hal j _ Hj) as (ls & lt & Hls & Hlt & _ & Heq).
    destruct r as [[p a] c]. cbn in Heq. injection Heq as -> -> ->.
    unfold lengths_at, pos_of_row. cbn.
    by rewrite (list_lookup_total_correct _ _ _ Hls),
               (list_lookup_total_correct _ _ _ Hlt). }
  apply build_batch_spec in Hbuild as (ms & mt & _ & _ & Hcol).
  apply collect_Forall2 in Hcol.
  apply (Forall2_elem_of_l _ _ _ _ Hcol) in Hkey.
  eapply StronglySorted_Forall2; [|exact Hkey|exact Hsorted].
  intros x x' y y' [Hxy Hx] [Hxy' Hx'] Hle. cbn beta in *.
  rewrite (build_example_pos _ _ _ _ _ _ _ Hxy),
          (build_example_pos _ _ _ _ _ _ _ Hxy'), Hx, Hx'. done.
Qed.

Lemma batches_sorted_witness :
  Forall
    (StronglySorted
       (fun e1 e2 =>
          lex_le (lengths_at space_tokenize sample_vocab sample_vocab
                    (map line ["a b"; "a"; "b b b a"]) (map line ["b a"; "x"; "a a"])
                    (pos_of_example e1))
                 (lengths_at space_tokenize sample_vocab sample_vocab
                    (map line ["a b"; "a"; "b b b a"]) (map line ["b a"; "x"; "a a"])
                    (pos_of_example e2))))
    sample_batches.
Proof.
  apply Forall_forall.
  apply (batches_sorted space_tokenize (@rev row) (@rev batch) sample_fs ∅ ∅
           (Some "vocab") (Some "vocab") "src" "tgt" 0 2 None sample_batches).
  - intros l. symmetry. apply Permutation_rev.
  - intros l. symmetry. apply Permutation_rev.
  - reflexivity.
  - vm_compute. reflexivity.
  - vm_compute. reflexivity.
  - vm_compute. reflexivity.
  - vm_compute. reflexivity.
  - vm_compute. reflexivity.
Defined.

(** *** The pickled file *)

(** X13: Once a path holds a pickled dataset, every later [Dataset] with that
    path returns the pickled batches and reads nothing else: whatever the
    other arguments are, the result is the one of the call that wrote the
    file. *)
Theorem cache_wins (tokenize tokenize' : string -> list string)
    (shuffle_rows shuffle_rows' : list row -> list row)
    (shuffle_batches shuffle_batches' : list batch -> list batch)
    (fs fs' : textfs) (saved saved' : pickles)
    (fvocab_src fvocab_tgt fvocab_src' fvocab_tgt' : option string)
    (ftxt_src ftxt_tgt ftxt_src' ftxt_tgt' : string)
    (shard_size batch_size shard_size' batch_size' : Z)
    (path : string) (batches : list batch) :
  init tokenize shuffle_rows shuffle_batches fs saved fvocab_src fvocab_tgt
       ftxt_src ftxt_tgt shard_size batch_size (Some path)
    = Ok (batches, saved') ->
  saved' !! path = Some batches /\
  init tokenize' shuffle_rows' shuffle_batches' fs' saved' fvocab_src'
       fvocab_tgt' ftxt_src' ftxt_tgt' shard_size' batch_size' (Some path)
    = Ok (batches, saved').
Proof.
  intros Hinit.
  assert (Hsaved : saved' !! path = Some batches).
  { unfold init in Hinit. cbn in Hinit.
    destruct (saved !! path) as [bs|] eqn:Hp.
    - injection Hinit as <- <-. done.
    - destruct (read_corpora _ _ _ _ _ _) as [st|]; cbn in Hinit; [|done].
      destruct (make_batches _ _ _ _ _) as [bs|]; cbn in Hinit; [|done].
      injection Hinit as <- <-. apply lookup_insert_eq. }
  split; [done|]. unfold init. cbn. by rewrite Hsaved.
Qed.

Lemma cache_wins_witness :
  init (fun _ => []) (fun l => l) (fun l => l) ∅
       {[ "data.bin" := sample_batches ]} None None "missing" "missing" 7 (-1)
       (Some "data.bin")
  = Ok (sample_batches, {[ "data.bin" := sample_batches ]}).
Proof.
  apply (cache_wins space_tokenize (fun _ => []) (@rev row) (fun l => l)
           (@rev batch) (fun l => l) sample_fs ∅ ∅ {[ "data.bin" := sample_batches ]}
           (Some "vocab") (Some "vocab") None None "src" "tgt" "missing" "missing"
           0 2 7 (-1) "data.bin" sample_batches).
  vm_compute. reflexivity.
Defined.

End DatasetFacts.

(** * Further properties of [prepare_input] *)

Module PrepareFacts.
Import Prepare.

Lemma prepare_input_inv (batch_src batch_tgt : list (list Z)) (idx_pad : Z)
    (src : list (list Z)) (p : prepared) :
  prepare_input batch_src (Some batch_tgt) idx_pad = Ok (src, Some p) ->
  pad_sequence batch_src idx_pad = Ok src /\
  pad_sequence (@removelast Z <$> batch_tgt) idx_pad = Ok (tgt p) /\
  pad_sequence (drop 1 <$> batch_tgt) idx_pad = Ok (ref p) /\
  msk_src p = not_pad src idx_pad /\
  msk_tgt p = and_broadcast (not_pad (tgt p) idx_pad) (lower (size1 (tgt p))).
Proof.
  unfold prepare_input.
  destruct (pad_sequence batch_src idx_pad) as [src'|]; cbn; [|done].
  destruct (pad_sequence (@removelast Z <$> batch_tgt) idx_pad) as [t|];
    cbn; [|done].
  destruct (pad_sequence (drop 1 <$> batch_tgt) idx_pad) as [r|]; cbn; [|done].
  intros H. assert (Hsrc : src' = src) by congruence.
  assert (Hp : p = {| tgt := t; ref := r;
                      msk_src := not_pad src' idx_pad;
                      msk_tgt := and_broadcast (not_pad t idx_pad)
                                   (lower (size1 t)) |})
    by (unfold lower; congruence).
  subst. done.
Qed.

Lemma length_removelast (s : list Z) : length (removelast s) = length s - 1.
Proof.
  induction s as [|x [|y s] IH]; [done|done|].
  change (removelast (x :: y :: s)) with (x :: removelast (y :: s)).
  cbn [length] in *. lia.
Qed.

Lemma lookup_removelast (s : list Z) (j : nat) :
  S j < length s -> removelast s !! j = s !! j.
Proof.
  revert j. induction s as [|x [|y s] IH]; intros j Hj; cbn in Hj; [lia|lia|].
  change (removelast (x :: y :: s)) with (x :: removelast (y :: s)).
  destruct j as [|j]; [done|]. cbn. apply IH. cbn. lia.
Qed.

Lemma widths_agree (batch_tgt : list (list Z)) :
  length <$> (@removelast Z <$> batch_tgt) = length <$> (drop 1 <$> batch_tgt).
Proof.
  rewrite <- !list_fmap_compose. apply list_fmap_ext. intros _ s _. cbn.
  rewrite length_removelast, length_drop. done.
Qed.

Lemma padded_at2 (seqs t : list (list Z)) (pad : Z) (b j : nat) (s : list Z) :
  pad_sequence seqs pad = Ok t -> seqs !! b = Some s ->
  at2 t b j =
  if decide (j < length s) then s !! j
  else if decide (j < size1 t) then Some pad else None.
Proof.
  intros Hpad Hs. apply pad_sequence_spec in Hpad as (Ht & _ & Hsize).
  cbv zeta in *. rewrite Hsize. unfold at2. rewrite Ht at 1.
  rewrite list_lookup_fmap, Hs. cbn.
  assert (Hle : length s <= max_list (length <$> seqs)).
  { apply max_list_elem_of_le, list_elem_of_fmap. exists s.
    split; [done|]. by eapply list_elem_of_lookup_2. }
  destruct (decide (j < length s)) as [Hj|Hj].
  - by rewrite lookup_app_l.
  - rewrite lookup_app_r by lia.
    destruct (decide (j < max_list (length <$> seqs))) as [Hw|Hw].
    + apply lookup_replicate_2. lia.
    + apply lookup_replicate_None. lia.
Qed.

(** X14: Teacher forcing: the input of the decoder and the reference have the
    same shape, and for every target sequence the reference at position [j]
    is the token that follows the input token at position [j]; both are
    [idx_pad] from the length of the sequence minus one up to the width. *)
Theorem reference_is_next_token (batch_src batch_tgt : list (list Z))
    (idx_pad : Z) (src : list (list Z)) (p : prepared) :
  prepare_input batch_src (Some batch_tgt) idx_pad = Ok (src, Some p) ->
  length (tgt p) = length batch_tgt /\
  length (ref p) = length batch_tgt /\
  size1 (ref p) = size1 (tgt p) /\
  forall b seq j, batch_tgt !! b = Some seq ->
    (S j < length seq ->
       at2 (tgt p) b j = seq !! j /\ at2 (ref p) b j = seq !! S j) /\
    (length seq - 1 <= j < size1 (tgt p) ->
       at2 (tgt p) b j = Some idx_pad /\ at2 (ref p) b j = Some idx_pad).
Proof.
  intros H. apply prepare_input_inv in H as (_ & Ht & Hr & _ & _).
  pose proof (pad_sequence_spec _ _ _ Ht) as (Ht' & _ & Hst).
  pose proof (pad_sequence_spec _ _ _ Hr) as (Hr' & _ & Hsr).
  cbv zeta in *.
  assert (Hsize : size1 (ref p) = size1 (tgt p))
    by (rewrite Hst, Hsr; f_equal; symmetry; apply widths_agree).
  split; [by rewrite Ht', !length_fmap|].
  split; [by rewrite Hr', !length_fmap|].
  split; [done|].
  intros b seq j Hseq.
  assert (Hb_t : (@removelast Z <$> batch_tgt) !! b = Some (removelast seq))
    by (by rewrite list_lookup_fmap, Hseq).
  assert (Hb_r : (drop 1 <$> batch_tgt) !! b = Some (drop 1 seq))
    by (by rewrite list_lookup_fmap, Hseq).
  rewrite (padded_at2 _ _ _ b j _ Ht Hb_t), (padded_at2 _ _ _ b j _ Hr Hb_r).
  rewrite length_removelast, length_drop, Hsize.
  split; intros Hj.
  - rewrite !decide_True by lia.
    split; [by apply lookup_removelast|by rewrite lookup_drop].
  - repeat case_decide; try lia. done.
Qed.

Lemma reference_is_next_token_witness :
  size1 (ref sample_prepared) = size1 (tgt sample_prepared) /\
  at2 (tgt sample_prepared) 1 1 = Some 1%Z /\
  at2 (ref sample_prepared) 1 1 = Some 3%Z.
Proof.
  assert (H : prepare_input sample_src (Some sample_tgt) 0 =
              Ok (sample_src, Some sample_prepared))
    by (vm_compute; reflexivity).
  destruct (reference_is_next_token sample_src sample_tgt 0 sample_src
              sample_prepared H) as (_ & _ & Hsize & Hat).
  split; [exact Hsize|].
  destruct (Hat 1 [2; 1; 3; 0]%Z 1 eq_refl) as [Hnext _].
  apply Hnext. cbn. lia.
Defined.

(** X15: No query row of the target mask is masked out entirely: when every
    target sequence has at least two tokens and does not start with
    [idx_pad], key 0 is visible to every query position of every example. *)
Theorem first_key_visible (batch_src batch_tgt : list (list Z))
    (idx_pad : Z) (src : list (list Z)) (p : prepared) :
  prepare_input batch_src (Some batch_tgt) idx_pad = Ok (src, Some p) ->
  Forall (fun seq => 2 <= length seq /\ seq !! 0 <> Some idx_pad) batch_tgt ->
  forall b i, b < length batch_tgt -> i < size1 (tgt p) ->
    at3 (msk_tgt p) b i 0 = Some true.
Proof.
  intros H Hfirst b i Hb Hi.
  apply prepare_input_inv in H as (_ & Ht & _ & _ & ->).
  pose proof (pad_sequence_spec _ _ _ Ht) as (_ & Hw & Hst). cbv zeta in *.
  rewrite causal_at3 by (by rewrite Hst).
  rewrite decide_True by done.
  destruct (lookup_lt_is_Some_2 _ _ Hb) as [seq Hseq].
  rewrite Forall_forall in Hfirst.
  destruct (Hfirst seq) as [Hlen Hne]; [by eapply list_elem_of_lookup_2|].
  rewrite (padded_at2 _ _ _ b 0 (removelast seq) Ht)
    by (by rewrite list_lookup_fmap, Hseq).
  rewrite decide_True by (rewrite length_removelast; lia).
  rewrite lookup_removelast by lia.
  destruct (seq !! 0) as [x|] eqn:Hx; cbn.
  - f_equal. apply bool_decide_eq_true. split; [congruence|lia].
  - apply lookup_ge_None in Hx. lia.
Qed.

Lemma first_key_visible_witness :
  at3 (msk_tgt sample_prepared) 1 2 0 = Some true.
Proof.
  apply (first_key_visible sample_src sample_tgt 0 sample_src sample_prepared).
  - vm_compute. reflexivity.
  - repeat constructor; cbn; (lia || discriminate).
  - cbn. lia.
  - cbn. lia.
Defined.

(** X16: A batch whose sources all have one length and whose targets all have
    one length, as [Dataset.build_batch] makes them, gets no further
    padding: the source is returned as it is, the input of the decoder is
    every target without its last token and the reference every target
    without its first token. *)
Theorem prepare_equal_lengths (batch_src batch_tgt : list (list Z))
    (idx_pad : Z) (n m : nat) :
  batch_src <> [] -> batch_tgt <> [] ->
  Forall (fun s => length s = n) batch_src ->
  Forall (fun s => length s = m) batch_tgt ->
  exists p,
    prepare_input batch_src (Some batch_tgt) idx_pad = Ok (batch_src, Some p) /\
    tgt p = @removelast Z <$> batch_tgt /\
    ref p = drop 1 <$> batch_tgt.
Proof.
  assert (Hpad : forall (seqs : list (list Z)) (w : nat),
            seqs <> [] -> Forall (fun s => length s = w) seqs ->
            pad_sequence seqs idx_pad = Ok seqs).
  { intros seqs w Hne Hw.
    assert (Hmax : max_list (length <$> seqs) = w).
    { induction Hw as [|s l Hs Hw IH]; [done|].
      destruct l as [|s1 l]; [cbn; lia|].
      specialize (IH ltac:(done)). cbn in *. lia. }
    unfold pad_sequence. destruct seqs as [|s0 seqs]; [done|]. f_equal.
    rewrite Hmax. rewrite <- (list_fmap_id (s0 :: seqs)) at 2.
    apply Forall_fmap_ext_1. eapply Forall_impl; [exact Hw|].
    intros s Hs. cbn. rewrite Hs, Nat.sub_diag. cbn. apply app_nil_r. }
  intros Hsrc Htgt Hn Hm. unfold prepare_input.
  rewrite (Hpad batch_src n Hsrc Hn). cbn.
  rewrite (Hpad (@removelast Z <$> batch_tgt) (m - 1)); cycle 1.
  { by destruct batch_tgt. }
  { apply Forall_fmap. eapply Forall_impl; [exact Hm|].
    intros s Hs. cbn. by rewrite length_removelast, Hs. }
  cbn. rewrite (Hpad (drop 1 <$> batch_tgt) (m - 1)); cycle 1.
  { by destruct batch_tgt. }
  { apply Forall_fmap. eapply Forall_impl; [exact Hm|].
    intros s Hs. cbn. by rewrite length_drop, Hs. }
  cbn. eexists. split; [reflexivity|]. done.
Qed.

Lemma prepare_equal_lengths_witness :
  exists p,
    prepare_input sample_src (Some sample_tgt) 0 = Ok (sample_src, Some p) /\
    tgt p = @removelast Z <$> sample_tgt /\
    ref p = drop 1 <$> sample_tgt.
Proof.
  apply (prepare_equal_lengths sample_src sample_tgt 0 4 4).
  - discriminate.
  - discriminate.
  - repeat constructor.
  - repeat constructor.
Defined.

End PrepareFacts.

(** * Further properties of [Learning.learn] *)

Module LearnFacts.
Import Learn.

Local Open Scope Z_scope.

(** The events of the batches that bring the step counter from [step] to
    [step + n]. *)
Definition batch_events (o : options) (validset : bool) (step n : Z)
  : list event :=
  concat (periodic o validset <$> seqZ (step + 1) n).

(** The final validation and checkpoint of a run that stops at [step]. *)
Definition final_events (o : options) (validset : bool) (step : Z)
  : list event :=
  (if validset then [Validate step] else []) ++ [Save step (keep_last_n o)].

Lemma batch_events_app (o : options) (validset : bool) (step n m : Z) :
  0 <= n -> 0 <= m ->
  batch_events o validset step (n + m) =
  batch_events o validset step n ++ batch_events o validset (step + n) m.
Proof.
  intros Hn Hm. unfold batch_events.
  rewrite seqZ_app by done. rewrite fmap_app, concat_app.
  by replace (step + 1 + n) with (step + n + 1) by lia.
Qed.

Lemma batch_events_one (o : options) (validset : bool) (step : Z) :
  batch_events o validset step 1 = periodic o validset (step + 1).
Proof. unfold batch_events. cbn. apply app_nil_r. Qed.

(** The batches of an epoch during which the step limit is not reached. *)
Lemma run_batches_continue (o : options) (validset : bool) (n_batch : nat)
    (step : Z) (trace : list event) :
  max_steps o = 0 \/ step + Z.of_nat n_batch < max_steps o ->
  run_batches o validset n_batch step trace =
  (Continue (trace ++ batch_events o validset step (Z.of_nat n_batch)),
   step + Z.of_nat n_batch).
Proof.
  revert step trace. induction n_batch as [|n IH]; intros step trace Hlim.
  - cbn. by rewrite app_nil_r, Z.add_0_r.
  - cbn [run_batches]. rewrite after_step_eq. unfold scheduler_step.
    replace (negb (max_steps o =? 0) && (max_steps o <=? step + 1))
      with false; cycle 1.
    { symmetry. destruct Hlim as [->|Hlim]; [done|].
      apply andb_false_iff. right. apply Z.leb_gt. lia. }
    rewrite IH by lia.
    replace (Z.of_nat (S n)) with (1 + Z.of_nat n) by lia.
    rewrite batch_events_app, batch_events_one by lia.
    rewrite <- app_assoc. f_equal. lia.
Qed.

(** The batches of the epoch during which the step limit is reached. *)
Lemma run_batches_limit (o : options) (validset : bool) (n_batch : nat)
    (step : Z) (trace : list event) :
  0 < max_steps o -> step < max_steps o <= step + Z.of_nat n_batch ->
  run_batches o validset n_batch step trace =
  (Raised AttributeError
     (trace ++ batch_events o validset step (max_steps o - step) ++
      (if validset then [Validate (max_steps o)] else [])),
   max_steps o).
Proof.
  intros Hpos. revert step trace.
  induction n_batch as [|n IH]; intros step trace Hlim; [lia|].
  cbn [run_batches]. rewrite after_step_eq. unfold scheduler_step.
  destruct (Z.eqb_spec (max_steps o) 0) as [|_]; [lia|]. cbn [negb andb].
  destruct (Z.leb_spec (max_steps o) (step + 1)) as [Hle|Hgt].
  - assert (Heq : max_steps o = step + 1) by lia. rewrite Heq.
    replace (step + 1 - step) with 1 by lia.
    by rewrite batch_events_one.
  - rewrite IH by lia.
    replace (max_steps o - step) with (1 + (max_steps o - (step + 1))) by lia.
    rewrite batch_events_app, batch_events_one by lia.
    by rewrite <- !app_assoc.
Qed.

Lemma learn_epochs (o : options) (validset : bool) (n_batch fuel : nat)
    (step epoch : Z) (trace : list event) :
  let left := max_epochs o - epoch in
  0 <= epoch < max_epochs o ->
  left <= Z.of_nat fuel ->
  max_steps o = 0 \/ step + left * Z.of_nat n_batch < max_steps o ->
  learn fuel o validset n_batch step epoch trace =
  Some (Returned
          (trace ++ batch_events o validset step (left * Z.of_nat n_batch) ++
           final_events o validset (step + left * Z.of_nat n_batch))).
Proof.
  cbv zeta. revert step epoch trace.
  induction fuel as [|fuel IH]; intros step epoch trace Hepoch Hfuel Hlim;
    [lia|].
  cbn [learn]. rewrite run_batches_continue by nia.
  destruct (Z.eqb_spec (max_epochs o) 0) as [|_]; [lia|]. cbn [negb andb].
  destruct (Z.leb_spec (max_epochs o) (epoch + 1)) as [Hle|Hgt].
  - replace (max_epochs o - epoch) with 1 by lia. rewrite Z.mul_1_l.
    unfold save_with, validate_if, final_events.
    change (getattr "optScheduler") with (Ok tt).
    destruct validset; by rewrite <- !app_assoc.
  - rewrite IH by nia.
    replace ((max_epochs o - epoch) * Z.of_nat n_batch)
      with (Z.of_nat n_batch + (max_epochs o - (epoch + 1)) * Z.of_nat n_batch)
      by lia.
    rewrite batch_events_app by nia.
    rewrite <- !app_assoc, Z.add_assoc. done.
Qed.

(** X17: With a limit on the epochs that is reached before any limit on the
    steps, [learn] returns after [max_epochs] epochs: it has run the
    periodic reports, validations and checkpoints of every step in order,
    and ends with one validation (if there is a validation set) and one
    checkpoint at the last step. *)
Theorem learn_stops_at_max_epochs (o : options) (validset : bool)
    (n_batch fuel : nat) (step : Z) :
  let last := step + max_epochs o * Z.of_nat n_batch in
  0 < max_epochs o ->
  max_steps o = 0 \/ last < max_steps o ->
  max_epochs o <= Z.of_nat fuel ->
  learn fuel o validset n_batch step 0 [] =
  Some (Returned (batch_events o validset step (max_epochs o * Z.of_nat n_batch)
                  ++ final_events o validset last)).
Proof.
  cbv zeta. intros Hpos Hlim Hfuel.
  rewrite learn_epochs; rewrite ?Z.sub_0_r; (done || lia).
Qed.

Lemma learn_stops_at_max_epochs_witness :
  learn 5 (mk_options 0 2 3 2 0 1) true 2 10 0 [] =
  Some (Returned (batch_events (mk_options 0 2 3 2 0 1) true 10 4 ++
                  final_events (mk_options 0 2 3 2 0 1) true 14)).
Proof.
  apply (learn_stops_at_max_epochs (mk_options 0 2 3 2 0 1) true 2 5 10).
  - cbn. lia.
  - left. reflexivity.
  - cbn. lia.
Defined.

Lemma learn_steps (o : options) (validset : bool) (n_batch fuel : nat)
    (step epoch : Z) (trace : list event) :
  max_epochs o = 0 -> 0 < Z.of_nat n_batch ->
  0 <= step < max_steps o -> max_steps o - step <= Z.of_nat fuel ->
  learn fuel o validset n_batch step epoch trace =
  Some (Raised AttributeError
          (trace ++ batch_events o validset step (max_steps o - step) ++
           (if validset then [Validate (max_steps o)] else []))).
Proof.
  intros Hepochs Hn. revert step epoch trace.
  induction fuel as [|fuel IH]; intros step epoch trace Hstep Hfuel; [lia|].
  cbn [learn].
  destruct (Z.le_gt_cases (max_steps o) (step + Z.of_nat n_batch))
    as [Hreach|Hnot].
  - by rewrite run_batches_limit by lia.
  - rewrite run_batches_continue by lia. rewrite Hepochs. cbn [Z.eqb negb andb].
    rewrite IH by lia.
    replace (max_steps o - step)
      with (Z.of_nat n_batch + (max_steps o - (step + Z.of_nat n_batch)))
      by lia.
    rewrite batch_events_app by lia.
    by rewrite <- !app_assoc.
Qed.

(** X18: With a limit on the steps only and a training set that is not empty,
    [learn] does end: it runs the periodic events of every step up to
    [max_steps], validates, and raises [AttributeError] where the final
    checkpoint should be saved.  One epoch of fuel per remaining step is
    enough. *)
Theorem learn_raises_at_max_steps (o : options) (validset : bool)
    (n_batch fuel : nat) (step : Z) :
  max_epochs o = 0 -> 0 < Z.of_nat n_batch ->
  0 <= step < max_steps o -> max_steps o - step <= Z.of_nat fuel ->
  learn fuel o validset n_batch step 0 [] =
  Some (Raised AttributeError
          (batch_events o validset step (max_steps o - step) ++
           (if validset then [Validate (max_steps o)] else []))).
Proof. intros. by rewrite learn_steps. Qed.

Lemma learn_raises_at_max_steps_witness :
  learn 5 (mk_options 5 0 0 2 0 1) true 2 0 0 [] =
  Some (Raised AttributeError
          (batch_events (mk_options 5 0 0 2 0 1) true 0 5 ++ [Validate 5])).
Proof.
  apply (learn_raises_at_max_steps (mk_options 5 0 0 2 0 1) true 2 5 0).
  - reflexivity.
  - cbn. lia.
  - cbn. lia.
  - cbn. lia.
Defined.

(** X19: Without a limit on the epochs, [learn] never ends when there is no
    limit on the steps either, and it never ends on an empty training set
    whatever the limit on the steps: no number of epochs is enough. *)
Theorem learn_never_ends (o : options) (validset : bool) (n_batch : nat)
    (step epoch : Z) (trace : list event) :
  max_epochs o = 0 -> max_steps o = 0 \/ n_batch = 0%nat ->
  forall fuel, learn fuel o validset n_batch step epoch trace = None.
Proof.
  intros Hepochs Hlim fuel. revert step epoch trace.
  induction fuel as [|fuel IH]; intros step epoch trace; [done|].
  cbn [learn].
  assert (Hrun : exists trace' step',
            run_batches o validset n_batch step trace
            = (Continue trace', step')).
  { destruct Hlim as [Hsteps| ->].
    - eexists _, _. apply run_batches_continue. by left.
    - by eexists _, _. }
  destruct Hrun as (trace' & step' & ->).
  rewrite Hepochs. cbn [Z.eqb negb andb]. apply IH.
Qed.

Lemma learn_never_ends_witness :
  learn 1000 (mk_options 3 0 1 1 1 1) true 0 0 0 [] = None.
Proof.
  apply (learn_never_ends (mk_options 3 0 1 1 1 1) true 0 0 0 []).
  - reflexivity.
  - right. reflexivity.
Defined.

End LearnFacts.

(** * Loading checkpoints, and a sequence of saves *)

Module CheckpointFacts.
Import Checkpoint.

Section Loading.

Context {model_state optimizer_state : Type}.
Implicit Types fs : gmap string (file model_state optimizer_state).

(** [torch.nn.init.xavier_uniform_] on every parameter of dimension above
    one: some new state of the model. *)
Variable initialise : model_state -> model_state.

(** [model.load_state_dict(state)] and [optimizer.load_state_dict(state)]:
    the state of the object afterwards, or the exception that a state which
    does not fit the object raises. *)
Variable load_state_dict : model_state -> model_state -> result model_state.
Variable optimizer_load_state_dict :
  optimizer_state -> optimizer_state -> result optimizer_state.

(** [load_checkpoint_or_initialise]: the step, the state of the model and
    the state of the optimizer (if one is given) after the call. *)
Definition load_checkpoint_or_initialise fs (suffix : string)
    (m : model_state) (opt : option optimizer_state)
  : result (Z * model_state * option optimizer_state) :=
  let files := sorted (glob suffix fs) in
  match last files with
  | None => Ok (0%Z, initialise m, opt)
  | Some file =>
      checkpoint ← torch_load fs file;
      step ← step checkpoint;
      state ← model checkpoint;
      m ← load_state_dict m state;
      match opt with
      | None => Ok (step, m, None)
      | Some o =>
          state ← optimizer checkpoint;
          o ← optimizer_load_state_dict o state;
          Ok (step, m, Some o)
      end
  end.

Lemma glob_insert (suffix name : string) fs
    (c : file model_state optimizer_state) (x : string) :
  matches suffix name = true ->
  x ∈ glob suffix (<[name := c]> fs) <-> x = name \/ x ∈ glob suffix fs.
Proof.
  intros Hm. rewrite !elem_of_glob. destruct (decide (x = name)) as [->|Hne].
  - rewrite lookup_insert_eq. split; [by left|]. intros _. by split.
  - rewrite lookup_insert_ne by done. split; [by right|]. by intros [?|?].
Qed.

Lemma last_not_in_take (files : list string) (name : string) (n : nat) :
  NoDup files -> last files = Some name -> n < length files ->
  name ∉ take n files.
Proof.
  intros Hnd Hlast Hn Hin. rewrite last_lookup in Hlast.
  apply list_elem_of_lookup in Hin as [i Hi].
  pose proof (lookup_lt_Some _ _ _ Hi) as Hlt. rewrite length_take in Hlt.
  rewrite lookup_take_lt in Hi by lia.
  pose proof (NoDup_lookup _ _ _ _ Hnd Hi Hlast). lia.
Qed.

(** After a save whose file name is not below any checkpoint of the
    directory, the newest checkpoint is the saved one. *)
Lemma save_checkpoint_newest (suffix : string) fs (m : model_state)
    (o : optimizer_state) (step keep_last_n : Z) :
  (0 <= step < 10 ^ 8)%Z ->
  (forall g, g ∈ glob suffix fs -> String.le g (checkpoint_name suffix step)) ->
  let fs' := save_checkpoint fs suffix m o step keep_last_n in
  last (sorted (glob suffix fs')) = Some (checkpoint_name suffix step) /\
  fs' !! checkpoint_name suffix step = Some (checkpoint step m o).
Proof.
  intros Hstep Hmax. cbv zeta.
  set (name := checkpoint_name suffix step) in *.
  set (c := checkpoint step m o).
  set (fs1 := <[name := c]> fs).
  set (files := sorted (glob suffix fs1)).
  pose proof (matches_checkpoint_name suffix step Hstep) as Hm. fold name in Hm.
  assert (Hin : name ∈ files).
  { unfold files. rewrite elem_of_sorted. unfold fs1.
    rewrite glob_insert by done. by left. }
  assert (Hlast : last files = Some name).
  { destruct (last files) as [x|] eqn:Hx.
    - f_equal. apply (anti_symm String.le).
      + assert (Hxin : x ∈ files).
        { apply list_elem_of_lookup. rewrite last_lookup in Hx. eauto. }
        unfold files in Hxin. rewrite elem_of_sorted in Hxin.
        unfold fs1 in Hxin. rewrite glob_insert in Hxin by done.
        destruct Hxin as [->|Hxin]; [reflexivity|by apply Hmax].
      + eapply (StronglySorted_last_max String.le);
          [apply sorted_sorted|exact Hx|exact Hin].
    - apply last_None in Hx. rewrite Hx in Hin. by apply elem_of_nil in Hin. }
  assert (Hlen : 0 < length files).
  { destruct files; [by apply elem_of_nil in Hin|cbn; lia]. }
  destruct (Z.lt_ge_cases 0 keep_last_n) as [Hk|Hk].
  - split.
    + rewrite save_checkpoint_files by done. fold name c fs1 files.
      rewrite last_drop_lt by lia. done.
    + unfold save_checkpoint. fold name c fs1 files.
      rewrite remove_oldest_lookup by done.
      rewrite decide_False.
      * apply lookup_insert_eq.
      * apply last_not_in_take; [apply NoDup_sorted, NoDup_glob|done|lia].
  - unfold save_checkpoint. fold name c fs1 files.
    rewrite remove_oldest_keep_all by done.
    split; [done|apply lookup_insert_eq].
Qed.

(** The two loaders on a directory whose last matching file is a
    checkpoint that [save_checkpoint] has written. *)
Lemma load_saved (suffix name : string) fs (m m0 m' : model_state)
    (o : optimizer_state) (step : Z) :
  last (sorted (glob suffix fs)) = Some name ->
  fs !! name = Some (checkpoint step m o) ->
  load_state_dict m0 m = Ok m' ->
  load_checkpoint load_state_dict fs suffix m0 = Ok (name, m') /\
  load_checkpoint_or_initialise fs suffix m0 None = Ok (step, m', None) /\
  forall o0 o', optimizer_load_state_dict o0 o = Ok o' ->
    load_checkpoint_or_initialise fs suffix m0 (Some o0) = Ok (step, m', Some o').
Proof.
  intros Hlast Hlook Hm.
  unfold load_checkpoint, load_checkpoint_or_initialise, torch_load.
  rewrite Hlast, Hlook. cbn. rewrite Hm. cbn.
  split; [done|]. split; [done|].
  intros o0 o' Ho. by rewrite Ho.
Qed.

(** X20: Saving and loading again, for a suffix without wildcards: after a
    save at a step whose file name is not below any checkpoint of the
    directory, whatever [keep_last_n] is, both loaders read the saved file.
    When the saved state fits the model, they return the model with that
    state, [load_checkpoint_or_initialise] with the saved step, and with
    the saved state of the optimizer if one is given and the state fits
    it. *)
Theorem save_then_load (suffix : string) fs (m m0 m' : model_state)
    (o : optimizer_state) (step keep_last_n : Z) :
  plain suffix = true ->
  (0 <= step < 10 ^ 8)%Z ->
  (forall g, g ∈ glob suffix fs -> String.le g (checkpoint_name suffix step)) ->
  load_state_dict m0 m = Ok m' ->
  let fs' := save_checkpoint fs suffix m o step keep_last_n in
  load_checkpoint load_state_dict fs' suffix m0 =
    Ok (checkpoint_name suffix step, m') /\
  load_checkpoint_or_initialise fs' suffix m0 None = Ok (step, m', None) /\
  forall o0 o', optimizer_load_state_dict o0 o = Ok o' ->
    load_checkpoint_or_initialise fs' suffix m0 (Some o0) =
      Ok (step, m', Some o').
Proof.
  intros _ Hstep Hmax Hm fs'.
  destruct (save_checkpoint_newest suffix fs m o step keep_last_n Hstep Hmax)
    as [Hlast Hlook].
  by apply (load_saved suffix _ fs' m m0 m' o step).
Qed.

(** X21: The two loaders agree, for a suffix without wildcards.  When no
    file of the directory matches the pattern, [load_checkpoint] exits and
    [load_checkpoint_or_initialise] returns step 0 with the initialised
    model and the optimizer untouched.  Otherwise both read the same file,
    the greatest matching name: what [load_checkpoint] raises,
    [load_checkpoint_or_initialise] raises too; and when [load_checkpoint]
    returns a model, [load_checkpoint_or_initialise] returns the same model
    with the step of the file if no optimizer is given, and goes on to load
    the optimizer state of the file if one is. *)
Theorem loaders_agree (suffix : string) fs (m : model_state) :
  plain suffix = true ->
  (glob suffix fs = [] ->
   load_checkpoint load_state_dict fs suffix m = Raise SysExit /\
   forall opt,
     load_checkpoint_or_initialise fs suffix m opt
     = Ok (0%Z, initialise m, opt)) /\
  (glob suffix fs <> [] ->
   exists path c,
     fs !! path = Some c /\
     path ∈ glob suffix fs /\
     (forall g, g ∈ glob suffix fs -> String.le g path) /\
     match load_checkpoint load_state_dict fs suffix m with
     | Raise e =>
         forall opt, load_checkpoint_or_initialise fs suffix m opt = Raise e
     | Ok (path', m') =>
         path' = path /\
         exists p s,
           c = Loadable p /\ step p = Ok s /\
           load_checkpoint_or_initialise fs suffix m None = Ok (s, m', None) /\
           forall o,
             load_checkpoint_or_initialise fs suffix m (Some o) =
             (state ← optimizer p;
              o' ← optimizer_load_state_dict o state;
              Ok (s, m', Some o'))
     end).
Proof.
  intros _.
  pose proof (load_checkpoint_spec load_state_dict suffix fs m) as Hspec.
  unfold load_checkpoint_or_initialise, torch_load.
  destruct (last (sorted (glob suffix fs))) as [path|] eqn:Hlast.
  - destruct Hspec as (c & Hc & Hin & Hmax & Hload).
    split.
    { intros Hnil. rewrite Hnil in Hin. by apply elem_of_nil in Hin. }
    intros _. exists path, c. split; [done|]. split; [done|]. split; [done|].
    rewrite Hload, Hc. destruct c as [[s ms os]|e]; cbn; [|done].
    destruct s as [s|e]; cbn; [|done].
    destruct ms as [ms|e]; cbn; [|done].
    destruct (load_state_dict m ms) as [m'|e]; cbn; [|done].
    split; [done|]. eexists _, s. split; [reflexivity|]. done.
  - destruct Hspec as [Hnil Hload]. split; [done|]. by intros ?.
Qed.

(** *** A run that saves at increasing steps *)

(** The calls [save_checkpoint(suffix, model, optimizer, step, keep_last_n)]
    of a run, in order. *)
Definition saves (suffix : string) (keep_last_n : Z)
    (l : list (Z * model_state * optimizer_state)) fs
  : gmap string (file model_state optimizer_state) :=
  foldl (fun fs '(step, m, o) => save_checkpoint fs suffix m o step keep_last_n)
        fs l.

Definition steps_of (l : list (Z * model_state * optimizer_state)) : list Z :=
  (fun x => x.1.1) <$> l.

Lemma names_sorted (suffix : string) (steps : list Z) :
  Forall (fun s => (0 <= s < 10 ^ 8)%Z) steps ->
  StronglySorted Z.lt steps ->
  StronglySorted String.le (checkpoint_name suffix <$> steps) /\
  NoDup (checkpoint_name suffix <$> steps).
Proof.
  intros Hrange Hsorted.
  induction Hsorted as [|s steps Hsorted IH Hs]; cbn.
  - split; constructor.
  - inversion Hrange as [|? ? Hs0 Hrange']; subst.
    destruct (IH Hrange') as [IHs IHn]. split.
    + constructor; [done|]. apply Forall_fmap, Forall_forall.
      intros s' Hs'. cbn.
      rewrite Forall_forall in Hs, Hrange'.
      unfold String.le, String.leb.
      rewrite checkpoint_name_compare by auto.
      specialize (Hs s' Hs'). by rewrite (proj2 (Z.compare_lt_iff s s') Hs).
    + constructor; [|done]. intros Hin.
      apply list_elem_of_fmap in Hin as (s' & Heq & Hs').
      rewrite Forall_forall in Hs, Hrange'.
      pose proof (checkpoint_name_compare suffix s s' Hs0 (Hrange' _ Hs'))
        as Hcmp.
      rewrite Heq, string_compare_refl in Hcmp.
      symmetry in Hcmp. apply Z.compare_eq in Hcmp.
      specialize (Hs s' Hs'). lia.
Qed.

Lemma StronglySorted_snoc {X : Type} (R : X -> X -> Prop) (l : list X) (x : X) :
  StronglySorted R (l ++ [x]) ->
  StronglySorted R l /\ forall y, y ∈ l -> R y x.
Proof.
  induction l as [|a l IH]; cbn; intros H.
  - split; [constructor|]. by intros y ?%elem_of_nil.
  - inversion H as [|? ? Hl Ha]; subst. destruct (IH Hl) as [IHs IHx].
    apply Forall_app in Ha as [Ha Hx]. rewrite Forall_singleton in Hx.
    split; [by constructor|].
    intros y [->|Hy]%elem_of_cons; [done|by apply IHx].
Qed.

Lemma drop_snoc_keep {X : Type} (k : nat) (l : list X) (x : X) :
  0 < k ->
  drop (length (drop (length l - k) l ++ [x]) - k) (drop (length l - k) l ++ [x])
  = drop (length (l ++ [x]) - k) (l ++ [x]).
Proof.
  intros Hk. rewrite !length_app, length_drop. cbn [length].
  destruct (decide (length l < k)) as [Hlt|Hge].
  - replace (length l - k) with 0 by lia. cbn [drop].
    replace (length l - 0 + 1 - k) with 0 by lia.
    by replace (length l + 1 - k) with 0 by lia.
  - replace (length l - (length l - k) + 1 - k) with 1 by lia.
    replace (length l + 1 - k) with (S (length l - k)) by lia.
    rewrite !drop_app_le by (rewrite ?length_drop; lia).
    f_equal. rewrite drop_drop. f_equal. lia.
Qed.

Lemma saves_files (suffix : string) (keep_last_n : Z)
    (l : list (Z * model_state * optimizer_state)) fs :
  (0 < keep_last_n)%Z ->
  glob suffix fs = [] ->
  Forall (fun s => (0 <= s < 10 ^ 8)%Z) (steps_of l) ->
  StronglySorted Z.lt (steps_of l) ->
  sorted (glob suffix (saves suffix keep_last_n l fs)) =
  checkpoint_name suffix <$>
    drop (length l - Z.to_nat keep_last_n) (steps_of l).
Proof.
  intros Hk Hempty. induction l as [|[[s m] o] l IH] using rev_ind.
  - intros _ _. cbn. rewrite Hempty. done.
  - unfold steps_of. rewrite fmap_app. cbn [fmap list_fmap fst].
    fold (steps_of l). intros Hrange Hsorted.
    apply Forall_app in Hrange as [Hrange Hs].
    rewrite Forall_singleton in Hs.
    pose proof (StronglySorted_snoc _ _ _ Hsorted) as [Hsorted_l _].
    specialize (IH Hrange Hsorted_l).
    unfold saves. rewrite foldl_app. cbn [foldl]. fold (saves suffix keep_last_n l fs).
    rewrite save_checkpoint_files by done.
    set (kept := drop (length l - Z.to_nat keep_last_n) (steps_of l)) in *.
    assert (Hfiles :
      sorted (glob suffix
                (<[checkpoint_name suffix s := checkpoint s m o]>
                   (saves suffix keep_last_n l fs)))
      = checkpoint_name suffix <$> (kept ++ [s])).
    { assert (Hkept_sorted : StronglySorted Z.lt (kept ++ [s])).
      { unfold kept. rewrite <- (length_fmap (fun x => x.1.1) l).
        fold (steps_of l).
        replace (drop (length (steps_of l) - Z.to_nat keep_last_n) (steps_of l)
                 ++ [s])
          with (drop (length (steps_of l) - Z.to_nat keep_last_n)
                  (steps_of l ++ [s])) by (apply drop_app_le; lia).
        by apply StronglySorted_drop. }
      assert (Hkept_range : Forall (fun s => (0 <= s < 10 ^ 8)%Z) (kept ++ [s])).
      { apply Forall_app. split; [by apply Forall_drop|by apply Forall_singleton]. }
      destruct (names_sorted suffix _ Hkept_range Hkept_sorted) as [Hss Hnd].
      apply sorted_unique_from; [apply NoDup_glob|done|done|].
      intros x. rewrite glob_insert by (by apply matches_checkpoint_name).
      rewrite <- (elem_of_sorted (glob suffix (saves suffix keep_last_n l fs))).
      rewrite IH. fold kept. rewrite fmap_app, elem_of_app. cbn.
      rewrite list_elem_of_singleton. tauto. }
    rewrite Hfiles, length_fmap, <- fmap_drop. f_equal.
    unfold kept. rewrite <- (length_fmap (fun x => x.1.1) l). fold (steps_of l).
    rewrite drop_snoc_keep by lia.
    unfold steps_of. by rewrite !length_app, length_fmap.
Qed.

(** X22: A run with a suffix without wildcards, which starts in a directory
    without matching files and saves at increasing steps from 0 to
    [10 ^ 8 - 1] with a positive [keep_last_n], leaves exactly the files of
    its last [keep_last_n] saves; loading afterwards reads the last save:
    when its state fits the model, both loaders return the model with that
    state, [load_checkpoint_or_initialise] with the step of the last save
    and with its optimizer state if one is given and the state fits it. *)
Theorem run_keeps_last (suffix : string) (keep_last_n : Z)
    (l : list (Z * model_state * optimizer_state)) fs :
  plain suffix = true ->
  (0 < keep_last_n)%Z ->
  glob suffix fs = [] ->
  Forall (fun s => (0 <= s < 10 ^ 8)%Z) (steps_of l) ->
  StronglySorted Z.lt (steps_of l) ->
  let fs' := saves suffix keep_last_n l fs in
  sorted (glob suffix fs') =
    checkpoint_name suffix <$>
      drop (length l - Z.to_nat keep_last_n) (steps_of l) /\
  forall s m o m0 m', last l = Some (s, m, o) ->
    load_state_dict m0 m = Ok m' ->
    load_checkpoint load_state_dict fs' suffix m0 =
      Ok (checkpoint_name suffix s, m') /\
    load_checkpoint_or_initialise fs' suffix m0 None = Ok (s, m', None) /\
    forall o0 o', optimizer_load_state_dict o0 o = Ok o' ->
      load_checkpoint_or_initialise fs' suffix m0 (Some o0) =
        Ok (s, m', Some o').
Proof.
  intros _ Hk Hempty Hrange Hsorted fs'.
  split; [by apply saves_files|].
  intros s m o m0 m' Hlast Hm.
  destruct l as [|x l _] using rev_ind; [done|].
  rewrite last_snoc in Hlast. injection Hlast as ->.
  unfold steps_of in Hrange, Hsorted. rewrite fmap_app in Hrange, Hsorted.
  cbn [fmap list_fmap fst] in Hrange, Hsorted. fold (steps_of l) in *.
  apply Forall_app in Hrange as [Hrange Hs]. rewrite Forall_singleton in Hs.
  pose proof (StronglySorted_snoc _ _ _ Hsorted) as [Hsorted_l Hbelow].
  assert (Hmax : forall g, g ∈ glob suffix (saves suffix keep_last_n l fs) ->
                 String.le g (checkpoint_name suffix s)).
  { intros g Hg.
    rewrite <- (elem_of_sorted (glob suffix (saves suffix keep_last_n l fs))) in Hg.
    rewrite saves_files in Hg by done.
    apply list_elem_of_fmap in Hg as (s' & -> & Hs').
    assert (Hin : s' ∈ steps_of l) by (eapply subseteq_drop, Hs').
    unfold String.le, String.leb. rewrite checkpoint_name_compare.
    - by rewrite (proj2 (Z.compare_lt_iff s' s) (Hbelow s' Hin)).
    - rewrite Forall_forall in Hrange. by apply Hrange.
    - done. }
  destruct (save_checkpoint_newest suffix _ m o s keep_last_n Hs Hmax)
    as [Hnew Hlook].
  apply (load_saved suffix _ fs' m m0 m' o s); [|  |done].
  - unfold fs', saves. rewrite foldl_app. exact Hnew.
  - unfold fs', saves. rewrite foldl_app. exact Hlook.
Qed.

End Loading.

(** A run with numbers for states; a state fits every model and is the
    state of the model after loading. *)
Definition sample_run : list (Z * nat * nat) :=
  [(10%Z, 1, 5); (20%Z, 2, 6); (30%Z, 3, 7); (40%Z, 4, 8)].

Definition accept (current state : nat) : result nat := Ok state.

Lemma save_then_load_witness :
  load_checkpoint accept
    (save_checkpoint (saves "run" 0 [(10%Z, 1, 5)] ∅) "run" 2 6 20 1) "run" 0
  = Ok ("run.checkpoint_00000020.pt", 2) /\
  load_checkpoint_or_initialise S accept accept
    (save_checkpoint (saves "run" 0 [(10%Z, 1, 5)] ∅) "run" 2 6 20 1) "run"
    0 (Some 0)
  = Ok (20%Z, 2, Some 6).
Proof.
  destruct (save_then_load S accept accept "run"
              (saves "run" 0 [(10%Z, 1, 5)] ∅) 2 0 2 6 20 1)
    as (Hload & _ & Hinit).
  - reflexivity.
  - lia.
  - assert (Hglob : glob "run" (saves "run" 0 [(10%Z, 1, 5)] ∅)
                    = ["run.checkpoint_00000010.pt"])
      by (vm_compute; reflexivity).
    intros g Hg. rewrite Hglob in Hg.
    apply list_elem_of_singleton in Hg as ->. by vm_compute.
  - reflexivity.
  - split; [exact Hload|]. by apply Hinit.
Defined.

(** A directory with a file that matches and is no checkpoint, and an
    older checkpoint: both loaders raise what [torch.load] raises on the
    newer file. *)
Definition sample_dir : gmap string (file nat nat) :=
  {[ "run.checkpoint_00000010.pt" := checkpoint 10 1 5;
     "run.checkpoint_00000020.pt" := Unloadable RuntimeError ]}.

Lemma loaders_agree_witness :
  load_checkpoint accept sample_dir "run" 0 = Raise RuntimeError /\
  load_checkpoint_or_initialise S accept accept sample_dir "run" 0 (Some 0)
    = Raise RuntimeError /\
  load_checkpoint_or_initialise S accept accept ∅ "run" 0 (Some 0)
    = Ok (0%Z, 1, Some 0).
Proof.
  destruct (loaders_agree S accept accept "run" sample_dir 0 eq_refl)
    as [_ Hsome].
  destruct (loaders_agree S accept accept "run" ∅ 0 eq_refl) as [Hnone _].
  destruct Hsome as (path & c & _ & _ & _ & Hagree);
    [vm_compute; discriminate|].
  assert (Hload : load_checkpoint accept sample_dir "run" 0 = Raise RuntimeError)
    by (vm_compute; reflexivity).
  rewrite Hload in Hagree.
  split; [exact Hload|]. split; [apply Hagree|].
  apply Hnone. vm_compute. reflexivity.
Defined.

Lemma run_keeps_last_witness :
  sorted (glob "run" (saves "run" 2 sample_run ∅)) =
    ["run.checkpoint_00000030.pt"; "run.checkpoint_00000040.pt"] /\
  load_checkpoint_or_initialise S accept accept (saves "run" 2 sample_run ∅)
    "run" 0 (Some 0)
    = Ok (40%Z, 4, Some 8).
Proof.
  destruct (run_keeps_last S accept accept "run" 2 sample_run ∅)
    as [Hfiles Hload].
  - reflexivity.
  - lia.
  - vm_compute. reflexivity.
  - repeat constructor; cbn; lia.
  - repeat constructor; cbn; lia.
  - split; [exact Hfiles|].
    destruct (Hload 40%Z 4 8 0 4 eq_refl eq_refl) as (_ & _ & Hopt).
    by apply Hopt.
Defined.

End CheckpointFacts.

(** * Further properties of [AddPositionalEncoding] *)

Module PositionalFacts.
Import PositionalEncoding.
Import Reals Lra.

(** X23: For an input of any number of positions, [forward] adds to every entry
    of example [b] the entry of row [b] of the table, then applies the
    dropout; the length of the sequences is not limited by [max_len]. *)
Theorem forward_adds_row_of_example (emb_dim max_len : nat)
    (dropout : tensor3 -> tensor3) (m : module) (x : tensor3) :
  init emb_dim dropout max_len = Ok m ->
  size0 x <= max_len ->
  size2 x = emb_dim ->
  exists s,
    forward m x = Ok (dropout s) /\
    size0 s = size0 x /\ size1 s = size1 x /\ size2 s = size2 x /\
    forall b p d, b < size0 x -> p < size1 x -> d < size2 x ->
      entry s b p d = (entry x b p d + pe_entry emb_dim b d)%R.
Proof.
  intros Hinit Hbs Hed.
  destruct (add_pe_entry emb_dim max_len dropout m x Hinit Hbs Hed)
    as (s & Hs & Hrest).
  exists s. split; [|exact Hrest].
  unfold forward. rewrite Hs. cbn.
  unfold init in Hinit. destruct (emb_dim =? 0); [done|].
  destruct (_ || _); [|done]. by injection Hinit as <-.
Qed.

Lemma forward_adds_row_of_example_witness :
  exists s,
    forward (mk_module (mk_tensor3 3 1 2 (fun p _ d => pe_entry 2 p d))
                       (fun t => t))
            (mk_tensor3 2 7 2 (fun _ _ _ => 0%R)) = Ok s /\
    size1 s = 7 /\
    entry s 1 6 0 = (0 + pe_entry 2 1 0)%R.
Proof.
  destruct (forward_adds_row_of_example 2 3 (fun t => t)
              (mk_module (mk_tensor3 3 1 2 (fun p _ d => pe_entry 2 p d))
                         (fun t => t))
              (mk_tensor3 2 7 2 (fun _ _ _ => 0%R)))
    as (s & Hs & _ & H1 & _ & Hentry).
  - reflexivity.
  - cbn. lia.
  - reflexivity.
  - exists s. split; [exact Hs|]. split; [exact H1|].
    apply (Hentry 1 6 0); cbn; lia.
Defined.

Lemma broadcast_size_mismatch (a b : nat) :
  a <> b -> a <> 1 -> b <> 1 -> broadcast_size a b = Raise RuntimeError.
Proof.
  intros Hab Ha Hb. unfold broadcast_size.
  destruct (Nat.eqb_spec a b); [done|].
  destruct (Nat.eqb_spec a 1); [done|].
  by destruct (Nat.eqb_spec b 1).
Qed.

(** X24: A batch of more examples than the table has rows is refused: the slice
    of the table has [max_len] rows, which does not broadcast against the
    batch dimension. *)
Theorem forward_batch_beyond_table (emb_dim max_len : nat)
    (dropout : tensor3 -> tensor3) (m : module) (x : tensor3) :
  init emb_dim dropout max_len = Ok m ->
  2 <= max_len -> max_len < size0 x ->
  forward m x = Raise RuntimeError.
Proof.
  intros Hinit Hlen Hbs. unfold init in Hinit.
  destruct (emb_dim =? 0); [done|].
  destruct (_ || _); [|done]. injection Hinit as <-.
  unfold forward, add_pe, add, slice0. cbn [pe size0 size1 size2 entry].
  rewrite Nat.min_r by lia.
  by rewrite (broadcast_size_mismatch (size0 x) max_len) by lia.
Qed.

Lemma forward_batch_beyond_table_witness :
  forward (mk_module (mk_tensor3 3 1 2 (fun p _ d => pe_entry 2 p d))
                     (fun t => t))
          (mk_tensor3 4 1 2 (fun _ _ _ => 0%R)) = Raise RuntimeError.
Proof.
  apply (forward_batch_beyond_table 2 3 (fun t => t)).
  - reflexivity.
  - lia.
  - cbn. lia.
Defined.

(** X25: Which embedding sizes the constructor accepts: 0 divides by zero, an
    odd size above 1 fails when the cosines are assigned, every even size
    and size 1 give a table of shape [max_len, 1, emb_dim]. *)
Theorem init_accepts (emb_dim max_len : nat) (dropout : tensor3 -> tensor3) :
  init emb_dim dropout max_len =
  if emb_dim =? 0 then Raise ZeroDivisionError
  else if Nat.even emb_dim || (emb_dim =? 1)
  then Ok (mk_module (mk_tensor3 max_len 1 emb_dim
                                 (fun p _ d => pe_entry emb_dim p d))
                     dropout)
  else Raise RuntimeError.
Proof.
  unfold init. destruct (Nat.eqb_spec emb_dim 0) as [|Hz]; [done|].
  assert (Heq : (emb_dim / 2 =? (emb_dim + 1) / 2) || ((emb_dim + 1) / 2 =? 1)
                = Nat.even emb_dim || (emb_dim =? 1)).
  { destruct (Nat.Even_or_Odd emb_dim) as [[k Hk]|[k Hk]].
    - assert (Hev : Nat.even emb_dim = true)
        by (apply Nat.even_spec; by exists k).
      rewrite Hev. cbn [orb].
      assert (H1 : emb_dim / 2 = k) by (symmetry; apply Nat.div_unique with 0; lia).
      assert (H2 : (emb_dim + 1) / 2 = k) by (symmetry; apply Nat.div_unique with 1; lia).
      by rewrite H1, H2, Nat.eqb_refl.
    - assert (Hod : Nat.even emb_dim = false).
      { rewrite <- Nat.negb_odd.
        assert (Nat.odd emb_dim = true) as -> by (apply Nat.odd_spec; by exists k).
        done. }
      rewrite Hod. cbn [orb].
      assert (H1 : emb_dim / 2 = k) by (symmetry; apply Nat.div_unique with 1; lia).
      assert (H2 : (emb_dim + 1) / 2 = S k) by (symmetry; apply Nat.div_unique with 0; lia).
      rewrite H1, H2.
      destruct (Nat.eqb_spec k (S k)); [lia|]. cbn [orb].
      destruct (Nat.eqb_spec (S k) 1), (Nat.eqb_spec emb_dim 1); (done || lia). }
  by rewrite Heq.
Qed.

(** X26: Every entry of the table lies between -1 and 1, and row 0 of the table
    is 0 in the even columns and 1 in the odd ones. *)
Theorem table_entries (emb_dim p d : nat) :
  (-1 <= pe_entry emb_dim p d <= 1)%R /\
  pe_entry emb_dim 0 d = (if Nat.even d then 0 else 1)%R.
Proof.
  unfold pe_entry. split.
  - destruct (Nat.even d); [apply SIN_bound|apply COS_bound].
  - cbn [INR]. rewrite Rmult_0_l. destruct (Nat.even d); [apply sin_0|apply cos_0].
Qed.

End PositionalFacts.
